(** * AssignmentCheck: the module composition runtime

    A shallow embedding of the three cooperating runtime components of the
    repository, and the properties stated about them:

    - [ModuleLoader] (module-loader.js): registry of named factories with
      dependency lists, dependency resolution and memoized initialization;
    - [EventBus] (EventBusModule): publish/subscribe with priorities and
      once-listeners;
    - [StateManager] (StateManagerModule): keyed state with change
      listeners, persistence port and JSON export/import;

    and of the two modules the state is kept by: [Storage]
    (src/modules/storage.js), the service on top of the browser storage,
    and [StudentManager] (src/modules/student-manager.js), the list of
    students that is kept through it.

    JavaScript values are an inductive type; every source function runs in
    a small state-and-exception monad over a [world] that carries the
    component's variables, the console and the trace of the functions the
    component has invoked.  The first part of the file holds the
    definitions, the second part the lemmas. *)

From stdpp Require Import gmap strings list fin_maps pretty relations sorting.

Set Warnings "-register-all,-clear-no-such-hyp".

Open Scope string_scope.
Open Scope Z_scope.
Open Scope list_scope.

(** ** JavaScript values *)

Module Js.

(** Numbers are the finite integers ([VNum]), [NaN] ([VNaN]) and the
    two infinities ([VInf], negative or not); a string is held as the
    bytes of its UTF-8 encoding; an object is the list of its own
    enumerable properties in creation order (the integer-like keys, which
    JavaScript enumerates first, are not treated apart); a function value
    is a reference into the table of function behaviours (see
    [call_result] below), so that [===] on functions is equality of
    references. *)
Inductive value : Type :=
  | VUndefined
  | VNull
  | VBool (b : bool)
  | VNum (n : Z)
  | VNaN
  | VInf (negative : bool)
  | VStr (s : string)
  | VArr (items : list value)
  | VObj (props : list (string * value))
  | VFun (ref : nat).

Abbreviation obj := (list (string * value)).

(** ToBoolean. *)
Definition truthy (v : value) : bool :=
  match v with
  | VUndefined | VNull | VNaN => false
  | VBool b => b
  | VNum n => negb (n =? 0)
  | VStr s => negb (String.eqb s EmptyString)
  | VInf _ | VArr _ | VObj _ | VFun _ => true
  end.

(** [typeof v === 'function'], [typeof v === 'object'] (true of [null]
    too, as in JavaScript) and [typeof v === 'string']. *)
Definition is_function (v : value) : bool :=
  match v with VFun _ => true | _ => false end.

Definition typeof_object (v : value) : bool :=
  match v with VNull | VArr _ | VObj _ => true | _ => false end.

(** [s === v] for a string [s], and [f === v] for a function reference. *)
Definition strict_eq_str (s : string) (v : value) : bool :=
  match v with VStr s' => String.eqb s s' | _ => false end.

Definition strict_eq_fun (f : nat) (v : value) : bool :=
  match v with VFun f' => Nat.eqb f f' | _ => false end.

(** Insertion-ordered dictionaries: the own properties of an object and the
    entries of a [Map].  A write is in place when the key exists and is
    appended otherwise. *)
Fixpoint alist_get {V} (k : string) (m : list (string * V)) : option V :=
  match m with
  | [] => None
  | (k', v) :: m' => if String.eqb k k' then Some v else alist_get k m'
  end.

Fixpoint alist_set {V} (k : string) (v : V) (m : list (string * V)) : list (string * V) :=
  match m with
  | [] => [(k, v)]
  | (k', v') :: m' =>
      if String.eqb k k' then (k, v) :: m' else (k', v') :: alist_set k v m'
  end.

Fixpoint alist_delete {V} (k : string) (m : list (string * V)) : list (string * V) :=
  match m with
  | [] => []
  | (k', v) :: m' => if String.eqb k k' then m' else (k', v) :: alist_delete k m'
  end.

(** Property read [o[k]]: [undefined] when [o] has no such own property.
    Only plain objects carry properties in this model. *)
Definition get_prop (v : value) (k : string) : value :=
  match v with
  | VObj o => default VUndefined (alist_get k o)
  | _ => VUndefined
  end.

(** Array index keys, as [for-in] and spread see them. *)
Definition index_props (items : list value) : obj :=
  imap (fun i v => (pretty (N.of_nat i), v)) items.

(** The own enumerable properties that object spread [{...v}] copies and
    [for (k in v)] enumerates: the properties of an object, the elements
    of an array, the characters of a string, and nothing of the other
    values.  The order is the one of JavaScript for an array and for an
    object none of whose keys is an array index; the characters of a
    string are its bytes, which are its code units when it is ASCII. *)
Definition own_props (v : value) : obj :=
  match v with
  | VObj o => o
  | VArr items => index_props items
  | VStr s => index_props (map (fun c => VStr (String c EmptyString)) (String.list_ascii_of_string s))
  | _ => []
  end.

(** [{...target, ...source}] continues a literal under construction: every
    property of [source] is written onto [target] in order. *)
Definition obj_assign (target source : obj) : obj :=
  foldl (fun acc kv => alist_set kv.1 kv.2 acc) target source.

(** [String.prototype.trim] takes the WhiteSpace and LineTerminator code
    points off both ends of a string: U+0009 to U+000D, U+0020, U+00A0,
    U+1680, U+2000 to U+200A, U+2028, U+2029, U+202F, U+205F, U+3000 and
    U+FEFF.  In UTF-8 they take one, two or three bytes. *)
Definition is_white_space (c : Ascii.ascii) : bool :=
  let n := Ascii.nat_of_ascii c in
  (Nat.leb 9 n && Nat.leb n 13) || Nat.eqb n 32.

(** U+00A0 is C2 A0. *)
Definition is_white_space2 (c1 c2 : Ascii.ascii) : bool :=
  Nat.eqb (Ascii.nat_of_ascii c1) 194 && Nat.eqb (Ascii.nat_of_ascii c2) 160.

(** U+1680 is E1 9A 80; U+2000 to U+200A, U+2028, U+2029 and U+202F are
    E2 80 followed by 80 to 8A, A8, A9 and AF; U+205F is E2 81 9F; U+3000
    is E3 80 80; U+FEFF is EF BB BF. *)
Definition is_white_space3 (c1 c2 c3 : Ascii.ascii) : bool :=
  let n1 := Ascii.nat_of_ascii c1 in
  let n2 := Ascii.nat_of_ascii c2 in
  let n3 := Ascii.nat_of_ascii c3 in
  (Nat.eqb n1 225 && Nat.eqb n2 154 && Nat.eqb n3 128)
  || (Nat.eqb n1 226 && Nat.eqb n2 128
      && ((Nat.leb 128 n3 && Nat.leb n3 138)
          || Nat.eqb n3 168 || Nat.eqb n3 169 || Nat.eqb n3 175))
  || (Nat.eqb n1 226 && Nat.eqb n2 129 && Nat.eqb n3 159)
  || (Nat.eqb n1 227 && Nat.eqb n2 128 && Nat.eqb n3 128)
  || (Nat.eqb n1 239 && Nat.eqb n2 187 && Nat.eqb n3 191).

Fixpoint trimStart (s : string) : string :=
  match s with
  | EmptyString => EmptyString
  | String c1 s1 =>
      if is_white_space c1 then trimStart s1
      else
        match s1 with
        | String c2 s2 =>
            if is_white_space2 c1 c2 then trimStart s2
            else
              match s2 with
              | String c3 s3 => if is_white_space3 c1 c2 c3 then trimStart s3 else s
              | EmptyString => s
              end
        | EmptyString => s
        end
  end.

(** [trimEnd] on the string read backwards, the last byte of a character
    first; a byte that begins a character is never one that continues
    another, so what matches at the end of the string is a character. *)
Fixpoint trimEnd_backwards (s : string) : string :=
  match s with
  | EmptyString => EmptyString
  | String c3 s1 =>
      if is_white_space c3 then trimEnd_backwards s1
      else
        match s1 with
        | String c2 s2 =>
            if is_white_space2 c2 c3 then trimEnd_backwards s2
            else
              match s2 with
              | String c1 s3 =>
                  if is_white_space3 c1 c2 c3 then trimEnd_backwards s3 else s
              | EmptyString => s
              end
        | EmptyString => s
        end
  end.

Definition trim (s : string) : string :=
  String.rev (trimEnd_backwards (String.rev (trimStart s))).

(** [Array.prototype.sort(cmp)] is a stable sort: [x] moves behind [y] only
    when [cmp x y > 0]. *)
Fixpoint sort_insert {A} (cmp : A -> A -> Z) (x : A) (l : list A) : list A :=
  match l with
  | [] => [x]
  | y :: l' => if 0 <? cmp x y then y :: sort_insert cmp x l' else x :: l
  end.

Definition Array_sort {A} (cmp : A -> A -> Z) (l : list A) : list A :=
  foldr (sort_insert cmp) [] l.

(** What a statement does: it completes with a value or throws one. *)
Inductive outcome (A : Type) : Type :=
  | Ret (a : A)
  | Throw (e : value).
Global Arguments Ret {A} a.
Global Arguments Throw {A} e.

(** ** JSON

    A JSON text is represented by the document it denotes; [Malformed]
    stands for every string that is not a JSON text.  The indentation
    argument of [JSON.stringify(v, null, 2)] only adds white space. *)
Inductive json : Type :=
  | JNull
  | JBool (b : bool)
  | JNum (n : Z)
  | JStr (s : string)
  | JArr (items : list json)
  | JObj (members : list (string * json)).

Inductive text := Json (doc : json) | Malformed.

(** SerializeJSONProperty: [None] is the result [undefined]; a number
    that is not finite is written as [null].  Inside an array [undefined]
    is written as [null]; a property whose value serializes to
    [undefined] is left out of its object. *)
Fixpoint to_json (v : value) : option json :=
  match v with
  | VUndefined | VFun _ => None
  | VNull | VNaN | VInf _ => Some JNull
  | VBool b => Some (JBool b)
  | VNum n => Some (JNum n)
  | VStr s => Some (JStr s)
  | VArr items =>
      Some (JArr ((fix elements (l : list value) : list json :=
                     match l with
                     | [] => []
                     | x :: l' => default JNull (to_json x) :: elements l'
                     end) items))
  | VObj props =>
      Some (JObj ((fix members (l : list (string * value)) : list (string * json) :=
                     match l with
                     | [] => []
                     | (k, x) :: l' =>
                         match to_json x with
                         | Some j => (k, j) :: members l'
                         | None => members l'
                         end
                     end) props))
  end.

(** [JSON.stringify(v)]: a text, or [undefined] ([None]). *)
Definition JSON_stringify (v : value) : option text := Json <$> to_json v.

Fixpoint of_json (j : json) : value :=
  match j with
  | JNull => VNull
  | JBool b => VBool b
  | JNum n => VNum n
  | JStr s => VStr s
  | JArr items => VArr (map of_json items)
  | JObj members =>
      VObj ((fix props (l : list (string * json)) : list (string * value) :=
               match l with
               | [] => []
               | (k, x) :: l' => (k, of_json x) :: props l'
               end) members)
  end.

(** [JSON.parse(t)] throws a SyntaxError on a string that is not JSON. *)
Definition JSON_parse (t : text) : outcome value :=
  match t with
  | Json doc => Ret (of_json doc)
  | Malformed => Throw (VStr "SyntaxError")
  end.


(** ** Console, call trace and the monad *)

Inductive level := LError | LWarn.

Record log_entry := Log { log_level : level; log_text : string; log_args : list value }.

(** Where a function was invoked from: the factory of a module, the [init]
    method of a module instance, or the listener with a given id. *)
Inductive site :=
  | Factory (name : string)
  | InitMethod (name : string)
  | Listener (id : string).

Record call := Call { call_site : site; call_fn : nat; call_args : list value }.

Record world (S : Type) := World {
  st : S;
  console : list log_entry;
  trace : list call
}.
Global Arguments World {S} st console trace.
Global Arguments st {S} w.
Global Arguments console {S} w.
Global Arguments trace {S} w.

(** A computation takes the world to an outcome and a new world; [None] is
    a computation that does not return (the fuel of a recursion ran out). *)
Definition M (S A : Type) : Type := world S -> option (outcome A * world S).

Definition ret {S A} (a : A) : M S A := fun w => Some (Ret a, w).

Definition bind {S A B} (m : M S A) (k : A -> M S B) : M S B :=
  fun w =>
    match m w with
    | None => None
    | Some (Ret a, w') => k a w'
    | Some (Throw e, w') => Some (Throw e, w')
    end.

Definition throw {S A} (e : value) : M S A := fun w => Some (Throw e, w).

Definition out_of_fuel {S A} : M S A := fun _ => None.

(** [try { m } catch (e) { h e }] *)
Definition try_catch {S A} (m : M S A) (h : value -> M S A) : M S A :=
  fun w =>
    match m w with
    | None => None
    | Some (Ret a, w') => Some (Ret a, w')
    | Some (Throw e, w') => h e w'
    end.

Definition get_st {S} : M S S := fun w => Some (Ret (st w), w).

Definition put_st {S} (s : S) : M S unit :=
  fun w => Some (Ret tt, World s (console w) (trace w)).

Definition log {S} (l : level) (text : string) (args : list value) : M S unit :=
  fun w => Some (Ret tt, World (st w) (console w ++ [Log l text args]) (trace w)).

Declare Scope js_scope.
Delimit Scope js_scope with js.
Notation "'let*' x ':=' m 'in' k" := (bind m (fun x => k))
  (at level 10, x binder, m at level 100, k at level 200) : js_scope.
Notation "m ';;;' k" := (bind m (fun _ => k))
  (at level 100, k at level 200, right associativity) : js_scope.

(** [arr.forEach(f)] with the variables [f] assigns threaded as [acc]. *)
Fixpoint forEach {S A B} (f : B -> A -> M S A) (arr : list B) (acc : A) : M S A :=
  match arr with
  | [] => ret acc
  | x :: arr' => bind (f x acc) (forEach f arr')
  end.

Section Calls.

(** The behaviour of the function values: what the function behind a
    reference does when applied to arguments, given the calls made so far
    (a closure may keep private state).  Functions do not call back into
    the component that invokes them. *)
Context {S : Type} (call_result : list call -> nat -> list value -> outcome value).

(** [f(args)] for a function reference, recorded in the trace. *)
Definition invoke (from : site) (f : nat) (args : list value) : M S value :=
  fun w =>
    Some (call_result (trace w) f args,
          World (st w) (console w) (trace w ++ [Call from f args])).

(** [v(args)] for any value: calling a non-function throws a TypeError. *)
Definition invoke_value (from : site) (v : value) (args : list value) : M S value :=
  match v with
  | VFun f => invoke from f args
  | _ => throw (VStr "TypeError")
  end.

End Calls.

End Js.

Import Js.
Open Scope js_scope.

(** ** The event bus (EventBusModule) *)

Module EventBus.

Record listener := mkListener { id : string; callback : nat; priority : Z }.

(** An element of [allListeners] in [emit]: [{ ...l, isOnce, isWildcard }]. *)
Record tagged := mkTagged { entry : listener; isOnce : bool; isWildcard : bool }.

(** The module's variables.  The counter is exact below 2^53, the range the
    model covers. *)
Record bus := mkBus {
  listeners : gmap string (list listener);
  onceListeners : gmap string (list listener);
  listenerIdCounter : N
}.

Definition initial : bus := mkBus ∅ ∅ 0%N.

(** [Map.get], [Map.delete] at a key that may be any value: only string
    keys are ever stored. *)
Definition map_get (m : gmap string (list listener)) (event : value) : option (list listener) :=
  match event with VStr k => m !! k | _ => None end.

Definition map_delete (m : gmap string (list listener)) (event : value) : gmap string (list listener) :=
  match event with VStr k => delete k m | _ => m end.

(** [(a, b) => b.priority - a.priority] *)
Definition by_priority (a b : listener) : Z := priority b - priority a.

Definition on (event : string) (callback : value) (priority : option Z) : M bus value :=
  match callback with
  | VFun f =>
      let* s := get_st in
      let counter := N.succ (listenerIdCounter s) in
      let id := "listener_" +:+ pretty counter in
      let arr := default [] (listeners s !! event) in
      let listener := mkListener id f (default 0 priority) in
      put_st (mkBus (<[event := Array_sort by_priority (arr ++ [listener])]> (listeners s))
                    (onceListeners s) counter) ;;;
      ret (VStr id)
  | _ =>
      log LWarn "[EventBus] Callback must be a function" [] ;;;
      ret VNull
  end.

Definition once (event : string) (callback : value) (priority : option Z) : M bus value :=
  match callback with
  | VFun f =>
      let* s := get_st in
      let counter := N.succ (listenerIdCounter s) in
      let id := "once_" +:+ pretty counter in
      let arr := default [] (onceListeners s !! event) in
      let listener := mkListener id f (default 0 priority) in
      put_st (mkBus (listeners s)
                    (<[event := Array_sort by_priority (arr ++ [listener])]> (onceListeners s))
                    counter) ;;;
      ret (VStr id)
  | _ =>
      log LWarn "[EventBus] Callback must be a function" [] ;;;
      ret VNull
  end.

(** [listener.id === callbackOrId || listener.callback === callbackOrId] *)
Definition matches (callbackOrId : value) (l : listener) : bool :=
  strict_eq_str (id l) callbackOrId || strict_eq_fun (callback l) callbackOrId.

(** The loop [for (let i = n - 1; i >= 0; i--)] of [off], entered with
    [n] = the length of the array; it splices the array in place and sets
    [removed]. *)
Fixpoint splice_loop (p : listener -> bool) (n : nat) (arr : list listener) (removed : bool)
  : list listener * bool :=
  match n with
  | O => (arr, removed)
  | S i =>
      match arr !! i with
      | Some l => if p l then splice_loop p i (delete i arr) true
                  else splice_loop p i arr removed
      | None => splice_loop p i arr removed
      end
  end.

(** The array a map holds after the in-place splices: the entry is the
    spliced array, and is deleted when the array is empty. *)
Definition store_back (m : gmap string (list listener)) (event : value) (arr : list listener)
  : gmap string (list listener) :=
  match arr with
  | [] => map_delete m event
  | _ => match event with VStr k => <[k := arr]> m | _ => m end
  end.

Definition off (event : value) (callbackOrId : value) : M bus value :=
  let* s := get_st in
  match callbackOrId with
  | VUndefined =>
      (if truthy event
       then put_st (mkBus (map_delete (listeners s) event)
                          (map_delete (onceListeners s) event) (listenerIdCounter s))
       else put_st (mkBus ∅ ∅ (listenerIdCounter s))) ;;;
      ret VUndefined
  | _ =>
      let eventListeners := default [] (map_get (listeners s) event) in
      let onceEventListeners := default [] (map_get (onceListeners s) event) in
      let '(eventListeners, removed) :=
        splice_loop (matches callbackOrId) (length eventListeners) eventListeners false in
      let '(onceEventListeners, removed) :=
        splice_loop (matches callbackOrId) (length onceEventListeners) onceEventListeners removed in
      put_st (mkBus (store_back (listeners s) event eventListeners)
                    (store_back (onceListeners s) event onceEventListeners)
                    (listenerIdCounter s)) ;;;
      ret (VBool removed)
  end.

Section Emit.

Context (call_result : list call -> nat -> list value -> outcome value).

(** The text of the template literal in [emit]'s catch clause. *)
Definition emit_error_text (event : string) : string :=
  "[EventBus] Error in event listener for " +:+ String (Ascii.ascii_of_nat 34) event
    +:+ String (Ascii.ascii_of_nat 34) ":".

(** One iteration of the dispatch loop. *)
Definition dispatch (event : string) (data : value) (listener : tagged) (results : list value)
  : M bus (list value) :=
  let* results :=
    try_catch
      (if isWildcard listener
       then let* r := invoke call_result (Listener (id (entry listener)))
                        (callback (entry listener)) [VStr event; data] in
            ret (results ++ [r])
       else let* r := invoke call_result (Listener (id (entry listener)))
                        (callback (entry listener)) [data] in
            ret (results ++ [r]))
      (fun error => log LError (emit_error_text event) [error] ;;; ret results) in
  (if isOnce listener then off (VStr event) (VStr (id (entry listener))) ;;; ret tt else ret tt) ;;;
  ret results.

(** The snapshot [allListeners] taken before dispatch. *)
Definition allListeners (s : bus) (event : string) : list tagged :=
  let eventListeners := default [] (listeners s !! event) in
  let onceEventListeners := default [] (onceListeners s !! event) in
  let wildcardListeners := default [] (listeners s !! "*") in
  let wildcardOnceListeners := default [] (onceListeners s !! "*") in
  map (fun l => mkTagged l false false) eventListeners
  ++ map (fun l => mkTagged l true false) onceEventListeners
  ++ map (fun l => mkTagged l false true) wildcardListeners
  ++ map (fun l => mkTagged l true true) wildcardOnceListeners.

(** [for (let i = allListeners.length - 1; i >= 0; i--)] visits the
    snapshot from its last element to its first. *)
Definition emit (event : string) (data : value) : M bus (list value) :=
  let* s := get_st in
  forEach (dispatch event data) (rev (allListeners s event)) [].

End Emit.

Definition getListeners (event : string) : M bus (list tagged) :=
  let* s := get_st in
  let eventListeners := default [] (listeners s !! event) in
  let onceEventListeners := default [] (onceListeners s !! event) in
  ret (map (fun l => mkTagged l false false) eventListeners
       ++ map (fun l => mkTagged l true false) onceEventListeners).

Definition hasListeners (event : string) : M bus bool :=
  let* s := get_st in
  let eventListeners := default [] (listeners s !! event) in
  let onceEventListeners := default [] (onceListeners s !! event) in
  ret (Nat.ltb 0 (length eventListeners) || Nat.ltb 0 (length onceEventListeners)).

Definition getListenerCount (event : string) : M bus nat :=
  let* s := get_st in
  let eventListeners := default [] (listeners s !! event) in
  let onceEventListeners := default [] (onceListeners s !! event) in
  ret (length eventListeners + length onceEventListeners)%nat.

End EventBus.

(** ** The module loader (module-loader.js) *)

Module ModuleLoader.

(** [modules[name]]: [{ factory, deps, instance }].  [register] stores only
    functions as factories, so the factory is kept as a function
    reference. *)
Record entry := mkEntry { factory : nat; deps : list string; instance : value }.

(** The variables of the closure.  [modules] and [dependencies] are objects
    used as maps from names (names are taken to differ from the members of
    [Object.prototype]); [initQueue] is never read or written and is left
    out.  A map does not keep the order in which [Object.keys(modules)]
    enumerates the names: [initAll] below takes that array as an argument;
    [getStatus] and [getRegisteredModules], which only report it, are not
    embedded. *)
Record loader := mkLoader {
  modules : gmap string entry;
  dependencies : gmap string (list string);
  initializedModules : gset string
}.

Definition initial : loader := mkLoader ∅ ∅ ∅.

(** [deps] is [None] when the argument is omitted.  The function returns
    the loader itself, for chaining; the model returns nothing. *)
Definition register (name : value) (moduleFactory : value) (deps : option (list string))
  : M loader unit :=
  match name with
  | VStr n =>
      if String.eqb (trim n) EmptyString then
        log LError "模块名称不能为空" []
      else
        match moduleFactory with
        | VFun f =>
            let* s := get_st in
            put_st (mkLoader
                      (<[n := mkEntry f (default [] deps) VNull]> (modules s))
                      (match deps with
                       | Some (d :: ds) => <[n := d :: ds]> (dependencies s)
                       | _ => dependencies s
                       end)
                      (initializedModules s))
        | _ => log LError "模块工厂函数必须是函数类型：" [name]
        end
  | _ => log LError "模块名称不能为空" []
  end.

(** [name in modules], for a name that is not a member of
    [Object.prototype]: those every object has. *)
Definition hasModule (name : string) : M loader bool :=
  let* s := get_st in
  ret (bool_decide (is_Some (modules s !! name))).

(** One step of [deps.forEach] in [resolveDependencies]; [resolved] and the
    shared set [visited] are the variables the callback updates. *)
Definition resolve_dep
    (resolveDependencies : string -> option (gset string) -> M loader (list string * gset string))
    (dep : string) (acc : list string * gset string) : M loader (list string * gset string) :=
  let* acc :=
    (if bool_decide (dep ∈ acc.2) then ret acc
     else let* r := resolveDependencies dep (Some acc.2) in
          ret (acc.1 ++ r.1, r.2)) in
  if bool_decide (dep ∈ acc.1) then ret acc else ret (acc.1 ++ [dep], acc.2).

(** The function returns its array together with the final contents of the
    set [visited], which the caller shares.  [visited] is [None] when the
    argument is omitted. *)
Fixpoint resolveDependencies (fuel : nat) (name : string) (visited : option (gset string))
  : M loader (list string * gset string) :=
  match fuel with
  | O => out_of_fuel
  | S fuel =>
      let visited := default ∅ visited in
      if bool_decide (name ∈ visited) then
        log LWarn "检测到循环依赖：" [VStr name] ;;;
        ret ([], visited)
      else
        let* s := get_st in
        match modules s !! name with
        | None =>
            log LWarn "模块不存在：" [VStr name] ;;;
            ret ([], visited)
        | Some m =>
            let visited := {[name]} ∪ visited in
            forEach (resolve_dep (resolveDependencies fuel)) (deps m) ([], visited)
        end
  end.

Definition get (name : string) : M loader value :=
  let* s := get_st in
  match modules s !! name with
  | None =>
      log LWarn "模块未注册：" [VStr name] ;;;
      ret VNull
  | Some m =>
      if truthy (instance m) then ret (instance m)
      else log LWarn "模块尚未初始化：" [VStr name] ;;; ret VNull
  end.

Section Init.

Context (call_result : list call -> nat -> list value -> outcome value).

(** [modules[dep] && modules[dep].instance ? modules[dep].instance : null] *)
Definition depInstance (s : loader) (dep : string) : value :=
  match modules s !! dep with
  | Some d => if truthy (instance d) then instance d else VNull
  | None => VNull
  end.

(** The body of the [try] block of [initModule]. *)
Definition createInstance (name : string) (deps : list string) : M loader bool :=
  let* s := get_st in
  let depInstances := map (depInstance s) deps in
  let* instance :=
    match modules s !! name with
    | Some m => invoke call_result (Factory name) (factory m) depInstances
    | None => throw (VStr "TypeError")
    end in
  if truthy instance then
    let* s := get_st in
    put_st (mkLoader
              (alter (fun m => mkEntry (factory m) (ModuleLoader.deps m) instance) name (modules s))
              (dependencies s)
              ({[name]} ∪ initializedModules s)) ;;;
    (if is_function (get_prop instance "init")
     then invoke_value call_result (InitMethod name) (get_prop instance "init") [] ;;; ret tt
     else ret tt) ;;;
    ret true
  else
    log LError "模块实例创建失败：" [VStr name] ;;;
    ret false.

(** One step of [deps.forEach] in [initModule]. *)
Definition init_dep (initModule : string -> M loader bool) (dep : string) (_ : unit)
  : M loader unit :=
  let* ok := initModule dep in
  if ok then ret tt
  else log LError "依赖模块初始化失败：" [VStr dep].

Fixpoint initModule (fuel : nat) (name : string) : M loader bool :=
  match fuel with
  | O => out_of_fuel
  | S fuel =>
      let* s := get_st in
      if bool_decide (name ∈ initializedModules s) then ret true
      else
        match modules s !! name with
        | None =>
            log LError "模块不存在，无法初始化：" [VStr name] ;;;
            ret false
        | Some m =>
            let deps := deps m in
            forEach (init_dep (initModule fuel)) deps tt ;;;
            try_catch (createInstance name deps)
              (fun e => log LError "模块初始化异常：" [VStr name; e] ;;; ret false)
        end
  end.




End Init.

(** [Object.keys(modules)] lists every name registered, the name
    [__proto__] apart: the assignment of [register] makes the entry of
    that name the prototype of [modules].  The loop is the one of the code
    on a registry that has no module under that name. *)
Definition reset : M loader unit :=
  let* s := get_st in
  put_st (mkLoader ((fun m => mkEntry (factory m) (deps m) VNull) <$> modules s)
                   (dependencies s) ∅).

End ModuleLoader.

(** ** The state manager (StateManagerModule) *)

Module StateManager.

Definition STATE_KEY : string := "homework_app_state".

Definition DEFAULT_STATE : obj :=
  [ ("nameVisibility", VBool false);
    ("immersiveMode", VBool false);
    ("gradingMode", VBool false);
    ("footerHidden", VBool false);
    ("statsImmersive", VBool false);
    ("statsSelectedTasks", VArr []);
    ("modalStack", VArr []) ].

(** The persistence port the module is applied to ([storageService]): a
    state of type [P] with a read and a write that report failure by their
    result and do not throw, as [StorageService.get] and
    [StorageService.set] do. *)
Record StorageService (P : Type) := mkStorageService {
  storage_get : P -> string -> value;
  storage_set : P -> string -> value -> bool * P
}.
Global Arguments mkStorageService {P} _ _.
Global Arguments storage_get {P} s.
Global Arguments storage_set {P} s.

(** The variables of the closure, and the state of the port.  [_state] is
    [None] while it is [null]; [_listeners] maps a key to the [Map] from
    listener ids to callbacks. *)
Record store (P : Type) := mkStore {
  _state : option obj;
  _listeners : list (string * list (string * nat));
  storage : P
}.
Global Arguments mkStore {P} _ _ _.
Global Arguments _state {P} s.
Global Arguments _listeners {P} s.
Global Arguments storage {P} s.

Definition initial {P} (p : P) : store P := mkStore None [] p.

(** The value of the variable [_state]: [null] or the object. *)
Definition state_value {P} (s : store P) : value :=
  match _state s with Some o => VObj o | None => VNull end.

Section Store.

Context {P : Type} (storageService : StorageService P).
Context (call_result : list call -> nat -> list value -> outcome value).

Definition _loadFromStorage : M (store P) unit :=
  try_catch
    (let* s := get_st in
     let stored := storage_get storageService (storage s) STATE_KEY in
     if truthy stored && typeof_object stored then
       put_st (mkStore (Some (obj_assign (obj_assign [] DEFAULT_STATE) (own_props stored)))
                       (_listeners s) (storage s))
     else
       put_st (mkStore (Some (obj_assign [] DEFAULT_STATE)) (_listeners s) (storage s)))
    (fun e =>
       log LError "StateManagerModule load error:" [e] ;;;
       let* s := get_st in
       put_st (mkStore (Some (obj_assign [] DEFAULT_STATE)) (_listeners s) (storage s))).

Definition _saveToStorage : M (store P) unit :=
  let* s := get_st in
  match _state s with
  | Some o =>
      let r := storage_set storageService (storage s) STATE_KEY (VObj o) in
      put_st (mkStore (_state s) (_listeners s) r.2)
  | None => ret tt
  end.

Definition init : M (store P) bool :=
  _loadFromStorage ;;;
  ret true.

(** [if (!_state) _loadFromStorage();] *)
Definition ensure_loaded : M (store P) unit :=
  let* s := get_st in
  match _state s with
  | None => _loadFromStorage
  | Some _ => ret tt
  end.

Definition getState : M (store P) obj :=
  ensure_loaded ;;;
  let* s := get_st in
  ret (obj_assign [] (own_props (state_value s))).

(** [key] is [None] when the argument is omitted; reading a property of
    [null] throws a TypeError. *)
Definition get (key : option string) : M (store P) value :=
  ensure_loaded ;;;
  let* s := get_st in
  match key with
  | Some k =>
      if negb (String.eqb k EmptyString) then
        match _state s with
        | Some o => ret (default VUndefined (alist_get k o))
        | None => throw (VStr "TypeError")
        end
      else ret (state_value s)
  | None => ret (state_value s)
  end.

(** One callback of a listener group, inside its [try]. *)
Definition notify_one (text : string) (args : list value) (l : string * nat) (_ : unit)
  : M (store P) unit :=
  try_catch
    (invoke call_result (Listener l.1) l.2 args ;;; ret tt)
    (fun e => log LError text [e]).

(** The body of [for (const key in updates)]. *)
Definition notify_key (oldState : obj) (key : string) (_ : unit) : M (store P) unit :=
  let* s := get_st in
  match alist_get key (_listeners s) with
  | Some group =>
      let* newValue :=
        match _state s with
        | Some o => ret (default VUndefined (alist_get key o))
        | None => throw (VStr "TypeError")
        end in
      let oldValue := default VUndefined (alist_get key oldState) in
      forEach (notify_one "StateManagerModule listener error:" [newValue; oldValue]) group tt
  | None => ret tt
  end.

Definition _notifyListeners (updates : value) (oldState : obj) : M (store P) unit :=
  forEach (notify_key oldState) (map fst (own_props updates)) tt ;;;
  let* s := get_st in
  match alist_get "*" (_listeners s) with
  | Some group =>
      forEach (notify_one "StateManagerModule wildcard listener error:"
                 [state_value s; VObj oldState]) group tt
  | None => ret tt
  end.

Definition setState (updates : value) : M (store P) bool :=
  ensure_loaded ;;;
  let* s := get_st in
  let oldState := obj_assign [] (own_props (state_value s)) in
  put_st (mkStore (Some (obj_assign (obj_assign [] (own_props (state_value s)))
                                    (own_props updates)))
                  (_listeners s) (storage s)) ;;;
  _saveToStorage ;;;
  _notifyListeners updates oldState ;;;
  ret true.

Definition set (key : string) (value : value) : M (store P) bool :=
  setState (VObj [(key, value)]).

(** [fresh] is the string that [Date.now().toString(36) +
    Math.random().toString(36).substr(2)] evaluates to at this call. *)
Definition addListener (fresh : string) (key : string) (callback : value)
  : M (store P) value :=
  match callback with
  | VFun f =>
      let id := fresh in
      let* s := get_st in
      let group := default [] (alist_get key (_listeners s)) in
      put_st (mkStore (_state s)
                      (alist_set key (alist_set id f group) (_listeners s))
                      (storage s)) ;;;
      ret (VStr id)
  | _ => ret VNull
  end.

(** [for (const [key, listeners] of _listeners)]: the first group that has
    the id loses it, and is dropped when it becomes empty. *)
Fixpoint removeListener_loop (id : string) (groups all : list (string * list (string * nat)))
  : option (list (string * list (string * nat))) :=
  match groups with
  | [] => None
  | (key, listeners) :: groups' =>
      match alist_get id listeners with
      | Some _ =>
          match alist_delete id listeners with
          | [] => Some (alist_delete key all)
          | listeners' => Some (alist_set key listeners' all)
          end
      | None => removeListener_loop id groups' all
      end
  end.

Definition removeListener (id : string) : M (store P) bool :=
  let* s := get_st in
  match removeListener_loop id (_listeners s) (_listeners s) with
  | Some ls => put_st (mkStore (_state s) ls (storage s)) ;;; ret true
  | None => ret false
  end.

Definition reset : M (store P) bool :=
  let* s := get_st in
  put_st (mkStore (Some (obj_assign [] DEFAULT_STATE)) (_listeners s) (storage s)) ;;;
  _saveToStorage ;;;
  let* s := get_st in
  _notifyListeners (state_value s) [] ;;;
  ret true.

(** [JSON.stringify] of [null] or of an object is always a text. *)
Definition exportData : M (store P) text :=
  let* s := get_st in
  match JSON_stringify (state_value s) with
  | Some t => ret t
  | None => ret Malformed
  end.

Definition importData (jsonStr : text) : M (store P) bool :=
  try_catch
    (match JSON_parse jsonStr with
     | Ret parsed =>
         if truthy parsed && typeof_object parsed then
           let* s := get_st in
           put_st (mkStore (Some (obj_assign (obj_assign [] DEFAULT_STATE) (own_props parsed)))
                           (_listeners s) (storage s)) ;;;
           _saveToStorage ;;;
           let* s := get_st in
           _notifyListeners (state_value s) [] ;;;
           ret true
         else ret false
     | Throw e => throw e
     end)
    (fun e =>
       log LError "StateManagerModule import error:" [e] ;;;
       ret false).

End Store.

End StateManager.

(** ** The storage service (src/modules/storage.js)

    [localStorage] maps keys to texts; [setItem] fails when the store is
    full.  [get] is called by the state manager without a default value. *)

Module Storage.

Record localStorage := mkLocalStorage {
  items : gmap string text;
  full : bool
}.

Definition get (ls : localStorage) (key : string) : value :=
  match items ls !! key with
  | Some item =>
      match JSON_parse item with
      | Ret v => v
      | Throw _ => VUndefined
      end
  | None => VUndefined
  end.

(** [setItem] stores the string [undefined], which is not a JSON text, when
    [JSON.stringify] yields [undefined]. *)
Definition set (ls : localStorage) (key : string) (v : value) : bool * localStorage :=
  let str := default Malformed (JSON_stringify v) in
  if full ls then (false, ls)
  else (true, mkLocalStorage (<[key := str]> (items ls)) (full ls)).

Definition StorageService : StateManager.StorageService localStorage :=
  StateManager.mkStorageService get set.

(** A browser storage that holds nothing and is not full. *)
Definition empty : localStorage := mkLocalStorage ∅ false.

(** The other functions of the service.  Its console output is left out,
    as it is in [get] and [set].  When [setItem] fails for want of space
    the handler in [set] calls [showToast], a global that is defined
    outside this module: [set] returns [false] there when that call
    returns.  The properties of the functions below are stated on a
    storage that takes the write. *)

Definition DATA_VERSION_KEY : string := "homework_data_version".

Definition CURRENT_DATA_VERSION : string := "2.0".

(** [get(key, defaultValue)]: an item that is missing, empty or not a JSON
    text gives the default.  [get] above is the call without the second
    argument. *)
Definition get_or (ls : localStorage) (key : string) (defaultValue : value) : value :=
  match items ls !! key with
  | Some item =>
      match JSON_parse item with
      | Ret v => v
      | Throw _ => defaultValue
      end
  | None => defaultValue
  end.

(** [removeItem] and [clear] do not write: they take items away whether
    or not the storage is full.  The flag [full] is carried over as it is;
    no property below writes to a storage after items were taken away. *)
Definition remove (ls : localStorage) (key : string) : bool * localStorage :=
  (true, mkLocalStorage (delete key (items ls)) (full ls)).

Definition clear (ls : localStorage) : bool * localStorage :=
  (true, mkLocalStorage ∅ (full ls)).

Definition getDataVersion (ls : localStorage) : value :=
  get_or ls DATA_VERSION_KEY (VStr "1.0").

Definition setDataVersion (ls : localStorage) (version : value) : bool * localStorage :=
  set ls DATA_VERSION_KEY version.

Definition migrateDataIfNeeded (ls : localStorage) : bool * localStorage :=
  let currentVersion := getDataVersion ls in
  if negb (strict_eq_str CURRENT_DATA_VERSION currentVersion)
  then (true, (setDataVersion ls (VStr CURRENT_DATA_VERSION)).2)
  else (false, ls).

(** The [init] method of the service object. *)
Definition init (ls : localStorage) : bool * localStorage :=
  (true, (migrateDataIfNeeded ls).2).

(** [ToInt32], the conversion that [<<] and [&] apply to their operands
    and to their result. *)
Definition ToInt32 (n : Z) : Z := (n + 2 ^ 31) mod 2 ^ 32 - 2 ^ 31.

(** [a << 5] and [a & b] on numbers. *)
Definition shl5 (a : Z) : Z := ToInt32 (Z.shiftl (ToInt32 a) 5).

Definition band (a b : Z) : Z := ToInt32 (Z.land (ToInt32 a) (ToInt32 b)).

(** The body of the loop of [calculateChecksum] for one code unit. *)
Definition checksum_step (checksum : Z) (code : Z) : Z :=
  let checksum := (shl5 checksum - checksum) + code in
  band checksum checksum.

(** [calculateChecksum], from the string [str] that [JSON.stringify(data)]
    has returned, given as its code units ([charCodeAt]). *)
Definition calculateChecksum (str : list Z) : Z :=
  foldl checksum_step 0 str.

End Storage.

(** ** The student manager (src/modules/student-manager.js)

    The module is applied to the storage service, the same port as the
    state manager's.  Student ids are the positions in the list, counted
    from one; the functions are given an integer as [id]. *)

Module StudentManager.

Definition STUDENTS_KEY : string := "homework_students".

Definition DEFAULT_STUDENTS : list string :=
  [ "陈嘉乐"; "廖婷"; "徐伟浩"; "刘嘉宝"; "谢瑞宏"; "练嘉铖"; "崔鑫琪";
    "李梓龙"; "古宏民"; "刘秋娴"; "刘银欣"; "李嘉君"; "周嘉琪"; "曾婧玮";
    "丘欣芷"; "吴玟怡"; "杨欢"; "吴学文"; "罗雅茹"; "凌浩天"; "李佳";
    "刘卓莹"; "彭嘉红"; "谢瑞琳"; "廖沁怡"; "陈秉烨"; "丘瑜诗"; "郭银柳";
    "李欣"; "周岷雍"; "赖梅洁"; "陈祖娴"; "黄楚铭"; "谢超宇"; "熊飞凤";
    "吴嘉钰"; "刘依婷"; "吴苑婷"; "曾誉宸"; "刁瑜"; "郭静"; "刘诗琪";
    "黎伟平"; "李敏锐"; "杨鸿为"; "熊晓逸"; "梁黛秦"; "谢蕊怡"; "王杭州" ].

(** The variable [_students]: [None] while it is [null], then an array;
    and the state of the port. *)
Record students (P : Type) := mkStudents {
  _students : option (list value);
  storage : P
}.
Global Arguments mkStudents {P} _ _.
Global Arguments _students {P} s.
Global Arguments storage {P} s.

Definition initial {P} (p : P) : students P := mkStudents None p.

(** The value of the variable [_students]. *)
Definition students_value {P} (s : students P) : value :=
  match _students s with Some l => VArr l | None => VNull end.

(** [!name || typeof name !== 'string' || name.trim() === ''] *)
Definition invalid_name (name : value) : bool :=
  negb (truthy name)
  || match name with
     | VStr s => String.eqb (trim s) EmptyString
     | _ => true
     end.

(** [name.trim()] of a value that has passed the test above. *)
Definition trimmed (name : value) : value :=
  match name with VStr s => VStr (trim s) | _ => name end.

(** [arr.splice(idx, 1)] and [arr.splice(idx, 0, x)]. *)
Definition splice_out (idx : nat) (arr : list value) : list value :=
  take idx arr ++ drop (S idx) arr.

Definition splice_in (idx : nat) (x : value) (arr : list value) : list value :=
  take idx arr ++ x :: drop idx arr.

Section Students.

Context {P : Type} (storageService : StateManager.StorageService P).

Definition save : M (students P) bool :=
  let* s := get_st in
  let r := StateManager.storage_set storageService (storage s) STUDENTS_KEY (students_value s) in
  put_st (mkStudents (_students s) r.2) ;;;
  ret r.1.

(** The [try] block of [init] yields [true] when it has returned from the
    function. *)
Definition init : M (students P) bool :=
  let* returned :=
    try_catch
      (let* s := get_st in
       let stored := StateManager.storage_get storageService (storage s) STUDENTS_KEY in
       match stored with
       | VArr (x :: items) =>
           put_st (mkStudents (Some (x :: items)) (storage s)) ;;;
           ret true
       | _ => ret false
       end)
      (fun e => log LError "StudentManagerModule init error:" [e] ;;; ret false) in
  if returned : bool then ret true
  else
    let* s := get_st in
    put_st (mkStudents (Some (map VStr DEFAULT_STUDENTS)) (storage s)) ;;;
    save ;;;
    ret true.

(** [getAll] returns the array itself. *)
Definition getAll : M (students P) value :=
  let* s := get_st in
  (match _students s with
   | None => init ;;; ret tt
   | Some _ => ret tt
   end) ;;;
  let* s := get_st in
  ret (students_value s).

(** Reading [length] of [null] throws a TypeError; [init] leaves an
    array. *)
Definition array_of (v : value) : M (students P) (list value) :=
  match v with
  | VArr l => ret l
  | _ => throw (VStr "TypeError")
  end.

Definition getCount : M (students P) nat :=
  let* all := getAll in
  let* l := array_of all in
  ret (length l).

(** The template literal of [getName]. *)
Definition placeholder (id : Z) : string := "同学" +:+ pretty id.

Definition getName (id : Z) : M (students P) value :=
  let* all := getAll in
  let* students := array_of all in
  let idx := id - 1 in
  if (0 <=? idx) && (idx <? Z.of_nat (length students))
  then ret (default VUndefined (students !! Z.to_nat idx))
  else ret (VStr (placeholder id)).

(** The members of [_students] that the functions below reach for;
    [_students] is [null] before [init]. *)
Definition the_students : M (students P) (list value) :=
  let* s := get_st in
  array_of (students_value s).

Definition add (name : value) : M (students P) bool :=
  if invalid_name name then ret false
  else
    let* l := the_students in
    let* s := get_st in
    put_st (mkStudents (Some (l ++ [trimmed name])) (storage s)) ;;;
    save.

(** [idx >= 0 && idx < _students.length]: the length is read only when the
    first test holds. *)
Definition in_range (idx : Z) (inclusive : bool) : M (students P) bool :=
  if 0 <=? idx then
    let* l := the_students in
    ret (if inclusive then idx <=? Z.of_nat (length l) else idx <? Z.of_nat (length l))
  else ret false.


Definition deleteStudent (id : Z) : M (students P) bool :=
  let idx := id - 1 in
  let* ok := in_range idx false in
  if ok then
    let* l := the_students in
    let* s := get_st in
    put_st (mkStudents (Some (splice_out (Z.to_nat idx) l)) (storage s)) ;;;
    save
  else ret false.

Definition insert (id : Z) (name : value) : M (students P) bool :=
  if invalid_name name then ret false
  else
    let idx := id - 1 in
    let* ok := in_range idx true in
    if ok then
      let* l := the_students in
      let* s := get_st in
      put_st (mkStudents (Some (splice_in (Z.to_nat idx) (trimmed name) l)) (storage s)) ;;;
      save
    else ret false.

Definition resetToDefault : M (students P) bool :=
  let* s := get_st in
  put_st (mkStudents (Some (map VStr DEFAULT_STUDENTS)) (storage s)) ;;;
  save.

(** [JSON.stringify] of [null] or of an array is always a text. *)
Definition exportData : M (students P) text :=
  let* s := get_st in
  match JSON_stringify (students_value s) with
  | Some t => ret t
  | None => ret Malformed
  end.

(** [typeof s === 'string'] *)
Definition is_string (v : value) : bool :=
  match v with VStr _ => true | _ => false end.

Definition importData (jsonStr : text) : M (students P) bool :=
  let* saved :=
    try_catch
      (match JSON_parse jsonStr with
       | Ret (VArr (x :: items)) =>
           if forallb is_string (x :: items) then
             let* s := get_st in
             put_st (mkStudents (Some (x :: items)) (storage s)) ;;;
             let* r := save in
             ret (Some r)
           else ret None
       | Ret _ => ret None
       | Throw e => throw e
       end)
      (fun e => log LError "StudentManagerModule import error:" [e] ;;; ret None) in
  ret (default false saved).

Definition getDefaultStudents : M (students P) value :=
  ret (VArr (map VStr DEFAULT_STUDENTS)).

End Students.

End StudentManager.

(** What a run shows from outside: its outcome, the console and the calls
    made. *)
Definition observe {S A} (r : option (outcome A * world S))
  : option (outcome A * list log_entry * list call) :=
  (fun r => (r.1, console r.2, trace r.2)) <$> r.

(** A function that returns an object naming the reference it was called
    through. *)
Definition made_by (_ : list call) (f : nat) (_ : list value) : outcome value :=
  Ret (VObj [("made_by", VNum (Z.of_nat f))]).

(** A factory (reference 1) whose instances have an [init] method
    (reference 2) that throws. *)
Definition init_throws (_ : list call) (f : nat) (_ : list value) : outcome value :=
  if Nat.eqb f 1 then Ret (VObj [("init", VFun 2)]) else Throw (VStr "init failed").

(** ** Vocabulary of the bus properties *)

Module BusSpec.

Import EventBus.

(** The array [off] leaves behind. *)
Definition without (callbackOrId : value) (arr : list listener) : list listener :=
  List.filter (fun l => negb (matches callbackOrId l)) arr.

(** The variables after [off(event, callbackOrId)]. *)
Definition off_state (s : bus) (event callbackOrId : value) : bus :=
  match callbackOrId with
  | VUndefined =>
      if truthy event
      then mkBus (map_delete (listeners s) event) (map_delete (onceListeners s) event)
                 (listenerIdCounter s)
      else mkBus ∅ ∅ (listenerIdCounter s)
  | _ =>
      mkBus (store_back (listeners s) event
               (without callbackOrId (default [] (map_get (listeners s) event))))
            (store_back (onceListeners s) event
               (without callbackOrId (default [] (map_get (onceListeners s) event))))
            (listenerIdCounter s)
  end.

(** The value [off(event, callbackOrId)] returns. *)
Definition off_result (s : bus) (event callbackOrId : value) : value :=
  match callbackOrId with
  | VUndefined => VUndefined
  | _ =>
      VBool (existsb (matches callbackOrId) (default [] (map_get (listeners s) event))
             || existsb (matches callbackOrId) (default [] (map_get (onceListeners s) event)))
  end.

(** The call [emit] makes to deliver [event] to a listener of the pass. *)
Definition delivery (event : string) (data : value) (l : tagged) : call :=
  Call (Listener (id (entry l))) (callback (entry l))
       (if isWildcard l then [VStr event; data] else [data]).

(** The once-listeners of a pass are taken off the bus one by one. *)
Definition after_pass (event : string) (s : bus) (pass : list tagged) : bus :=
  foldl (fun s l => if isOnce l then off_state s (VStr event) (VStr (id (entry l))) else s)
        s pass.

(** All entries of the bus, of every event and of both maps. *)
Definition entries (s : bus) : list listener :=
  concat (map snd (map_to_list (listeners s)))
  ++ concat (map snd (map_to_list (onceListeners s))).

(** The entries of one map. *)
Definition flat (m : gmap string (list listener)) : list listener :=
  concat (map snd (map_to_list m)).

(** [i] is an id made from a counter value above [lo] and up to [hi]. *)
Definition issued (lo hi : N) (i : string) : Prop :=
  exists n, (lo < n <= hi)%N /\ (i = "listener_" +:+ pretty n \/ i = "once_" +:+ pretty n).

(** The ids on the bus are distinct and come from the counter. *)
Definition bus_inv (s : bus) : Prop :=
  NoDup (map id (entries s))
  /\ Forall (fun l => issued 0 (listenerIdCounter s) (id l)) (entries s).

(** A program of bus calls, and the values the calls return. *)
Inductive op :=
  | On (event : string) (callback : value) (priority : option Z)
  | Once (event : string) (callback : value) (priority : option Z)
  | Off (event callbackOrId : value)
  | Emit (event : string) (data : value).

Definition step (call_result : list call -> nat -> list value -> outcome value) (o : op)
  : M bus value :=
  match o with
  | On event callback priority => on event callback priority
  | Once event callback priority => once event callback priority
  | Off event callbackOrId => off event callbackOrId
  | Emit event data => let* results := emit call_result event data in ret (VArr results)
  end.

Fixpoint run (call_result : list call -> nat -> list value -> outcome value) (ops : list op)
  : M bus (list value) :=
  match ops with
  | [] => ret []
  | o :: ops' =>
      let* r := step call_result o in
      let* rs := run call_result ops' in
      ret (r :: rs)
  end.

(** The listener ids that [on] and [once] have returned in a run. *)
Fixpoint returned_ids (ops : list op) (rs : list value) : list string :=
  match ops, rs with
  | (On _ _ _ | Once _ _ _) :: ops', VStr id :: rs' => id :: returned_ids ops' rs'
  | _ :: ops', _ :: rs' => returned_ids ops' rs'
  | _, _ => []
  end.

(** Higher priority first. *)
Definition descending (arr : list listener) : Prop :=
  StronglySorted (fun a b => priority b <= priority a) arr.

(** The arrays a map holds are not empty and are in descending order of
    priority. *)
Definition arrays_ok (m : gmap string (list listener)) : Prop :=
  map_Forall (fun _ arr => arr <> [] /\ descending arr) m.

(** What every call keeps true of the bus. *)
Definition bus_wf (s : bus) : Prop :=
  bus_inv s /\ arrays_ok (listeners s) /\ arrays_ok (onceListeners s).

(** The calls in which [emit] hands [data] to the listeners of [arr], as
    listeners of the event and as listeners of every event. *)
Definition plain_call (data : value) (l : listener) : call :=
  Call (Listener (id l)) (callback l) [data].

Definition wildcard_call (event : string) (data : value) (l : listener) : call :=
  Call (Listener (id l)) (callback l) [VStr event; data].

End BusSpec.

(** ** Listeners that call the bus

    [EventBus.emit] calls a listener through [invoke]: the listener
    returns or throws, and does nothing else.  A callback may itself call
    the bus while it runs: [listener.callback(data)] hands control to it,
    and [emit] goes on with [off(event, listener.id)] only when it has
    returned.  Here the behaviour of a function value is a script: the
    calls it makes on the bus, in order, and then its outcome. *)

Module BusReentrant.

Import EventBus BusSpec.

Section Scripts.

Context (script : list call -> nat -> list value -> list op * outcome value).

Section Level.

(** [emit] as the listeners of this level reach it. *)
Context (emit_inside : string -> value -> M bus (list value)).

Definition step (o : op) : M bus value :=
  match o with
  | On event callback priority => on event callback priority
  | Once event callback priority => once event callback priority
  | Off event callbackOrId => off event callbackOrId
  | Emit event data => let* results := emit_inside event data in ret (VArr results)
  end.

(** [f(args)]: the call is recorded, the function makes its calls on the
    bus and then returns or throws. *)
Definition call_listener (from : site) (f : nat) (args : list value) : M bus value :=
  fun w =>
    let behaviour := script (trace w) f args in
    (forEach (fun o (_ : unit) => step o ;;; ret tt) behaviour.1 tt ;;;
     match behaviour.2 with
     | Ret v => ret v
     | Throw e => throw e
     end) (World (st w) (console w) (trace w ++ [Call from f args])).

(** One iteration of the dispatch loop. *)
Definition dispatch (event : string) (data : value) (listener : tagged) (results : list value)
  : M bus (list value) :=
  let* results :=
    try_catch
      (if isWildcard listener
       then let* r := call_listener (Listener (id (entry listener)))
                        (callback (entry listener)) [VStr event; data] in
            ret (results ++ [r])
       else let* r := call_listener (Listener (id (entry listener)))
                        (callback (entry listener)) [data] in
            ret (results ++ [r]))
      (fun error => log LError (emit_error_text event) [error] ;;; ret results) in
  (if isOnce listener then off (VStr event) (VStr (id (entry listener))) ;;; ret tt else ret tt) ;;;
  ret results.

Definition emit_level (event : string) (data : value) : M bus (list value) :=
  let* s := get_st in
  forEach (dispatch event data) (rev (allListeners s event)) [].

End Level.

(** [emit], with [depth] levels of calls of [emit] from inside
    listeners. *)
Fixpoint emit (depth : nat) (event : string) (data : value) : M bus (list value) :=
  match depth with
  | O => out_of_fuel
  | S depth => emit_level (emit depth) event data
  end.

End Scripts.

(** A listener that emits the event x when it is called for the first
    time, and returns. *)
Definition emits_again (history : list call) (f : nat) (args : list value)
  : list op * outcome value :=
  match history with
  | [] => ([Emit "x" (VStr "again")], Ret VUndefined)
  | _ => ([], Ret VUndefined)
  end.

(** A listener that only returns. *)
Definition returns_seven (history : list call) (f : nat) (args : list value)
  : list op * outcome value :=
  ([], Ret (VNum 7)).

End BusReentrant.

(** ** Vocabulary shared by the properties *)

Section Outcomes.

Context (call_result : list call -> nat -> list value -> outcome value).

(** What each call of a sequence yields, the first one being made after the
    calls of [history]. *)
Fixpoint outcomes (history : list call) (calls : list call) : list (outcome value) :=
  match calls with
  | [] => []
  | c :: calls' =>
      call_result history (call_fn c) (call_args c) :: outcomes (history ++ [c]) calls'
  end.

End Outcomes.

Definition returned (os : list (outcome value)) : list value :=
  omap (fun o => match o with Ret v => Some v | Throw _ => None end) os.

Definition thrown (os : list (outcome value)) : list value :=
  omap (fun o => match o with Ret _ => None | Throw e => Some e end) os.

(** ** Vocabulary of the loader properties *)

Module LoaderSpec.

Import ModuleLoader.

(** What [register] stores of a module and initialization never changes. *)
Definition code (m : entry) : nat * list string := (factory m, deps m).

(** [x] lists [d] among its dependencies. *)
Definition depends_on (mods : gmap string entry) (x d : string) : Prop :=
  exists m, mods !! x = Some m /\ d ∈ deps m.

(** The dependency graph has no cycle. *)
Definition acyclic (mods : gmap string entry) : Prop :=
  forall x, ~ tc (depends_on mods) x x.

(** A ranking of the modules above their dependencies: [rank] decreases
    along every dependency edge.  A graph that has one is acyclic. *)
Definition dep_ranked (rank : string -> nat) (mods : gmap string entry) : Prop :=
  map_Forall (fun x m => Forall (fun d => (rank d < rank x)%nat) (deps m)) mods.

(** The calls of the factory of [name] in a trace. *)
Definition factory_calls (name : string) (calls : list call) : list call :=
  List.filter
    (fun c => match call_site c with Factory n => String.eqb n name | _ => false end)
    calls.

(** A call made while initializing modules of rank below [bound]. *)
Definition call_below (rank : string -> nat) (bound : nat) (c : call) : Prop :=
  match call_site c with
  | Factory n | InitMethod n => (rank n < bound)%nat
  | Listener _ => False
  end.

(** The first occurrence of [x] in [l] comes after an occurrence of [y]. *)
Definition precedes (y x : string) (l : list string) : Prop :=
  exists l1 l2, l = l1 ++ x :: l2 /\ (x ∉ l1) /\ y ∈ l1.

(** Every listed name is visited or is not a registered module. *)
Definition settled (mods : gmap string entry) (V : gset string) (l : list string) : Prop :=
  forall y, y ∈ l -> y ∈ V \/ mods !! y = None.

(** What the loop of [resolveDependencies] over the dependencies [ds] has
    done when it has taken [resolved] from [res] to [res'] and [visited]
    from [V1] to [V2]: it has appended names that are settled and reachable
    from [ds], among them every name visited on the way and all the
    dependencies of such a name, these before the name itself when the
    graph is acyclic ([acyc]). *)
Definition loop_ok (mods : gmap string entry) (acyc : Prop) (ds : list string)
    (res : list string) (V1 : gset string) (res' : list string) (V2 : gset string) : Prop :=
  exists added,
    res' = res ++ added
    /\ V1 ⊆ V2
    /\ settled mods V2 added
    /\ (forall d, d ∈ ds -> d ∈ res')
    /\ (forall y, y ∈ added -> y ∈ ds \/ exists d, d ∈ ds /\ tc (depends_on mods) d y)
    /\ (forall z, z ∈ V2 -> z ∉ V1 ->
          z ∈ added
          /\ exists m, mods !! z = Some m
               /\ (forall d, d ∈ deps m -> d ∈ added)
               /\ (acyc -> forall d, d ∈ deps m -> precedes d z res')).

(** What a call [resolveDependencies(x, visited)] has done when it returns
    [out] and has taken [visited] from [V] to [V']. *)
Definition call_ok (mods : gmap string entry) (acyc : Prop) (x : string)
    (V : gset string) (out : list string) (V' : gset string) : Prop :=
  ((x ∈ V \/ mods !! x = None) /\ out = [] /\ V' = V)
  \/ ((x ∉ V) /\ exists m, mods !! x = Some m
                  /\ loop_ok mods acyc (deps m) [] ({[x]} ∪ V) out V').

(** What [register] has stored, module by module. *)
Definition codes (s : loader) : gmap string (nat * list string) := code <$> modules s.

(** What initialization leaves in place: the registered factories and
    dependency lists, the initialized modules and the calls already made. *)
Definition frame (w w' : world loader) : Prop :=
  codes (st w') = codes (st w)
  /\ dependencies (st w') = dependencies (st w)
  /\ initializedModules (st w) ⊆ initializedModules (st w')
  /\ exists calls, trace w' = trace w ++ calls.

(** Initialization below rank [bound] leaves the modules of rank [bound] and
    above alone and calls only into modules of rank below [bound]. *)
Definition below (rank : string -> nat) (bound : nat) (w w' : world loader) : Prop :=
  (forall k, (bound <= rank k)%nat ->
     modules (st w') !! k = modules (st w) !! k
     /\ (k ∈ initializedModules (st w') -> k ∈ initializedModules (st w)))
  /\ exists calls, trace w' = trace w ++ calls /\ Forall (call_below rank bound) calls.

(** Every registered factory returns a truthy value, whatever it is called
    with and whatever has been called before. *)
Definition factories_succeed (call_result : list call -> nat -> list value -> outcome value)
    (s : loader) : Prop :=
  forall x c, codes s !! x = Some c ->
    forall history args,
      exists inst, call_result history c.1 args = Ret inst /\ truthy inst = true.

(** From [w] to [w'] the factory of a module has been called once when the
    module has become initialized on the way, and not at all otherwise. *)
Definition counted (w w' : world loader) : Prop :=
  exists calls,
    trace w' = trace w ++ calls
    /\ forall x,
         length (factory_calls x calls) =
           if bool_decide (x ∈ initializedModules (st w') ∖ initializedModules (st w))
           then 1%nat else 0%nat.


(** The registrations the source files of the repository make. *)
Definition repository_modules : M loader unit :=
  register (VStr "storage") (VFun 1) (Some []) ;;;
  register (VStr "student-manager") (VFun 2) (Some ["storage"]) ;;;
  register (VStr "task-manager") (VFun 3) (Some ["storage"]) ;;;
  register (VStr "state-manager") (VFun 4) (Some ["storage"]) ;;;
  register (VStr "ui-components") (VFun 5) (Some ["state-manager"]) ;;;
  register (VStr "event-bus") (VFun 6) (Some []) ;;;
  register (VStr "app") (VFun 7)
    (Some ["storage"; "student-manager"; "task-manager"; "state-manager";
           "ui-components"; "event-bus"]).

(** The registry after these registrations. *)
Definition repository : world loader :=
  match repository_modules (World initial [] []) with
  | Some (_, w) => w
  | None => World initial [] []
  end.

(** The layers of the repository's modules. *)
Definition repository_rank (name : string) : nat :=
  if String.eqb name "app" then 3
  else if String.eqb name "ui-components" then 2
  else if String.eqb name "storage" then 0
  else if String.eqb name "event-bus" then 0
  else 1.

(** Two modules that depend on each other. *)
Definition cyclic_modules : M loader unit :=
  register (VStr "A") (VFun 1) (Some ["B"]) ;;;
  register (VStr "B") (VFun 2) (Some ["A"]).

End LoaderSpec.

(** ** Vocabulary of the store properties *)

Module StoreSpec.

Import StateManager.

(** The values that [JSON.stringify] writes and [JSON.parse] reads back
    unchanged: [null], booleans, finite numbers, strings, and the arrays
    and objects of such values; so no [undefined], no function, no [NaN]
    and no infinity anywhere inside. *)
Fixpoint serializable (v : value) : bool :=
  match v with
  | VUndefined | VFun _ | VNaN | VInf _ => false
  | VNull | VBool _ | VNum _ | VStr _ => true
  | VArr items => forallb serializable items
  | VObj props => forallb (fun kv => serializable kv.2) props
  end.

(** The shape of a loaded state: distinct keys, the keys of the defaults
    first and in their order. *)
Definition state_wf (o : obj) : Prop :=
  NoDup (map fst o) /\ map fst DEFAULT_STATE `prefix_of` map fst o.

(** The object [_loadFromStorage] makes of the stored value. *)
Definition loaded (stored : value) : obj :=
  if truthy stored && typeof_object stored
  then obj_assign (obj_assign [] DEFAULT_STATE) (own_props stored)
  else obj_assign [] DEFAULT_STATE.

(** The operations keep the shape of the state. *)
Definition state_inv {P} (s : store P) : Prop :=
  forall o, _state s = Some o -> state_wf o.

(** The calls that notify a group of listeners. *)
Definition group_calls (args : list value) (group : list (string * nat)) : list call :=
  map (fun l => Call (Listener l.1) l.2 args) group.

(** The calls [_notifyListeners(updates, oldState)] makes when the state
    is [new]: for each key of [updates], in their order, the listeners of
    the key with the new and the old value of the key, then the listeners
    of [*] with the new and the old state. *)
Definition notify_calls (listeners : list (string * list (string * nat)))
    (new old : obj) (keys : list string) : list call :=
  concat (map (fun key =>
                 group_calls [default VUndefined (alist_get key new);
                              default VUndefined (alist_get key old)]
                             (default [] (alist_get key listeners))) keys)
  ++ group_calls [VObj new; VObj old] (default [] (alist_get "*" listeners)).




(** No key is left with an empty [Map] of listeners. *)
Definition groups_inv {P} (s : store P) : Prop :=
  Forall (fun kg : string * list (string * nat) => kg.2 <> []) (_listeners s).

(** No listener has the id [i]. *)
Definition unused_id {P} (i : string) (s : store P) : Prop :=
  Forall (fun kg : string * list (string * nat) => alist_get i kg.2 = None) (_listeners s).

Section Programs.

Context {P : Type} (storageService : StorageService P).
Context (call_result : list call -> nat -> list value -> outcome value).

(** The state after [if (!_state) _loadFromStorage()]. *)
Definition current (s : store P) : obj :=
  match _state s with
  | Some o => o
  | None => loaded (storage_get storageService (storage s) STATE_KEY)
  end.

(** A program of calls of the module's functions. *)
Inductive op :=
  | Init
  | GetState
  | Get (key : option string)
  | SetState (updates : value)
  | SetKey (key : string) (v : value)
  | AddListener (fresh : string) (key : string) (callback : value)
  | RemoveListener (id : string)
  | Reset
  | Export
  | Import (jsonStr : text).

Definition step (o : op) : M (store P) unit :=
  match o with
  | Init => init storageService ;;; ret tt
  | GetState => getState storageService ;;; ret tt
  | Get key => get storageService key ;;; ret tt
  | SetState updates => setState storageService call_result updates ;;; ret tt
  | SetKey key v => set storageService call_result key v ;;; ret tt
  | AddListener fresh key callback => addListener fresh key callback ;;; ret tt
  | RemoveListener id => removeListener id ;;; ret tt
  | Reset => reset storageService call_result ;;; ret tt
  | Export => exportData ;;; ret tt
  | Import jsonStr => importData storageService call_result jsonStr ;;; ret tt
  end.

Definition run (ops : list op) : M (store P) unit :=
  forEach (fun o _ => step o) ops tt.

End Programs.

(** A storage service that holds nothing and refuses every write. *)
Definition refusing : StorageService unit :=
  mkStorageService (fun _ _ => VUndefined) (fun p _ _ => (false, p)).

End StoreSpec.

(** ** Vocabulary of the storage and student properties *)

Module StorageSpec.

(** The polynomial of base 31 in the code units of a string. *)
Definition poly31 (str : list Z) : Z :=
  foldl (fun acc code => 31 * acc + code) 0 str.

End StorageSpec.
(** * Properties *)

(** ** Arrays *)

Lemma sort_insert_perm {A} (cmp : A -> A -> Z) x l :
  sort_insert cmp x l ≡ₚ x :: l.
Proof.
  induction l as [|y l IH]; simpl; [done|].
  destruct (0 <? cmp x y); [|done].
  rewrite IH. apply Permutation_swap.
Qed.

Lemma Array_sort_perm {A} (cmp : A -> A -> Z) l :
  Array_sort cmp l ≡ₚ l.
Proof.
  induction l as [|x l IH]; simpl; [done|].
  unfold Array_sort in *. rewrite sort_insert_perm. by rewrite IH.
Qed.

Lemma elem_of_rev {A} (x : A) (l : list A) : x ∈ rev l <-> x ∈ l.
Proof. rewrite !list_elem_of_In. symmetry. apply in_rev. Qed.

(** ** The event bus *)

Section BusFacts.

Import EventBus BusSpec.

Lemma splice_loop_take p n arr removed :
  (n <= length arr)%nat ->
  splice_loop p n arr removed =
    (List.filter (fun l => negb (p l)) (take n arr) ++ drop n arr,
     removed || existsb p (take n arr)).
Proof.
  revert arr removed. induction n as [|i IH]; intros arr removed Hn; simpl.
  - rewrite drop_0. by rewrite orb_false_r.
  - destruct (lookup_lt_is_Some_2 arr i) as [l Hl]; [lia|].
    rewrite Hl. rewrite (take_S_r _ _ _ Hl).
    rewrite List.filter_app, existsb_app. simpl.
    destruct (p l) eqn:Hp; simpl.
    + assert (Hlen : length (take i arr) = i) by (rewrite length_take; lia).
      rewrite delete_take_drop.
      rewrite IH by (rewrite length_app, length_drop; lia).
      rewrite take_app_length' by done.
      rewrite drop_app_length' by done.
      rewrite app_nil_r. f_equal. by rewrite !orb_true_r.
    + rewrite IH by lia. f_equal.
      * rewrite <- app_assoc. simpl. f_equal. by rewrite (drop_S _ _ _ Hl).
      * by rewrite !orb_false_r.
Qed.

Lemma splice_loop_filter p arr removed :
  splice_loop p (length arr) arr removed =
    (List.filter (fun l => negb (p l)) arr, removed || existsb p arr).
Proof.
  rewrite splice_loop_take by done.
  by rewrite firstn_all, drop_all, app_nil_r.
Qed.

Lemma off_spec event callbackOrId (w : world bus) :
  off event callbackOrId w =
    Some (Ret (off_result (st w) event callbackOrId),
          World (off_state (st w) event callbackOrId) (console w) (trace w)).
Proof.
  unfold off, off_state, off_result, without, bind, get_st, put_st, ret.
  destruct callbackOrId; try (by destruct (truthy event));
    by rewrite !splice_loop_filter.
Qed.

Context (call_result : list call -> nat -> list value -> outcome value).

Lemma dispatch_spec event data l acc (w : world bus) :
  dispatch call_result event data l acc w =
    Some (Ret (acc ++ returned (outcomes call_result (trace w) [delivery event data l])),
          World (after_pass event (st w) [l])
                (console w ++ map (fun e => Log LError (emit_error_text event) [e])
                                  (thrown (outcomes call_result (trace w) [delivery event data l])))
                (trace w ++ [delivery event data l])).
Proof.
  unfold dispatch, delivery, after_pass, bind, try_catch, invoke, ret, log. simpl.
  destruct (isWildcard l); simpl;
    (match goal with |- context [call_result ?h ?f ?a] => destruct (call_result h f a) end);
    simpl; destruct (isOnce l); simpl; rewrite ?off_spec; simpl;
    rewrite ?app_nil_r; done.
Qed.

Lemma outcomes_app history calls1 calls2 :
  outcomes call_result history (calls1 ++ calls2) =
    outcomes call_result history calls1 ++ outcomes call_result (history ++ calls1) calls2.
Proof.
  revert history. induction calls1 as [|c calls1 IH]; intros history; simpl.
  - by rewrite app_nil_r.
  - rewrite IH. by rewrite <- app_assoc.
Qed.

Lemma outcomes_length history calls :
  length (outcomes call_result history calls) = length calls.
Proof. revert history. induction calls; intros; simpl; auto. Qed.

Lemma forEach_dispatch_spec event data pass acc (w : world bus) :
  forEach (dispatch call_result event data) pass acc w =
    Some (Ret (acc ++ returned (outcomes call_result (trace w) (map (delivery event data) pass))),
          World (after_pass event (st w) pass)
                (console w ++ map (fun e => Log LError (emit_error_text event) [e])
                   (thrown (outcomes call_result (trace w) (map (delivery event data) pass))))
                (trace w ++ map (delivery event data) pass)).
Proof.
  revert acc w. induction pass as [|l pass IH]; intros acc w.
  - simpl. unfold ret. destruct w; simpl. by rewrite !app_nil_r.
  - cbn [forEach]. unfold bind at 1. rewrite dispatch_spec. rewrite IH.
    cbn [st console trace].
    change (l :: pass) with ([l] ++ pass).
    rewrite map_app, outcomes_app. unfold returned, thrown.
    rewrite !omap_app, map_app, <- !app_assoc.
    unfold after_pass. by rewrite foldl_app.
Qed.

Lemma emit_spec event data (w : world bus) :
  let pass := rev (allListeners (st w) event) in
  let os := outcomes call_result (trace w) (map (delivery event data) pass) in
  emit call_result event data w =
    Some (Ret (returned os),
          World (after_pass event (st w) pass)
                (console w ++ map (fun e => Log LError (emit_error_text event) [e]) (thrown os))
                (trace w ++ map (delivery event data) pass)).
Proof.
  intros pass os. unfold emit, bind, get_st. by rewrite forEach_dispatch_spec.
Qed.

End BusFacts.

Section BusClaims.

Import EventBus BusSpec.

Context (call_result : list call -> nat -> list value -> outcome value).

(** The calls of a pass, from the arrays the bus holds for the event and
    for [*]. *)
Lemma pass_calls event data (s : bus) :
  map (delivery event data) (rev (allListeners s event))
  = map (wildcard_call event data)
        (rev (default [] (listeners s !! "*") ++ default [] (onceListeners s !! "*")))
    ++ map (plain_call data)
         (rev (default [] (listeners s !! event) ++ default [] (onceListeners s !! event))).
Proof.
  unfold allListeners. rewrite !rev_app_distr, !map_app, <- !map_rev, !map_map.
  by rewrite <- !app_assoc.
Qed.

(** C6. [emit] returns normally whatever its listeners return or throw:
    every listener the bus holds for [*] and for the event, registered
    with [on] or with [once], is called, also after a callback has thrown
    (first the listeners of [*], then those of the event, each array from
    its end); what [emit] returns are the values of the callbacks that
    returned, and every exception is logged with [console.error]. *)
Theorem emit_isolates_listener_errors event data (w : world bus) :
  let registered := default [] (listeners (st w) !! event)
                    ++ default [] (onceListeners (st w) !! event) in
  let wildcard := default [] (listeners (st w) !! "*")
                  ++ default [] (onceListeners (st w) !! "*") in
  let calls := map (wildcard_call event data) (rev wildcard)
               ++ map (plain_call data) (rev registered) in
  let os := outcomes call_result (trace w) calls in
  exists w',
    emit call_result event data w = Some (Ret (returned os), w')
    /\ trace w' = trace w ++ calls
    /\ length os = (length wildcard + length registered)%nat
    /\ console w' =
         console w ++ map (fun e => Log LError (emit_error_text event) [e]) (thrown os).
Proof.
  intros registered wildcard calls os.
  assert (Hc : calls = map (delivery event data) (rev (allListeners (st w) event)))
    by (symmetry; apply pass_calls).
  rewrite emit_spec. eexists. split; [subst os; rewrite Hc; reflexivity|].
  cbn [trace console]. split; [by rewrite Hc|]. split; [|by subst os; rewrite Hc].
  subst os calls. rewrite outcomes_length, length_app, !length_map, !length_rev. lia.
Qed.

(** C1 (what the code does). With L1 registered at priority 5 and L2 at
    priority 10 for the event x, the array of x holds L2 before L1, and
    [emit] calls L1 first and L2 second; the result holds the values of
    those of the two that returned, so the value of L2 is there when L1
    throws. *)
Theorem emit_calls_lower_priority_first f1 f2 payload c0 t0 :
  let L1 := mkListener "listener_1" f1 5 in
  let L2 := mkListener "listener_2" f2 10 in
  let call1 := Call (Listener "listener_1") f1 [payload] in
  let call2 := Call (Listener "listener_2") f2 [payload] in
  let os := outcomes call_result t0 [call1; call2] in
  (let* id1 := on "x" (VFun f1) (Some 5) in
   let* id2 := on "x" (VFun f2) (Some 10) in
   let* results := emit call_result "x" payload in
   ret (id1, id2, results)) (World initial c0 t0)
  = Some (Ret (VStr "listener_1", VStr "listener_2", returned os),
          World (mkBus (<["x" := [L2; L1]]> ∅) ∅ 2)
                (c0 ++ map (fun e => Log LError (emit_error_text "x") [e]) (thrown os))
                (t0 ++ [call1; call2])).
Proof.
  intros L1 L2 call1 call2 os.
  unfold bind at 1. unfold on at 1, bind, get_st, put_st, ret. cbn [st console trace].
  unfold on at 1, bind, get_st, put_st, ret. cbn [st console trace].
  rewrite emit_spec. cbn [st console trace].
  replace (initial.(listeners) !! "x") with (@None (list listener)) by done.
  cbn [default app initial listeners onceListeners listenerIdCounter].
  rewrite lookup_insert_eq, insert_insert_eq. cbn [default].
  replace (allListeners _ "x") with
    [mkTagged L2 false false; mkTagged L1 false false].
  2:{ unfold allListeners. cbn [listeners onceListeners].
      rewrite lookup_insert_eq, lookup_insert_ne, !lookup_empty by done. done. }
  done.
Qed.

(** On a bus without listeners, [once(event, cb)] followed by two
    [emit(event, ...)] calls a [cb] that only returns or throws once, in
    the first [emit]. *)
Lemma once_then_two_emits (s : bus) c0 t0 event f priority data1 data2 :
  event <> "*" ->
  listeners s = ∅ ->
  onceListeners s = ∅ ->
  let id := "once_" +:+ pretty (N.succ (listenerIdCounter s)) in
  let call1 := Call (Listener id) f [data1] in
  let os := outcomes call_result t0 [call1] in
  let w2 := World (mkBus ∅ ∅ (N.succ (listenerIdCounter s)))
                  (c0 ++ map (fun e => Log LError (emit_error_text event) [e]) (thrown os))
                  (t0 ++ [call1]) in
  (let* id := once event (VFun f) priority in
   let* results1 := emit call_result event data1 in
   ret (id, results1)) (World s c0 t0)
  = Some (Ret (VStr id, returned os), w2)
  /\ emit call_result event data2 w2 = Some (Ret [], w2).
Proof.
  intros Hev Hl Ho id call1 os w2. destruct s as [ls os' c]. simpl in Hl, Ho. subst ls os'.
  set (l := mkListener id f (default 0 priority)).
  set (s1 := mkBus ∅ (<[event := [l]]> ∅) (N.succ c)).
  assert (Hall : allListeners s1 event = [mkTagged l true false]).
  { unfold allListeners, s1. cbn [listeners onceListeners].
    rewrite lookup_insert_eq, lookup_insert_ne, !lookup_empty by done. done. }
  assert (Hoff : off_state s1 (VStr event) (VStr id) = mkBus ∅ ∅ (N.succ c)).
  { unfold off_state, s1, without. cbn [listeners onceListeners listenerIdCounter map_get].
    rewrite lookup_insert_eq, lookup_empty. simpl.
    unfold matches. simpl. rewrite String.eqb_refl. simpl.
    by rewrite delete_empty, delete_insert_eq, delete_empty. }
  split.
  - unfold bind at 1.
    replace (once event (VFun f) priority (World (mkBus ∅ ∅ c) c0 t0))
      with (Some (Ret (VStr id), World s1 c0 t0)).
    2:{ unfold once, bind, get_st, put_st, ret. simpl. by rewrite lookup_empty. }
    unfold bind. rewrite emit_spec. cbn [st console trace].
    rewrite Hall. unfold ret. simpl rev.
    change (after_pass event s1 [mkTagged l true false])
      with (off_state s1 (VStr event) (VStr id)).
    by rewrite Hoff.
  - rewrite emit_spec. subst w2. cbn [st console trace].
    unfold allListeners. cbn [listeners onceListeners].
    rewrite !lookup_empty. cbn. by rewrite !app_nil_r.
Qed.

End BusClaims.

(** ** Listeners that call the bus *)

Section ReentrantClaims.

Import EventBus BusSpec.

Context (script : list call -> nat -> list value -> list op * outcome value).

Lemma forEach_ext_in {S A B} (f g : B -> A -> M S A) (l : list B) :
  (forall x acc w, x ∈ l -> f x acc w = g x acc w) ->
  forall acc w, forEach f l acc w = forEach g l acc w.
Proof.
  induction l as [|x l IH]; intros Hfg acc w; [done|].
  cbn [forEach]. unfold bind. rewrite Hfg by apply list_elem_of_here.
  destruct (g x acc w) as [[[a|e] w']|]; [|done|done].
  apply IH. intros y acc' w'' Hy. apply Hfg. by apply list_elem_of_further.
Qed.

(** A listener that makes no call on the bus is called as [invoke] calls
    it. *)
Lemma call_listener_plain emit_inside from f args (w : world bus) :
  (script (trace w) f args).1 = [] ->
  BusReentrant.call_listener script emit_inside from f args w
  = invoke (fun h g a => (script h g a).2) from f args w.
Proof.
  intros Hs. unfold BusReentrant.call_listener, invoke. cbn zeta. rewrite Hs.
  cbn [forEach]. unfold bind, ret, throw.
  by destruct (script (trace w) f args).2.
Qed.

(** When no listener of the pass calls the bus, [emit] is the [emit] of
    listeners that only return or throw. *)
Lemma emit_plain depth event data (w : world bus) :
  (forall l, l ∈ allListeners (st w) event ->
     forall history args, (script history (callback (entry l)) args).1 = []) ->
  BusReentrant.emit script (S depth) event data w
  = emit (fun h g a => (script h g a).2) event data w.
Proof.
  intros Hplain. cbn [BusReentrant.emit]. unfold BusReentrant.emit_level, emit.
  unfold bind, get_st. cbn [st].
  apply forEach_ext_in. intros l acc w' Hl. rewrite elem_of_rev in Hl.
  unfold BusReentrant.dispatch, dispatch, bind, try_catch.
  destruct (isWildcard l);
    by rewrite call_listener_plain by apply (Hplain l Hl).
Qed.

(** C7 (amended). On a bus without listeners, [once(event, cb)] with a
    [cb] that makes no call on the bus while it runs, followed by two
    [emit(event, ...)], calls [cb] once, in the first [emit]; that [emit]
    takes the entry off the bus when [cb] has returned or thrown, so the
    second one finds no listener, calls nothing and returns the empty
    array. *)
Theorem once_listener_is_called_once (s : bus) c0 t0 event f priority data1 data2 depth :
  (forall history args, (script history f args).1 = []) ->
  event <> "*" ->
  listeners s = ∅ ->
  onceListeners s = ∅ ->
  let id := "once_" +:+ pretty (N.succ (listenerIdCounter s)) in
  let call1 := Call (Listener id) f [data1] in
  let os := outcomes (fun h g a => (script h g a).2) t0 [call1] in
  let w2 := World (mkBus ∅ ∅ (N.succ (listenerIdCounter s)))
                  (c0 ++ map (fun e => Log LError (emit_error_text event) [e]) (thrown os))
                  (t0 ++ [call1]) in
  (let* id := once event (VFun f) priority in
   let* results1 := BusReentrant.emit script (S depth) event data1 in
   ret (id, results1)) (World s c0 t0)
  = Some (Ret (VStr id, returned os), w2)
  /\ BusReentrant.emit script (S depth) event data2 w2 = Some (Ret [], w2).
Proof.
  intros Hf Hev Hl Ho id call1 os w2.
  destruct (once_then_two_emits (fun h g a => (script h g a).2)
              s c0 t0 event f priority data1 data2 Hev Hl Ho) as [H1 H2].
  cbv zeta in H1, H2. fold id call1 os w2 in H1, H2.
  destruct s as [ls os' c]. simpl in Hl, Ho. subst ls os'.
  set (l := mkListener id f (default 0 priority)).
  set (s1 := mkBus ∅ (<[event := [l]]> ∅) (N.succ c)).
  assert (Hon : once event (VFun f) priority (World (mkBus ∅ ∅ c) c0 t0)
                = Some (Ret (VStr id), World s1 c0 t0)).
  { unfold once, bind, get_st, put_st, ret. simpl. by rewrite lookup_empty. }
  assert (Hall : allListeners s1 event = [mkTagged l true false]).
  { unfold allListeners, s1. cbn [listeners onceListeners].
    rewrite lookup_insert_eq, lookup_insert_ne, !lookup_empty by done. done. }
  split.
  - rewrite <- H1. unfold bind at 1 3. rewrite Hon. unfold bind at 1 2.
    rewrite emit_plain; [done|]. cbn [st]. rewrite Hall.
    intros l' Hl'. apply list_elem_of_singleton in Hl'. subst l'. exact Hf.
  - rewrite <- H2. apply emit_plain. subst w2. cbn [st].
    unfold allListeners. cbn [listeners onceListeners]. rewrite !lookup_empty.
    intros l' Hl'. cbn in Hl'. by apply elem_of_nil in Hl'.
Qed.

End ReentrantClaims.

(** C7 (as stated) fails for a callback that calls the bus.  The entry of
    a once listener is taken off when the callback has returned: a
    callback that emits the event while it runs is called again by that
    [emit], on the same entry.  Here [cb] emits x when it is called for
    the first time, and [once('x', cb)] followed by two [emit('x', ...)]
    calls it twice, both times within the first [emit]. *)
Lemma once_listener_is_called_twice_counterexample :
  observe
    ((EventBus.once "x" (VFun 3) None ;;;
      BusReentrant.emit BusReentrant.emits_again 2 "x" (VStr "first") ;;;
      BusReentrant.emit BusReentrant.emits_again 2 "x" (VStr "second"))
       (World EventBus.initial [] []))
  = Some (Ret [], [],
          [Call (Listener "once_1") 3 [VStr "first"];
           Call (Listener "once_1") 3 [VStr "again"]]).
Proof. vm_compute. reflexivity. Qed.

Lemma once_listener_is_called_once_witness :
  let script := BusReentrant.returns_seven in
  let w2 := World (EventBus.mkBus ∅ ∅ 1) [] [Call (Listener "once_1") 3 [VStr "first"]] in
  (let* id := EventBus.once "x" (VFun 3) None in
   let* results1 := BusReentrant.emit script 2 "x" (VStr "first") in
   ret (id, results1)) (World EventBus.initial [] [])
  = Some (Ret (VStr "once_1", [VNum 7]), w2)
  /\ BusReentrant.emit script 2 "x" (VStr "second") w2 = Some (Ret [], w2).
Proof.
  intros script w2.
  apply (once_listener_is_called_once script EventBus.initial [] [] "x" 3 None
           (VStr "first") (VStr "second") 1).
  - reflexivity.
  - discriminate.
  - reflexivity.
  - reflexivity.
Defined.

Section BusIds.

Import EventBus BusSpec.

Lemma flat_lookup (m : gmap string (list listener)) k :
  flat m ≡ₚ default [] (m !! k) ++ flat (delete k m).
Proof.
  unfold flat. destruct (m !! k) as [l|] eqn:Hk; simpl.
  - by rewrite <- (map_to_list_delete m k l Hk).
  - by rewrite delete_id.
Qed.

Lemma flat_insert (m : gmap string (list listener)) k l :
  flat (<[k := l]> m) ≡ₚ l ++ flat (delete k m).
Proof.
  unfold flat. rewrite <- insert_delete_eq.
  rewrite map_to_list_insert by apply lookup_delete_eq. done.
Qed.

Lemma flat_store_back (m : gmap string (list listener)) k l :
  flat (store_back m (VStr k) l) ≡ₚ l ++ flat (delete k m).
Proof.
  destruct l as [|x l]; [done|]. apply flat_insert.
Qed.

Lemma filter_split {A} (p : A -> bool) (l : list A) :
  l ≡ₚ List.filter p l ++ List.filter (fun x => negb (p x)) l.
Proof.
  induction l as [|x l IH]; simpl; [done|].
  destruct (p x); simpl.
  - by rewrite <- IH.
  - by rewrite <- Permutation_middle, <- IH.
Qed.

Lemma matches_id i l : matches (VStr i) l = true -> id l = i.
Proof.
  unfold matches. simpl. rewrite orb_false_r. apply String.eqb_eq.
Qed.

(** What one map loses when [off] is given an id or a callback. *)
Lemma flat_off (m : gmap string (list listener)) event c :
  exists removed,
    flat m ≡ₚ removed ++ flat (store_back m event (without c (default [] (map_get m event))))
    /\ Forall (fun l => matches c l = true) removed.
Proof.
  destruct event as [| | | | | |k| | |];
    try (exists []; split; [done|constructor]).
  exists (List.filter (matches c) (default [] (m !! k))). split.
  - rewrite flat_store_back. simpl. rewrite (flat_lookup m k) at 1.
    rewrite app_assoc. apply Permutation_app_tail, filter_split.
  - apply Forall_forall. intros l Hl. apply list_elem_of_In, filter_In in Hl. tauto.
Qed.

Lemma off_state_matching s event c :
  c <> VUndefined ->
  off_state s event c =
    mkBus (store_back (listeners s) event (without c (default [] (map_get (listeners s) event))))
          (store_back (onceListeners s) event
             (without c (default [] (map_get (onceListeners s) event))))
          (listenerIdCounter s).
Proof. by destruct c. Qed.

Lemma off_state_entries s event c :
  exists removed,
    entries s ≡ₚ removed ++ entries (off_state s event c)
    /\ forall i, c = VStr i -> Forall (fun l => id l = i) removed.
Proof.
  assert (Hgen : c <> VUndefined ->
    exists removed,
      entries s ≡ₚ removed ++ entries (off_state s event c)
      /\ forall i, c = VStr i -> Forall (fun l => id l = i) removed).
  { intros Hc. rewrite off_state_matching by done.
    destruct (flat_off (listeners s) event c) as (r1 & Hp1 & Hr1).
    destruct (flat_off (onceListeners s) event c) as (r2 & Hp2 & Hr2).
    exists (r1 ++ r2). split.
    - unfold entries. cbn [listeners onceListeners].
      fold (flat (listeners s)) (flat (onceListeners s)).
      rewrite Hp1 at 1. rewrite Hp2 at 1. unfold flat.
      rewrite <- !app_assoc. apply Permutation_app_head.
      rewrite !app_assoc. apply Permutation_app_tail. apply Permutation_app_comm.
    - intros i ->. apply Forall_app. split; eapply Forall_impl; eauto using matches_id. }
  destruct c; try (apply Hgen; discriminate). clear Hgen.
  unfold off_state. destruct (truthy event) eqn:Ht.
  - destruct event as [| | | | | |k| | |];
      try (exists []; split; [done|intros; discriminate]).
    exists (default [] (listeners s !! k) ++ default [] (onceListeners s !! k)).
    split; [|intros; discriminate].
    unfold entries. simpl. fold (flat (listeners s)) (flat (onceListeners s)).
    fold (flat (delete k (listeners s))) (flat (delete k (onceListeners s))).
    rewrite (flat_lookup (listeners s) k) at 1.
    rewrite (flat_lookup (onceListeners s) k) at 1.
    rewrite <- !app_assoc. apply Permutation_app_head.
    rewrite !app_assoc. apply Permutation_app_tail, Permutation_app_comm.
  - exists (entries s). split; [|intros; discriminate].
    unfold entries at 3. cbn [listeners onceListeners]. rewrite !map_to_list_empty. simpl. by rewrite app_nil_r.
Qed.

Lemma bus_inv_off s event c : bus_inv s -> bus_inv (off_state s event c).
Proof.
  intros [Hnd Hiss].
  destruct (off_state_entries s event c) as (removed & Hp & _).
  assert (Hc : listenerIdCounter (off_state s event c) = listenerIdCounter s).
  { unfold off_state. destruct c; try done. by destruct (truthy event). }
  split.
  - rewrite Hp, map_app in Hnd. by apply NoDup_app in Hnd as (_ & _ & ?).
  - rewrite Hc. rewrite Hp in Hiss. by apply Forall_app in Hiss as [_ ?].
Qed.

Lemma off_removes_at_most_one s event i :
  bus_inv s ->
  (length (entries s) <= S (length (entries (off_state s event (VStr i)))))%nat.
Proof.
  intros [Hnd _].
  destruct (off_state_entries s event (VStr i)) as (removed & Hp & Hid).
  specialize (Hid i eq_refl).
  rewrite Hp in Hnd. rewrite Hp, length_app.
  rewrite map_app in Hnd. apply NoDup_app in Hnd as (Hnd & _ & _).
  destruct removed as [|a [|b removed]]; simpl; try lia.
  exfalso. inversion Hid as [|? ? Ha Hid']; subst. inversion Hid' as [|? ? Hb _]; subst.
  simpl in Hnd. rewrite Hb in Hnd. apply NoDup_cons in Hnd as [Hnd _].
  apply Hnd. left.
Qed.

Lemma after_pass_cons event s l pass :
  after_pass event s (l :: pass) =
    after_pass event
      (if isOnce l then off_state s (VStr event) (VStr (id (entry l))) else s) pass.
Proof. done. Qed.

Lemma bus_inv_after_pass event pass s : bus_inv s -> bus_inv (after_pass event s pass).
Proof.
  revert s. induction pass as [|l pass IH]; intros s Hs; [done|].
  rewrite after_pass_cons. apply IH. destruct (isOnce l); [by apply bus_inv_off|done].
Qed.

Lemma after_pass_counter event pass s :
  listenerIdCounter (after_pass event s pass) = listenerIdCounter s.
Proof.
  revert s. induction pass as [|l pass IH]; intros s; [done|].
  rewrite after_pass_cons, IH. by destruct (isOnce l).
Qed.

Lemma issued_mono lo hi hi' i : (hi <= hi')%N -> issued lo hi i -> issued lo hi' i.
Proof. intros ? (n & ? & ?). exists n. split; [lia|done]. Qed.

Lemma issued_disjoint lo hi lo' hi' i j :
  (hi <= lo')%N -> issued lo hi i -> issued lo' hi' j -> i <> j.
Proof.
  intros Hle (n & Hn & Hi) (m & Hm & Hj) ->.
  assert (n <> m) by lia.
  destruct Hi as [Hi|Hi], Hj as [Hj|Hj]; rewrite Hi in Hj; simpl in Hj;
    simplify_eq; try (apply (inj pretty) in Hj; done).
Qed.

Lemma issued_widen lo hi lo' hi' i :
  (lo' <= lo)%N -> (hi <= hi')%N -> issued lo hi i -> issued lo' hi' i.
Proof. intros ? ? (n & ? & ?). exists n. split; [lia|done]. Qed.

Lemma on_spec event f priority (w : world bus) :
  let s := st w in
  let l := mkListener ("listener_" +:+ pretty (N.succ (listenerIdCounter s))) f
                      (default 0 priority) in
  on event (VFun f) priority w =
    Some (Ret (VStr (id l)),
          World (mkBus (<[event := Array_sort by_priority
                                     (default [] (listeners s !! event) ++ [l])]> (listeners s))
                       (onceListeners s) (N.succ (listenerIdCounter s)))
                (console w) (trace w)).
Proof. done. Qed.

Lemma once_spec event f priority (w : world bus) :
  let s := st w in
  let l := mkListener ("once_" +:+ pretty (N.succ (listenerIdCounter s))) f
                      (default 0 priority) in
  once event (VFun f) priority w =
    Some (Ret (VStr (id l)),
          World (mkBus (listeners s)
                       (<[event := Array_sort by_priority
                                     (default [] (onceListeners s !! event) ++ [l])]>
                          (onceListeners s))
                       (N.succ (listenerIdCounter s)))
                (console w) (trace w)).
Proof. done. Qed.

Lemma on_reject event cb priority (w : world bus) :
  is_function cb = false ->
  on event cb priority w =
    Some (Ret VNull,
          World (st w) (console w ++ [Log LWarn "[EventBus] Callback must be a function" []])
                (trace w)).
Proof. by destruct cb. Qed.

Lemma once_reject event cb priority (w : world bus) :
  is_function cb = false ->
  once event cb priority w =
    Some (Ret VNull,
          World (st w) (console w ++ [Log LWarn "[EventBus] Callback must be a function" []])
                (trace w)).
Proof. by destruct cb. Qed.

Lemma flat_subscribe (m : gmap string (list listener)) event l :
  flat (<[event := Array_sort by_priority (default [] (m !! event) ++ [l])]> m) ≡ₚ l :: flat m.
Proof.
  rewrite flat_insert, Array_sort_perm.
  symmetry. rewrite (flat_lookup m event). symmetry.
  rewrite <- app_assoc. symmetry. apply Permutation_middle.
Qed.

Lemma bus_inv_subscribe s s' l :
  bus_inv s ->
  entries s' ≡ₚ l :: entries s ->
  listenerIdCounter s' = N.succ (listenerIdCounter s) ->
  issued (listenerIdCounter s) (N.succ (listenerIdCounter s)) (id l) ->
  bus_inv s'.
Proof.
  intros [Hnd Hiss] Hp Hc Hl. split.
  - rewrite Hp. simpl. apply NoDup_cons. split; [|done].
    intros Hin. apply list_elem_of_fmap in Hin as (l' & Heq & Hin).
    rewrite Forall_forall in Hiss. specialize (Hiss _ Hin).
    refine (issued_disjoint _ _ _ _ _ _ _ Hiss Hl _); [lia|done].
  - rewrite Hp, Hc. constructor.
    + eapply issued_widen; [| |exact Hl]; lia.
    + eapply Forall_impl; [exact Hiss|]. intros ? (n & ? & ?).
      exists n. split; [lia|done].
Qed.

Context (call_result : list call -> nat -> list value -> outcome value).

(** A step of a program keeps the invariant, moves the counter up by at
    most one, and a returned id is made from the new counter value. *)
Lemma step_spec o (w : world bus) :
  bus_inv (st w) ->
  exists r w',
    step call_result o w = Some (Ret r, w')
    /\ bus_inv (st w')
    /\ (listenerIdCounter (st w) <= listenerIdCounter (st w'))%N
    /\ Forall (issued (listenerIdCounter (st w)) (listenerIdCounter (st w')))
              (returned_ids [o] [r]).
Proof.
  intros Hinv. destruct o as [event cb p|event cb p|event c|event data]; cbn [step].
  - destruct (is_function cb) eqn:Hcb.
    2:{ rewrite on_reject by done. eexists _, _. split; [done|]. split; [done|].
        split; [simpl; lia|constructor]. }
    destruct cb as [| | | | | | | | |f]; try discriminate.
    rewrite on_spec. eexists _, _. split; [done|]. cbn [st].
    set (l := mkListener _ f _).
    assert (Hl : issued (listenerIdCounter (st w)) (N.succ (listenerIdCounter (st w))) (id l)).
    { exists (N.succ (listenerIdCounter (st w))). split; [lia|by left]. }
    split; [|split; [simpl; lia|]].
    + eapply (bus_inv_subscribe _ _ l); [done| |done|done].
      unfold entries. cbn [listeners onceListeners].
      fold (flat (listeners (st w))) (flat (onceListeners (st w))).
      change (concat (map snd (map_to_list ?m))) with (flat m).
      by rewrite flat_subscribe.
    + simpl. by constructor.
  - destruct (is_function cb) eqn:Hcb.
    2:{ rewrite once_reject by done. eexists _, _. split; [done|]. split; [done|].
        split; [simpl; lia|constructor]. }
    destruct cb as [| | | | | | | | |f]; try discriminate.
    rewrite once_spec. eexists _, _. split; [done|]. cbn [st].
    set (l := mkListener _ f _).
    assert (Hl : issued (listenerIdCounter (st w)) (N.succ (listenerIdCounter (st w))) (id l)).
    { exists (N.succ (listenerIdCounter (st w))). split; [lia|by right]. }
    split; [|split; [simpl; lia|]].
    + eapply (bus_inv_subscribe _ _ l); [done| |done|done].
      unfold entries. cbn [listeners onceListeners].
      change (concat (map snd (map_to_list ?m))) with (flat m).
      rewrite flat_subscribe. symmetry. apply Permutation_middle.
    + simpl. by constructor.
  - rewrite off_spec. eexists _, _. split; [done|]. cbn [st].
    split; [by apply bus_inv_off|].
    assert (Hc : listenerIdCounter (off_state (st w) event c) = listenerIdCounter (st w)).
    { unfold off_state. destruct c; try done. by destruct (truthy event). }
    rewrite Hc. split; [lia|]. simpl. constructor.
  - unfold bind. rewrite emit_spec. eexists _, _. split; [done|]. cbn [st].
    split; [by apply bus_inv_after_pass|].
    rewrite after_pass_counter. split; [lia|]. simpl. constructor.
Qed.

Lemma returned_ids_cons o r ops rs :
  returned_ids (o :: ops) (r :: rs) = returned_ids [o] [r] ++ returned_ids ops rs.
Proof. destruct o, r; done. Qed.

Lemma run_spec ops (w : world bus) :
  bus_inv (st w) ->
  exists rs w',
    run call_result ops w = Some (Ret rs, w')
    /\ bus_inv (st w')
    /\ (listenerIdCounter (st w) <= listenerIdCounter (st w'))%N
    /\ NoDup (returned_ids ops rs)
    /\ Forall (issued (listenerIdCounter (st w)) (listenerIdCounter (st w')))
              (returned_ids ops rs).
Proof.
  revert w. induction ops as [|o ops IH]; intros w Hinv.
  - eexists _, _. split; [done|]. split; [done|]. split; [lia|]. split; constructor.
  - destruct (step_spec o w Hinv) as (r & w1 & Hstep & Hinv1 & Hle1 & Hids1).
    destruct (IH w1 Hinv1) as (rs & w2 & Hrun & Hinv2 & Hle2 & Hnd & Hids2).
    exists (r :: rs), w2. cbn [run]. unfold bind at 1. rewrite Hstep.
    unfold bind at 1. rewrite Hrun. split; [done|]. split; [done|]. split; [lia|].
    rewrite returned_ids_cons. split.
    + apply NoDup_app. split; [|split; [|done]].
      * assert (Hlen : (length (returned_ids [o] [r]) <= 1)%nat)
          by (destruct o, r; simpl; lia).
        destruct (returned_ids [o] [r]) as [|i [|]]; simpl in Hlen; try lia.
        -- constructor.
        -- apply NoDup_singleton.
      * intros i Hi1 Hi2. rewrite Forall_forall in Hids1, Hids2.
        refine (issued_disjoint _ _ _ _ _ _ _ (Hids1 _ Hi1) (Hids2 _ Hi2) _); [lia|done].
    + apply Forall_app. split; (eapply Forall_impl; [eassumption|]);
        intros ? (n & ? & ?); exists n; (split; [lia|done]).
Qed.

Lemma bus_inv_initial : bus_inv initial.
Proof. split; [constructor|constructor]. Qed.

(** C10. In every program of bus calls run on a new bus, the ids that [on]
    and [once] return are pairwise distinct; and in the state the program
    leaves, [off(event, id)] with a string [id] (so with each of the
    returned ids) takes at most one entry off the bus. *)
Theorem listener_ids_are_distinct ops c0 t0 :
  exists rs w,
    run call_result ops (World initial c0 t0) = Some (Ret rs, w)
    /\ NoDup (returned_ids ops rs)
    /\ forall event id,
         exists r w',
           off event (VStr id) w = Some (Ret r, w')
           /\ (length (entries (st w)) <= S (length (entries (st w'))))%nat.
Proof.
  destruct (run_spec ops (World initial c0 t0) bus_inv_initial)
    as (rs & w & Hrun & Hinv & _ & Hnd & _).
  exists rs, w. split; [done|]. split; [done|].
  intros event id. rewrite off_spec. eexists _, _. split; [done|].
  cbn [st]. by apply off_removes_at_most_one.
Qed.

End BusIds.

(** ** The module loader *)

Section LoaderFacts.

Import ModuleLoader LoaderSpec.

Context (call_result : list call -> nat -> list value -> outcome value).

Lemma register_spec n f ds (w : world loader) :
  trim n <> EmptyString ->
  register (VStr n) (VFun f) ds w =
    Some (Ret tt,
          World (mkLoader (<[n := mkEntry f (default [] ds) VNull]> (modules (st w)))
                          (match ds with
                           | Some (d :: ds') => <[n := d :: ds']> (dependencies (st w))
                           | _ => dependencies (st w)
                           end)
                          (initializedModules (st w)))
                (console w) (trace w)).
Proof.
  intros Hn. unfold register.
  destruct (String.eqb (trim n) EmptyString) eqn:E; [by apply String.eqb_eq in E|done].
Qed.

(** The [try] block of [initModule], case by case. *)
Lemma createInstance_unfold x ds (w : world loader) :
  createInstance call_result x ds w =
    match modules (st w) !! x with
    | None => Some (Throw (VStr "TypeError"), w)
    | Some m =>
        let args := map (depInstance (st w)) ds in
        let t1 := trace w ++ [Call (Factory x) (factory m) args] in
        match call_result (trace w) (factory m) args with
        | Throw e => Some (Throw e, World (st w) (console w) t1)
        | Ret inst =>
            if truthy inst then
              let s2 := mkLoader
                          (alter (fun m => mkEntry (factory m) (deps m) inst) x (modules (st w)))
                          (dependencies (st w)) ({[x]} ∪ initializedModules (st w)) in
              match get_prop inst "init" with
              | VFun g =>
                  let t2 := t1 ++ [Call (InitMethod x) g []] in
                  match call_result t1 g [] with
                  | Ret _ => Some (Ret true, World s2 (console w) t2)
                  | Throw e => Some (Throw e, World s2 (console w) t2)
                  end
              | _ => Some (Ret true, World s2 (console w) t1)
              end
            else
              Some (Ret false,
                    World (st w) (console w ++ [Log LError "模块实例创建失败：" [VStr x]]) t1)
        end
    end.
Proof.
  unfold createInstance, bind at 1, get_st. cbn [st].
  destruct (modules (st w) !! x) as [m|]; [|by destruct w].
  unfold bind at 1, invoke. cbn [st console trace].
  destruct (call_result (trace w) (factory m) _) as [inst|e]; [|done].
  destruct (truthy inst); [|done].
  unfold bind at 1, get_st. cbn [st]. unfold bind at 1, put_st. cbn [st console trace].
  unfold bind at 1.
  destruct (get_prop inst "init") as [| | | | | | | | |g]; try done.
  cbn [is_function invoke_value]. unfold bind, invoke. cbn [st console trace].
  by destruct (call_result _ g []).
Qed.

Lemma createInstance_returns x ds (w : world loader) :
  exists o w', createInstance call_result x ds w = Some (o, w').
Proof.
  rewrite createInstance_unfold.
  destruct (modules (st w) !! x) as [m|]; [|by eexists _, _].
  cbn zeta. destruct (call_result (trace w) (factory m) _) as [inst|e]; [|by eexists _, _].
  destruct (truthy inst); [|by eexists _, _].
  destruct (get_prop inst "init") as [| | | | | | | | |g]; try (by eexists _, _).
  destruct (call_result _ g []); by eexists _, _.
Qed.

Lemma frame_refl w : frame w w.
Proof. split; [done|]. split; [done|]. split; [done|]. exists []. by rewrite app_nil_r. Qed.

Lemma frame_trans w1 w2 w3 : frame w1 w2 -> frame w2 w3 -> frame w1 w3.
Proof.
  intros (Hc1 & Hd1 & Hi1 & calls1 & Ht1) (Hc2 & Hd2 & Hi2 & calls2 & Ht2).
  split; [congruence|]. split; [congruence|]. split; [set_solver|].
  exists (calls1 ++ calls2). by rewrite Ht2, Ht1, app_assoc.
Qed.

Lemma frame_log (w : world loader) l :
  frame w (World (st w) (console w ++ l) (trace w)).
Proof. split; [done|]. split; [done|]. split; [done|]. exists []. simpl. by rewrite app_nil_r. Qed.

Lemma codes_alter_instance x inst (mods : gmap string entry) :
  code <$> alter (fun m => mkEntry (factory m) (deps m) inst) x mods = code <$> mods.
Proof.
  apply map_eq. intros k. rewrite !lookup_fmap, lookup_alter.
  destruct (decide (x = k)) as [->|]; [|done]. by destruct (mods !! k).
Qed.

Lemma createInstance_frame x ds (w : world loader) o w' :
  createInstance call_result x ds w = Some (o, w') -> frame w w'.
Proof.
  rewrite createInstance_unfold.
  assert (Hput : forall inst c t,
    frame w (World (mkLoader (alter (fun m => mkEntry (factory m) (deps m) inst) x (modules (st w)))
                             (dependencies (st w)) ({[x]} ∪ initializedModules (st w)))
                   c (trace w ++ t))).
  { intros. split; [apply codes_alter_instance|]. split; [done|]. split; [set_solver|]. by eexists. }
  assert (Hcall : forall s c t, s = st w -> frame w (World s c (trace w ++ t))).
  { intros ? ? ? ->. split; [done|]. split; [done|]. split; [done|]. by eexists. }
  destruct (modules (st w) !! x) as [m|]; [|intros [= <- <-]; apply frame_refl].
  cbn zeta. destruct (call_result (trace w) (factory m) _) as [inst|e];
    [|intros [= <- <-]; by apply Hcall].
  destruct (truthy inst); [|intros [= <- <-]; by apply Hcall].
  destruct (get_prop inst "init") as [| | | | | | | | |g];
    try (intros [= <- <-]; apply Hput).
  destruct (call_result _ g []); intros [= <- <-]; rewrite <- app_assoc; apply Hput.
Qed.

(** [initModule] returns a boolean, it never throws; and it keeps the
    frame. *)
Lemma initModule_frame fuel x (w : world loader) o w' :
  initModule call_result fuel x w = Some (o, w') ->
  (exists b, o = Ret b) /\ frame w w'.
Proof.
  revert x w o w'. induction fuel as [|fuel IH]; intros x w o w'; [done|].
  cbn [initModule]. unfold bind at 1, get_st. cbn [st].
  destruct (bool_decide _); [intros [= <- <-]; eauto using frame_refl|].
  destruct (modules (st w) !! x) as [m|];
    [|intros [= <- <-]; eauto using frame_log].
  assert (Hloop : forall ds w o w',
    forEach (init_dep (initModule call_result fuel)) ds tt w = Some (o, w') ->
    o = Ret tt /\ frame w w').
  { clear -IH. induction ds as [|d ds IHds]; intros w o w'.
    - intros [= <- <-]. eauto using frame_refl.
    - cbn [forEach]. unfold bind at 1, init_dep at 1, bind at 1.
      destruct (initModule call_result fuel d w) as [[o1 w1]|] eqn:Hd; [|done].
      apply IH in Hd as ([b ->] & Hf1).
      destruct b.
      + unfold ret at 1. intros H. apply IHds in H as [-> Hf2]. eauto using frame_trans.
      + unfold log at 1. intros H. apply IHds in H as [-> Hf2].
        split; [done|]. eapply frame_trans; [|exact Hf2].
        eapply frame_trans; [exact Hf1|]. apply frame_log. }
  unfold bind at 1.
  destruct (forEach _ _ _ _) as [[o1 w1]|] eqn:Hds; [|done].
  apply Hloop in Hds as [-> Hf1].
  unfold try_catch.
  destruct (createInstance _ _ _ _) as [[o2 w2]|] eqn:Hc; [|done].
  apply createInstance_frame in Hc.
  destruct o2 as [b|e]; intros [= <- <-].
  - eauto using frame_trans.
  - split; [eauto|]. eapply frame_trans; [exact Hf1|]. eapply frame_trans; [exact Hc|].
    apply frame_log.
Qed.

Lemma init_deps_frame fuel ds (w : world loader) o w' :
  forEach (init_dep (initModule call_result fuel)) ds tt w = Some (o, w') ->
  o = Ret tt /\ frame w w'.
Proof.
  revert w o w'. induction ds as [|d ds IHds]; intros w o w'.
  - intros [= <- <-]. eauto using frame_refl.
  - cbn [forEach]. unfold bind at 1, init_dep at 1, bind at 1.
    destruct (initModule call_result fuel d w) as [[o1 w1]|] eqn:Hd; [|done].
    apply initModule_frame in Hd as ([b ->] & Hf1).
    destruct b.
    + unfold ret at 1. intros H. apply IHds in H as [-> Hf2]. eauto using frame_trans.
    + unfold log at 1. intros H. apply IHds in H as [-> Hf2].
      split; [done|]. eapply frame_trans; [|exact Hf2].
      eapply frame_trans; [exact Hf1|]. apply frame_log.
Qed.

Lemma frame_lookup (w w' : world loader) k m :
  frame w w' -> modules (st w) !! k = Some m ->
  exists m', modules (st w') !! k = Some m' /\ code m' = code m.
Proof.
  intros (Hc & _) Hk.
  assert (Hk' : codes (st w') !! k = Some (code m)).
  { rewrite Hc. unfold codes. by rewrite lookup_fmap, Hk. }
  unfold codes in Hk'. rewrite lookup_fmap in Hk'.
  destruct (modules (st w') !! k) as [m'|]; [|done].
  exists m'. split; [done|]. simpl in Hk'. congruence.
Qed.

Lemma createInstance_calls_factory x ds (w : world loader) o w' m :
  createInstance call_result x ds w = Some (o, w') ->
  modules (st w) !! x = Some m ->
  exists args post, trace w' = trace w ++ Call (Factory x) (factory m) args :: post.
Proof.
  rewrite createInstance_unfold. intros H Hm. rewrite Hm in H. cbn zeta in H.
  destruct (call_result (trace w) (factory m) _) as [inst|e];
    [|injection H as <- <-; by eexists _, []].
  destruct (truthy inst); [|injection H as <- <-; by eexists _, []].
  destruct (get_prop inst "init") as [| | | | | | | | |g];
    try (injection H as <- <-; by eexists _, []).
  destruct (call_result _ g []); injection H as <- <-; eexists _, [_]; cbn [trace];
    by rewrite <- app_assoc.
Qed.

Lemma dep_ranked_frame rank (w w' : world loader) :
  frame w w' -> dep_ranked rank (modules (st w)) -> dep_ranked rank (modules (st w')).
Proof.
  intros (Hc & _) Hr k m' Hk.
  assert (Hk' : codes (st w) !! k = Some (code m')).
  { rewrite <- Hc. unfold codes. by rewrite lookup_fmap, Hk. }
  unfold codes in Hk'. rewrite lookup_fmap in Hk'.
  destruct (modules (st w) !! k) as [m|] eqn:Hm; [|done].
  injection Hk' as Hf Hd. rewrite <- Hd. by apply (Hr k m).
Qed.

Lemma below_refl rank b w : below rank b w w.
Proof. split; [done|]. exists []. split; [by rewrite app_nil_r|constructor]. Qed.

Lemma below_trans rank b w1 w2 w3 : below rank b w1 w2 -> below rank b w2 w3 -> below rank b w1 w3.
Proof.
  intros (H1 & calls1 & Ht1 & Hb1) (H2 & calls2 & Ht2 & Hb2). split.
  - intros k Hk. destruct (H1 k Hk) as [E1 I1]. destruct (H2 k Hk) as [E2 I2].
    split; [congruence|auto].
  - exists (calls1 ++ calls2). split; [by rewrite Ht2, Ht1, app_assoc|by apply Forall_app].
Qed.

Lemma below_mono rank b b' w w' : (b <= b')%nat -> below rank b w w' -> below rank b' w w'.
Proof.
  intros Hb (H1 & calls & Ht & Hc). split.
  - intros k Hk. apply H1. lia.
  - exists calls. split; [done|]. eapply Forall_impl; [exact Hc|].
    intros c. unfold call_below. destruct (call_site c); try done; lia.
Qed.

Lemma below_log rank b (w : world loader) l :
  below rank b w (World (st w) (console w ++ l) (trace w)).
Proof. split; [done|]. exists []. simpl. split; [by rewrite app_nil_r|constructor]. Qed.

Lemma createInstance_below rank x ds (w : world loader) o w' :
  createInstance call_result x ds w = Some (o, w') -> below rank (S (rank x)) w w'.
Proof.
  rewrite createInstance_unfold.
  assert (Hf : forall f args, call_below rank (S (rank x)) (Call (Factory x) f args)).
  { intros. unfold call_below. simpl. lia. }
  assert (Hi : forall f args, call_below rank (S (rank x)) (Call (InitMethod x) f args)).
  { intros. unfold call_below. simpl. lia. }
  assert (Hput : forall inst c t, Forall (call_below rank (S (rank x))) t ->
    below rank (S (rank x)) w
      (World (mkLoader (alter (fun m => mkEntry (factory m) (deps m) inst) x (modules (st w)))
                       (dependencies (st w)) ({[x]} ∪ initializedModules (st w)))
             c (trace w ++ t))).
  { intros inst c t Ht. split; [|by exists t].
    intros k Hk. assert (x <> k) by (intros Heq; subst k; lia).
    cbn [st modules initializedModules].
    split; [by rewrite lookup_alter_ne|].
    intros Hin. apply elem_of_union in Hin as [Hin|Hin]; [|done].
    apply elem_of_singleton in Hin. congruence. }
  assert (Hcall : forall s c t, s = st w -> Forall (call_below rank (S (rank x))) t ->
    below rank (S (rank x)) w (World s c (trace w ++ t))).
  { intros ? ? ? -> ?. split; [done|]. by eexists. }
  destruct (modules (st w) !! x) as [m|]; [|intros [= <- <-]; apply below_refl].
  cbn zeta. destruct (call_result (trace w) (factory m) _) as [inst|e];
    [|intros [= <- <-]; apply Hcall; [done|by constructor]].
  destruct (truthy inst); [|intros [= <- <-]; apply Hcall; [done|by constructor]].
  destruct (get_prop inst "init") as [| | | | | | | | |g];
    try (intros [= <- <-]; apply Hput; by constructor).
  destruct (call_result _ g []); intros [= <- <-]; rewrite <- app_assoc; apply Hput;
    by repeat constructor.
Qed.

(** The loop over the dependencies, all of rank below [b], when every
    module of rank below [b] has the fuel to be initialized. *)
Lemma init_deps_below rank fuel b ds :
  (forall x w, dep_ranked rank (modules (st w)) -> (rank x < b)%nat ->
     exists o w', initModule call_result fuel x w = Some (o, w') /\ below rank b w w') ->
  Forall (fun d => (rank d < b)%nat) ds ->
  forall w, dep_ranked rank (modules (st w)) ->
  exists w', forEach (init_dep (initModule call_result fuel)) ds tt w = Some (Ret tt, w')
             /\ frame w w' /\ below rank b w w'.
Proof.
  intros Hinit. induction 1 as [|d ds Hd Hds IH]; intros w Hr.
  - exists w. split; [done|]. split; [apply frame_refl|apply below_refl].
  - destruct (Hinit d w Hr Hd) as (o1 & w1 & H1 & Hb1).
    destruct (initModule_frame _ _ _ _ _ H1) as ([ok ->] & Hf1).
    set (w1' := if ok then w1 else
           World (st w1) (console w1 ++ [Log LError "依赖模块初始化失败：" [VStr d]]) (trace w1)).
    assert (Hf1' : frame w w1').
    { subst w1'. destruct ok; [done|]. eapply frame_trans; [exact Hf1|apply frame_log]. }
    assert (Hb1' : below rank b w w1').
    { subst w1'. destruct ok; [done|]. eapply below_trans; [exact Hb1|apply below_log]. }
    destruct (IH w1' (dep_ranked_frame _ _ _ Hf1' Hr)) as (w' & Hw' & Hf2 & Hb2).
    exists w'. split; [|split; [eauto using frame_trans|eauto using below_trans]].
    cbn [forEach]. unfold bind at 1, init_dep at 1, bind at 1. rewrite H1.
    subst w1'. by destruct ok.
Qed.

(** [initModule] returns when the dependency graph is acyclic and the fuel
    exceeds the rank of the module. *)
Lemma initModule_returns rank fuel x (w : world loader) :
  dep_ranked rank (modules (st w)) ->
  (rank x < fuel)%nat ->
  exists b w', initModule call_result fuel x w = Some (Ret b, w')
               /\ below rank (S (rank x)) w w'.
Proof.
  revert x w. induction fuel as [|fuel IH]; intros x w Hr Hfuel; [lia|].
  cbn [initModule]. unfold bind at 1, get_st. cbn [st].
  destruct (bool_decide _); [eexists _, _; split; [done|apply below_refl]|].
  destruct (modules (st w) !! x) as [m|] eqn:Hm;
    [|eexists _, _; split; [done|apply below_log]].
  destruct (init_deps_below rank fuel (rank x) (deps m)) with (w := w)
    as (w1 & Hloop & Hf1 & Hb1); [| |done|].
  { intros y w0 Hr0 Hy. destruct (IH y w0 Hr0) as (b & w' & H & Hb); [lia|].
    eexists _, _. split; [exact H|]. eapply below_mono; [|exact Hb]. lia. }
  { exact (Hr x m Hm). }
  unfold bind at 1. rewrite Hloop. unfold try_catch.
  destruct (createInstance call_result x (deps m) w1) as [[o2 w2]|] eqn:Hc.
  2:{ destruct (createInstance_returns x (deps m) w1) as (? & ? & ?). congruence. }
  pose proof (createInstance_below rank _ _ _ _ _ Hc) as Hb2.
  assert (Hb12 : below rank (S (rank x)) w w2).
  { eapply below_trans; [|exact Hb2]. eapply below_mono; [|exact Hb1]. lia. }
  destruct o2 as [b|e]; eexists _, _; (split; [done|]); [done|].
  eapply below_trans; [exact Hb12|apply below_log].
Qed.

Lemma factory_calls_below rank x calls :
  Forall (call_below rank (rank x)) calls -> factory_calls x calls = [].
Proof.
  induction 1 as [|c calls Hc _ IH]; [done|].
  unfold factory_calls in *. simpl. rewrite IH.
  unfold call_below in Hc. destruct (call_site c) as [n| |]; try done.
  destruct (String.eqb n x) eqn:E; [|done]. apply String.eqb_eq in E. subst n. lia.
Qed.

Lemma factory_calls_app x calls1 calls2 :
  factory_calls x (calls1 ++ calls2) = factory_calls x calls1 ++ factory_calls x calls2.
Proof. apply List.filter_app. Qed.

End LoaderFacts.

Section LoaderClaims.

Import ModuleLoader LoaderSpec.

Context (call_result : list call -> nat -> list value -> outcome value).

(** C2 (amended). A second [register] under a registered name replaces the
    first one: the registry then holds the second factory and the second
    dependency list, with no instance.  When the name has not been
    initialized before and the dependency graph is acyclic after the
    second registration (the modules can be ranked above their
    dependencies), [init(name)] returns and has called the second
    factory. *)
Theorem reregistration_replaces rank (s : loader) c0 t0 n f1 d1 f2 d2 :
  trim n <> EmptyString ->
  exists w2,
    (register (VStr n) (VFun f1) d1 ;;; register (VStr n) (VFun f2) d2) (World s c0 t0)
      = Some (Ret tt, w2)
    /\ modules (st w2) !! n = Some (mkEntry f2 (default [] d2) VNull)
    /\ (n ∉ initializedModules s ->
        dep_ranked rank (<[n := mkEntry f2 (default [] d2) VNull]> (modules s)) ->
        forall fuel, (rank n < fuel)%nat ->
        exists b w3 pre args post,
          initModule call_result fuel n w2 = Some (Ret b, w3)
          /\ trace w3 = t0 ++ pre ++ Call (Factory n) f2 args :: post).
Proof.
  intros Hn. unfold bind.
  rewrite register_spec by done. cbn beta iota.
  rewrite register_spec by done. cbn beta iota.
  cbn [st console trace modules dependencies initializedModules].
  rewrite insert_insert_eq.
  eexists. split; [reflexivity|].
  match goal with |- modules (st ?w) !! _ = _ /\ _ => set (w2 := w) end.
  assert (Hm : modules (st w2) !! n = Some (mkEntry f2 (default [] d2) VNull))
    by apply lookup_insert_eq.
  split; [done|]. intros Hni Hr fuel Hfuel.
  destruct (initModule_returns call_result rank fuel n w2 Hr Hfuel) as (b & w3 & Hinit & _).
  exists b, w3. destruct fuel as [|fuel]; [lia|].
  pose proof Hinit as Hrun.
  cbn [initModule] in Hinit. unfold bind at 1, get_st in Hinit. cbn [st] in Hinit.
  rewrite bool_decide_eq_false_2 in Hinit by done.
  rewrite Hm in Hinit. unfold bind at 1 in Hinit.
  destruct (forEach _ _ _ _) as [[o1 w']|] eqn:Hloop; [|done].
  apply init_deps_frame in Hloop as [-> Hf]. unfold try_catch in Hinit.
  destruct (createInstance _ _ _ _) as [[o2 w'']|] eqn:Hc; [|done].
  destruct (frame_lookup _ _ _ _ Hf Hm) as (m' & Hm' & Hcode).
  destruct (createInstance_calls_factory call_result _ _ _ _ _ _ Hc Hm') as (args & post & Htr).
  unfold code in Hcode. simpl in Hcode. injection Hcode as Hfac Hdeps.
  rewrite Hfac in Htr.
  destruct Hf as (_ & _ & _ & pre & Hpre). change (trace w2) with t0 in Hpre.
  exists pre, args, post. split; [done|]. rewrite Hpre, <- app_assoc in Htr.
  destruct o2; [injection Hinit as _ <-; done|].
  unfold bind, log, ret in Hinit. injection Hinit as _ <-. done.
Qed.

(** C4 (amended). Registering, under a valid name that has not been
    initialized before, a factory that returns truthy values, in a
    registry whose dependency graph is acyclic (it has a ranking of the
    modules above their dependencies): [init(name)] returns, and has
    called the factory of [name] exactly once; a second [init(name)]
    returns [true] at once and calls nothing; [get(name)] returns the
    value that the one factory call returned. *)
Theorem init_creates_one_instance rank (s : loader) c0 t0 n f ds :
  trim n <> EmptyString ->
  n ∉ initializedModules s ->
  dep_ranked rank (<[n := mkEntry f (default [] ds) VNull]> (modules s)) ->
  (forall history args,
     exists inst, call_result history f args = Ret inst /\ truthy inst = true) ->
  exists w1,
    register (VStr n) (VFun f) ds (World s c0 t0) = Some (Ret tt, w1)
    /\ forall fuel, (rank n < fuel)%nat ->
       exists r w2 pre args inst post,
         initModule call_result fuel n w1 = Some (Ret r, w2)
         /\ trace w2 = t0 ++ pre ++ Call (Factory n) f args :: post
         /\ factory_calls n (pre ++ Call (Factory n) f args :: post)
              = [Call (Factory n) f args]
         /\ call_result (t0 ++ pre) f args = Ret inst
         /\ initModule call_result fuel n w2 = Some (Ret true, w2)
         /\ get n w2 = Some (Ret inst, w2).
Proof.
  intros Hn Hni Hr Hf. eexists. split; [by apply register_spec|].
  intros [|fuel] Hfuel; [lia|].
  match goal with |- context [initModule _ _ _ ?w] => set (w1 := w) end.
  set (m := mkEntry f (default [] ds) VNull).
  assert (Hm : modules (st w1) !! n = Some m) by apply lookup_insert_eq.
  destruct (init_deps_below call_result rank fuel (rank n) (deps m)) with (w := w1)
    as (w' & Hloop & Hf1 & (Hsame & pre & Htr & Hpre)); [| |done|].
  { intros y w0 Hr0 Hy. destruct (initModule_returns call_result rank fuel y w0 Hr0)
      as (b & w'' & H & Hb); [lia|].
    eexists _, _. split; [exact H|]. eapply below_mono; [|exact Hb]. lia. }
  { exact (Hr n m Hm). }
  destruct (Hsame n) as [Hm' Hni']; [lia|]. rewrite Hm in Hm'.
  assert (Hni1 : n ∉ initializedModules (st w')) by (intros ?; apply Hni; by apply Hni').
  destruct (Hf (trace w') (map (depInstance (st w')) (deps m))) as (inst & Hcall & Htruthy).
  set (args := map (depInstance (st w')) (deps m)).
  set (s2 := mkLoader (alter (fun m => mkEntry (factory m) (deps m) inst) n (modules (st w')))
                      (dependencies (st w')) ({[n]} ∪ initializedModules (st w'))).
  assert (Hs2 : modules s2 !! n = Some (mkEntry f (default [] ds) inst)).
  { unfold s2. cbn [modules]. by rewrite lookup_alter_eq, Hm'. }
  assert (Hin2 : n ∈ initializedModules s2).
  { unfold s2. cbn [initializedModules]. apply elem_of_union_l. by apply elem_of_singleton. }
  assert (Hagain : forall c t, initModule call_result (S fuel) n (World s2 c t)
                                = Some (Ret true, World s2 c t)).
  { intros. cbn [initModule]. unfold bind at 1, get_st. cbn [st].
    by rewrite bool_decide_eq_true_2. }
  assert (Hget : forall c t, get n (World s2 c t) = Some (Ret inst, World s2 c t)).
  { intros. unfold get, bind at 1, get_st. cbn [st]. rewrite Hs2. cbn [instance].
    by rewrite Htruthy. }
  assert (Hfc : forall post, factory_calls n post = [] ->
    factory_calls n (pre ++ Call (Factory n) f args :: post) = [Call (Factory n) f args]).
  { intros post Hpost. rewrite factory_calls_app, (factory_calls_below rank n pre Hpre).
    change (Call (Factory n) f args :: post) with ([Call (Factory n) f args] ++ post).
    rewrite factory_calls_app, Hpost. unfold factory_calls. simpl.
    by rewrite String.eqb_refl. }
  assert (Hinit : initModule call_result (S fuel) n w1 =
    try_catch (createInstance call_result n (deps m))
      (fun e => log LError "模块初始化异常：" [VStr n; e] ;;; ret false) w').
  { cbn [initModule]. unfold bind at 1, get_st. cbn [st].
    rewrite bool_decide_eq_false_2 by done.
    change (modules (st w1) !! n) with (modules (st w1) !! n). rewrite Hm.
    unfold bind at 1. by rewrite Hloop. }
  rewrite Hinit. unfold try_catch. rewrite createInstance_unfold.
  rewrite Hm'. cbn zeta. change (factory m) with f. rewrite Hcall, Htruthy.
  fold args. fold s2. change (trace w1) with t0 in Htr. rewrite Htr.
  destruct (get_prop inst "init") as [| | | | | | | | |g] eqn:Hg.
  10:{ destruct (call_result _ g []) as [v|e].
      - exists true, (World s2 (console w') ((t0 ++ pre) ++ [Call (Factory n) f args]
                                              ++ [Call (InitMethod n) g []])).
        exists pre, args, inst, [Call (InitMethod n) g []].
        split; [by rewrite <- !app_assoc|]. split; [cbn [trace]; by rewrite <- !app_assoc|].
        split; [by apply Hfc|]. split; [rewrite <- Htr; exact Hcall|]. split; [apply Hagain|apply Hget].
      - eexists false, (World s2 _ ((t0 ++ pre) ++ [Call (Factory n) f args]
                                              ++ [Call (InitMethod n) g []])).
        exists pre, args, inst, [Call (InitMethod n) g []].
        split; [by rewrite <- !app_assoc|]. split; [cbn [trace]; by rewrite <- !app_assoc|].
        split; [by apply Hfc|]. split; [rewrite <- Htr; exact Hcall|]. split; [apply Hagain|apply Hget]. }
  all: exists true, (World s2 (console w') ((t0 ++ pre) ++ [Call (Factory n) f args]));
    exists pre, args, inst, [];
    (split; [done|]); (split; [cbn [trace]; by rewrite <- !app_assoc|]);
    (split; [by apply Hfc|]); (split; [rewrite <- Htr; exact Hcall|]);
    (split; [apply Hagain|apply Hget]).
Qed.

End LoaderClaims.

Section LoaderExamples.

Import ModuleLoader LoaderSpec.

(** C2 (as stated) fails: after [register('m', f1)] and then
    [register('m', f2, ['d'])] the registry holds [f2] and [['d']], not
    [f1] and the empty list, and [init('m')] calls [f2], never [f1]. *)
Lemma reregistration_keeps_first_counterexample :
  observe
    ((register (VStr "m") (VFun 1) None ;;;
      register (VStr "m") (VFun 2) (Some ["d"]) ;;;
      let* s := get_st in
      let* ok := initModule made_by 2 "m" in
      let* inst := get "m" in
      ret (modules s !! "m", ok, inst)) (World initial [] []))
  = Some (Ret (Some (mkEntry 2 ["d"] VNull), true, VObj [("made_by", VNum 2)]),
          [Log LError "模块不存在，无法初始化：" [VStr "d"];
           Log LError "依赖模块初始化失败：" [VStr "d"]],
          [Call (Factory "m") 2 [VNull]]).
Proof. vm_compute. reflexivity. Qed.

Lemma reregistration_replaces_witness :
  let rank := fun x : string => if String.eqb x "m" then 1%nat else 0%nat in
  exists w2,
    (register (VStr "m") (VFun 1) None ;;;
     register (VStr "m") (VFun 2) (Some ["d"])) (World initial [] []) = Some (Ret tt, w2)
    /\ modules (st w2) !! "m" = Some (mkEntry 2 ["d"] VNull)
    /\ exists b w3 pre args post,
         initModule made_by 2 "m" w2 = Some (Ret b, w3)
         /\ trace w3 = [] ++ pre ++ Call (Factory "m") 2 args :: post.
Proof.
  intros rank.
  destruct (reregistration_replaces made_by rank initial [] [] "m" 1 None 2 (Some ["d"]))
    as (w2 & Hreg & Hentry & Hinit).
  { vm_compute. discriminate. }
  exists w2. split; [exact Hreg|]. split; [exact Hentry|].
  apply Hinit.
  - apply not_elem_of_empty.
  - apply (bool_decide_unpack _). vm_compute. reflexivity.
  - vm_compute. lia.
Defined.

(** C4 (as stated) fails twice.  Registering again a name that is already
    initialized: [init] returns [true] without calling the new factory,
    and [get] returns [null].  Registering into a dependency cycle: [init]
    does not return, whatever the fuel. *)
Lemma init_creates_one_instance_counterexample :
  observe
    ((register (VStr "m") (VFun 1) None ;;;
      initModule made_by 2 "m" ;;;
      register (VStr "m") (VFun 2) None ;;;
      let* ok := initModule made_by 2 "m" in
      let* inst := get "m" in
      ret (ok, inst)) (World initial [] []))
  = Some (Ret (true, VNull),
          [Log LWarn "模块尚未初始化：" [VStr "m"]],
          [Call (Factory "m") 1 []])
  /\ forall fuel,
       (register (VStr "B") (VFun 2) (Some ["A"]) ;;;
        register (VStr "A") (VFun 1) (Some ["B"]) ;;;
        initModule made_by fuel "A") (World initial [] []) = None.
Proof.
  split; [vm_compute; reflexivity|].
  intros fuel. unfold bind.
  rewrite register_spec by (vm_compute; discriminate). cbn beta iota.
  rewrite register_spec by (vm_compute; discriminate). cbn beta iota.
  cbn [st console trace initial modules dependencies initializedModules].
  match goal with |- initModule _ _ _ ?w0 = _ => remember w0 as w eqn:Hw end.
  assert (HA : modules (st w) !! "A" = Some (mkEntry 1 ["B"] VNull))
    by (rewrite Hw; apply lookup_insert_eq).
  assert (HB : modules (st w) !! "B" = Some (mkEntry 2 ["A"] VNull)).
  { rewrite Hw. cbn [st modules]. by rewrite lookup_insert_ne, lookup_insert_eq. }
  assert (Hi : forall x, bool_decide (x ∈ initializedModules (st w)) = false).
  { intros x. rewrite Hw. apply bool_decide_eq_false_2, not_elem_of_empty. }
  clear Hw.
  enough (H : initModule made_by fuel "A" w = None /\ initModule made_by fuel "B" w = None)
    by apply H.
  induction fuel as [|fuel [IHA IHB]]; [done|].
  split; cbn [initModule]; unfold bind at 1, get_st; cbn [st]; rewrite Hi.
  - rewrite HA. cbn [deps forEach]. unfold bind at 1 2, init_dep at 1, bind at 1.
    by rewrite IHB.
  - rewrite HB. cbn [deps forEach]. unfold bind at 1 2, init_dep at 1, bind at 1.
    by rewrite IHA.
Qed.

Lemma init_creates_one_instance_witness :
  let rank := fun x : string => if String.eqb x "students" then 1%nat else 0%nat in
  let s := mkLoader (<["storage" := mkEntry 1 [] VNull]> ∅) ∅ ∅ in
  exists w1,
    register (VStr "students") (VFun 2) (Some ["storage"]) (World s [] []) = Some (Ret tt, w1)
    /\ forall fuel, (rank "students" < fuel)%nat ->
       exists r w2 pre args inst post,
         initModule made_by fuel "students" w1 = Some (Ret r, w2)
         /\ trace w2 = [] ++ pre ++ Call (Factory "students") 2 args :: post
         /\ factory_calls "students" (pre ++ Call (Factory "students") 2 args :: post)
              = [Call (Factory "students") 2 args]
         /\ made_by ([] ++ pre) 2 args = Ret inst
         /\ initModule made_by fuel "students" w2 = Some (Ret true, w2)
         /\ get "students" w2 = Some (Ret inst, w2).
Proof.
  intros rank s.
  apply (init_creates_one_instance made_by rank s [] [] "students" 2 (Some ["storage"])).
  - vm_compute. discriminate.
  - apply not_elem_of_empty.
  - apply (bool_decide_unpack _). vm_compute. reflexivity.
  - intros history args. eexists. split; reflexivity.
Defined.

End LoaderExamples.

(** ** Dependency resolution *)

Section Resolve.

Import ModuleLoader LoaderSpec.

Lemma precedes_app_r y x l l' : precedes y x l -> precedes y x (l ++ l').
Proof.
  intros (l1 & l2 & -> & Hx & Hy). exists l1, (l2 ++ l').
  split; [by rewrite <- app_assoc|done].
Qed.

Lemma precedes_app_l y x l0 l : x ∉ l0 -> precedes y x l -> precedes y x (l0 ++ l).
Proof.
  intros Hl0 (l1 & l2 & -> & Hx & Hy). exists (l0 ++ l1), l2.
  split; [by rewrite <- app_assoc|]. split.
  - intros [?|?]%elem_of_app; done.
  - apply elem_of_app. by right.
Qed.

(** The step of the loop for one dependency, given what the recursive
    call does. *)
Lemma resolve_dep_ok rec mods acyc :
  (acyc -> forall x, ~ tc (depends_on mods) x x) ->
  (forall x V (w : world loader) out V' w',
     modules (st w) = mods ->
     rec x (Some V) w = Some (Ret (out, V'), w') ->
     st w' = st w /\ call_ok mods acyc x V out V') ->
  forall d res V1 (w : world loader) res' V2 w',
    modules (st w) = mods ->
    settled mods V1 res ->
    resolve_dep rec d (res, V1) w = Some (Ret (res', V2), w') ->
    st w' = st w /\ loop_ok mods acyc [d] res V1 res' V2.
Proof.
  intros Hacyc Hrec d res V1 w res' V2 w' Hmods Hres.
  unfold resolve_dep, bind at 1. cbn [fst snd].
  assert (Hfinish : forall out Vm (w1 : world loader),
    st w1 = st w -> V1 ⊆ Vm -> d ∈ Vm \/ mods !! d = None ->
    settled mods Vm out ->
    (forall y, y ∈ out -> tc (depends_on mods) d y) ->
    (forall z, z ∈ Vm -> z ∉ V1 ->
       (z ∈ out \/ z = d)
       /\ exists m, mods !! z = Some m
            /\ (forall d', d' ∈ deps m -> d' ∈ out)
            /\ (acyc -> forall d', d' ∈ deps m -> z ∈ out -> precedes d' z (res ++ out))) ->
    (if bool_decide (d ∈ res ++ out) then ret (res ++ out, Vm)
     else ret ((res ++ out) ++ [d], Vm)) w1 = Some (Ret (res', V2), w') ->
    st w' = st w /\ loop_ok mods acyc [d] res V1 res' V2).
  { intros out Vm w1 Hst HV Hd Hout Hreach Hnew Hpush.
    assert (Hnotres : forall z, z ∈ Vm -> z ∉ V1 -> z ∉ res).
    { intros z Hz1 Hz2 Hz3. destruct (Hnew z Hz1 Hz2) as (_ & m & Hm & _).
      destruct (Hres z Hz3) as [?|E]; [done|]. by rewrite E in Hm. }
    destruct (bool_decide (d ∈ res ++ out)) eqn:Hin;
      injection Hpush as <- <- <-; (split; [done|]).
    - apply bool_decide_eq_true_1 in Hin.
      exists out. split; [done|]. split; [done|]. split; [done|].
      split; [by intros ? ->%list_elem_of_singleton|].
      split.
      { intros y Hy. right. exists d. split; [by apply list_elem_of_singleton|auto]. }
      intros z Hz1 Hz2. destruct (Hnew z Hz1 Hz2) as (Hz & m & Hm & Hdeps & Hord).
      assert (Hzout : z ∈ out).
      { destruct Hz as [?| ->]; [done|].
        apply elem_of_app in Hin as [Hin|Hin]; [|done]. by apply Hnotres in Hin. }
      split; [done|]. exists m. split; [done|]. split; [done|]. auto.
    - apply bool_decide_eq_false_1 in Hin.
      exists (out ++ [d]). split; [by rewrite app_assoc|]. split; [done|].
      split.
      { intros y [Hy| ->%list_elem_of_singleton]%elem_of_app; [by apply Hout|done]. }
      split.
      { intros ? ->%list_elem_of_singleton. apply elem_of_app. right.
        by apply list_elem_of_singleton. }
      split.
      { intros y [Hy| ->%list_elem_of_singleton]%elem_of_app.
        - right. exists d. split; [by apply list_elem_of_singleton|auto].
        - left. by apply list_elem_of_singleton. }
      intros z Hz1 Hz2. destruct (Hnew z Hz1 Hz2) as (Hz & m & Hm & Hdeps & Hord).
      split.
      { apply elem_of_app. destruct Hz as [?| ->]; [by left|right].
        by apply list_elem_of_singleton. }
      exists m. split; [done|].
      split; [intros; apply elem_of_app; left; auto|].
      intros Ha d' Hd'. destruct Hz as [Hz| ->].
      + apply precedes_app_r. auto.
      + exists (res ++ out), []. split; [done|]. split; [done|].
        apply elem_of_app. right. auto. }
  destruct (bool_decide (d ∈ V1)) eqn:HdV.
  - apply bool_decide_eq_true_1 in HdV. unfold ret at 1.
    intros H. apply (Hfinish [] V1 w); rewrite ?app_nil_r; try done.
    + by left.
    + by intros ? ?%elem_of_nil.
    + by intros ? ?%elem_of_nil.
  - apply bool_decide_eq_false_1 in HdV. unfold bind at 1.
    destruct (rec d (Some V1) w) as [[[[out Vm]|e] w1]|] eqn:Hcall; try done.
    destruct (Hrec _ _ _ _ _ _ Hmods Hcall) as [Hst Hok]. unfold ret at 1. cbn [fst snd].
    intros H. apply (Hfinish out Vm w1); try done.
    + destruct Hok as [(_ & _ & ->)|(_ & m & _ & added & _ & HV & _)]; [done|set_solver].
    + destruct Hok as [([?|?] & _ & ->)|(_ & m & _ & added & _ & HV & _)];
        [done|by right|left; set_solver].
    + destruct Hok as [(_ & -> & _)|(_ & m & _ & added & -> & _ & Hs & _)];
        [by intros ? ?%elem_of_nil|done].
    + destruct Hok as [(_ & -> & _)|(_ & m & Hm & added & -> & _ & _ & _ & Hr & _)];
        [by intros ? ?%elem_of_nil|].
      intros y Hy. destruct (Hr y Hy) as [Hd|(d' & Hd' & Htc)].
      * apply tc_once. by exists m.
      * eapply tc_l; [|exact Htc]. by exists m.
    + intros z Hz1 Hz2.
      destruct Hok as [(_ & _ & ->)|(_ & m & Hm & added & -> & _ & _ & Hall & Hr & Hnew)];
        [done|].
      destruct (decide (z = d)) as [->|Hzd].
      * split; [by right|]. exists m. split; [done|]. split; [exact Hall|].
        intros Ha d' Hd' Hz. exfalso. apply (Hacyc Ha d).
        destruct (Hr d Hz) as [Hd|(d'' & Hd'' & Htc)].
        -- apply tc_once. by exists m.
        -- eapply tc_l; [|exact Htc]. by exists m.
      * destruct (Hnew z Hz1) as (Hz & mz & Hmz & Hdeps & Hord); [set_solver|].
        split; [by left|]. exists mz. split; [done|]. split; [done|].
        intros Ha d' Hd' _. apply precedes_app_l; [|by apply Hord].
        intros Hzres. destruct (Hres z Hzres) as [?|E]; [done|]. by rewrite E in Hmz.
Qed.

Lemma loop_ok_nil mods acyc res V : loop_ok mods acyc [] res V res V.
Proof.
  exists []. split; [by rewrite app_nil_r|]. split; [done|].
  split; [by intros ? ?%elem_of_nil|]. split; [by intros ? ?%elem_of_nil|].
  split; [by intros ? ?%elem_of_nil|]. done.
Qed.

Lemma loop_ok_cons mods acyc d ds res V1 res1 Vm res' V2 :
  loop_ok mods acyc [d] res V1 res1 Vm ->
  loop_ok mods acyc ds res1 Vm res' V2 ->
  loop_ok mods acyc (d :: ds) res V1 res' V2.
Proof.
  intros (a1 & -> & HV1 & Hs1 & Hd1 & Hr1 & Hn1) (a2 & -> & HV2 & Hs2 & Hd2 & Hr2 & Hn2).
  exists (a1 ++ a2). split; [by rewrite app_assoc|]. split; [set_solver|].
  split.
  { intros y [Hy|Hy]%elem_of_app; [|by apply Hs2].
    destruct (Hs1 y Hy) as [?|?]; [left; set_solver|by right]. }
  split.
  { intros d' [->|Hd']%elem_of_cons; [|by apply Hd2].
    apply elem_of_app. left. apply Hd1. by apply list_elem_of_singleton. }
  split.
  { intros y [Hy|Hy]%elem_of_app.
    - destruct (Hr1 y Hy) as [->%list_elem_of_singleton|(d' & ->%list_elem_of_singleton & Htc)].
      + left. by left.
      + right. exists d. split; [by left|done].
    - destruct (Hr2 y Hy) as [?|(d' & ? & Htc)].
      + left. by right.
      + right. exists d'. split; [by right|done]. }
  intros z Hz1 Hz2. destruct (decide (z ∈ Vm)) as [Hzm|Hzm].
  - destruct (Hn1 z Hzm Hz2) as (Hz & m & Hm & Hdeps & Hord).
    split; [apply elem_of_app; by left|]. exists m. split; [done|].
    split; [intros; apply elem_of_app; left; auto|].
    intros Ha d' Hd'. apply precedes_app_r. auto.
  - destruct (Hn2 z Hz1 Hzm) as (Hz & m & Hm & Hdeps & Hord).
    split; [apply elem_of_app; by right|]. exists m. split; [done|].
    split; [intros; apply elem_of_app; right; auto|]. done.
Qed.

Lemma settled_app mods V V' l l' :
  V ⊆ V' -> settled mods V l -> settled mods V' l' -> settled mods V' (l ++ l').
Proof.
  intros HV Hl Hl' y [Hy|Hy]%elem_of_app; [|by apply Hl'].
  destruct (Hl y Hy) as [?|?]; [left; set_solver|by right].
Qed.

(** The whole loop, given what the recursive call does. *)
Lemma resolve_deps_ok rec mods acyc :
  (acyc -> forall x, ~ tc (depends_on mods) x x) ->
  (forall x V (w : world loader) out V' w',
     modules (st w) = mods ->
     rec x (Some V) w = Some (Ret (out, V'), w') ->
     st w' = st w /\ call_ok mods acyc x V out V') ->
  forall ds res V1 (w : world loader) res' V2 w',
    modules (st w) = mods ->
    settled mods V1 res ->
    forEach (resolve_dep rec) ds (res, V1) w = Some (Ret (res', V2), w') ->
    st w' = st w /\ loop_ok mods acyc ds res V1 res' V2.
Proof.
  intros Hacyc Hrec. induction ds as [|d ds IH]; intros res V1 w res' V2 w' Hmods Hres.
  - cbn [forEach]. unfold ret. intros H; simplify_eq. split; [done|apply loop_ok_nil].
  - cbn [forEach]. unfold bind at 1.
    destruct (resolve_dep rec d (res, V1) w) as [[[[res1 Vm]|e] w1]|] eqn:Hstep; try done.
    destruct (resolve_dep_ok rec mods acyc Hacyc Hrec _ _ _ _ _ _ _ Hmods Hres Hstep)
      as [Hst1 Hok1].
    intros Hrest. apply IH in Hrest as [Hst2 Hok2].
    + split; [congruence|]. eapply loop_ok_cons; eauto.
    + by rewrite Hst1.
    + destruct Hok1 as (a1 & -> & HV1 & Hs1 & _). by eapply settled_app.
Qed.

Lemma resolveDependencies_S fuel x V (w : world loader) :
  resolveDependencies (S fuel) x (Some V) w =
    if bool_decide (x ∈ V) then
      Some (Ret ([], V),
            World (st w) (console w ++ [Log LWarn "检测到循环依赖：" [VStr x]]) (trace w))
    else
      match modules (st w) !! x with
      | None =>
          Some (Ret ([], V),
                World (st w) (console w ++ [Log LWarn "模块不存在：" [VStr x]]) (trace w))
      | Some m =>
          forEach (resolve_dep (resolveDependencies fuel)) (deps m) ([], {[x]} ∪ V) w
      end.
Proof.
  cbn [resolveDependencies]. change (default ∅ (Some V)) with V.
  destruct (bool_decide (x ∈ V)); [done|].
  unfold bind at 1, get_st. cbn [st]. by destruct (modules (st w) !! x).
Qed.

(** What a call of [resolveDependencies] does. *)
Lemma resolveDependencies_ok mods acyc fuel x V (w : world loader) out V' w' :
  (acyc -> forall x, ~ tc (depends_on mods) x x) ->
  modules (st w) = mods ->
  resolveDependencies fuel x (Some V) w = Some (Ret (out, V'), w') ->
  st w' = st w /\ call_ok mods acyc x V out V'.
Proof.
  intros Hacyc. revert x V w out V' w'.
  induction fuel as [|fuel IH]; intros x V w out V' w' Hmods; [done|].
  rewrite resolveDependencies_S. destruct (bool_decide (x ∈ V)) eqn:HxV.
  - apply bool_decide_eq_true_1 in HxV. intros H; simplify_eq.
    split; [done|]. left. auto.
  - apply bool_decide_eq_false_1 in HxV.
    rewrite Hmods. destruct (mods !! x) as [m|] eqn:Hm.
    + intros Hloop. apply (resolve_deps_ok _ mods acyc) in Hloop as [Hst Hok].
      * split; [done|]. right. split; [done|]. by exists m.
      * done.
      * exact IH.
      * done.
      * by intros ? ?%elem_of_nil.
    + intros H; simplify_eq. split; [done|]. left. auto.
Qed.

(** The loop returns when the recursive call does. *)
Lemma resolve_deps_returns rec mods bound :
  (forall x V (w : world loader),
     modules (st w) = mods -> (size (dom mods ∖ V) < bound)%nat ->
     exists out V' w', rec x (Some V) w = Some (Ret (out, V'), w')
                       /\ st w' = st w /\ V ⊆ V') ->
  forall ds res V1 (w : world loader),
    modules (st w) = mods -> (size (dom mods ∖ V1) < bound)%nat ->
    exists res' V2 w',
      forEach (resolve_dep rec) ds (res, V1) w = Some (Ret (res', V2), w')
      /\ st w' = st w /\ V1 ⊆ V2.
Proof.
  intros Hrec. induction ds as [|d ds IH]; intros res V1 w Hmods Hsize.
  - by eexists _, _, _.
  - assert (Hstep : exists res1 Vm w1,
      resolve_dep rec d (res, V1) w = Some (Ret (res1, Vm), w1)
      /\ st w1 = st w /\ V1 ⊆ Vm).
    { unfold resolve_dep, bind at 1. cbn [fst snd].
      destruct (bool_decide (d ∈ V1)).
      - unfold ret at 1. cbn [fst snd].
        destruct (bool_decide (d ∈ res)); eexists _, _, _; (split; [reflexivity|done]).
      - unfold bind at 1.
        destruct (Hrec d V1 w Hmods Hsize) as (out & Vm & w1 & -> & Hst & HV).
        unfold ret at 1. cbn [fst snd].
        destruct (bool_decide (d ∈ res ++ out)); eexists _, _, _;
          (split; [reflexivity|done]). }
    destruct Hstep as (res1 & Vm & w1 & Hstep & Hst1 & HV1).
    destruct (IH res1 Vm w1) as (res' & V2 & w' & Hrest & Hst2 & HV2).
    + by rewrite Hst1.
    + eapply Nat.le_lt_trans; [|exact Hsize]. apply subseteq_size. set_solver.
    + exists res', V2, w'. cbn [forEach]. unfold bind at 1. rewrite Hstep.
      split; [done|]. split; [congruence|set_solver].
Qed.

(** [resolveDependencies] returns, also on a cyclic graph: a number of
    recursive calls above the number of registered modules not yet visited
    is enough. *)
Lemma resolveDependencies_returns fuel x V (w : world loader) :
  (size (dom (modules (st w)) ∖ V) < fuel)%nat ->
  exists out V' w',
    resolveDependencies fuel x (Some V) w = Some (Ret (out, V'), w')
    /\ st w' = st w /\ V ⊆ V'.
Proof.
  revert x V w. induction fuel as [|fuel IH]; intros x V w Hfuel; [lia|].
  rewrite resolveDependencies_S. destruct (bool_decide (x ∈ V)) eqn:HxV.
  { by eexists _, _, _. }
  apply bool_decide_eq_false_1 in HxV.
  destruct (modules (st w) !! x) as [m|] eqn:Hm; [|by eexists _, _, _].
  assert (Hlt : (size (dom (modules (st w)) ∖ ({[x]} ∪ V)) < fuel)%nat).
  { assert (dom (modules (st w)) ∖ ({[x]} ∪ V) ⊂ dom (modules (st w)) ∖ V).
    { assert (x ∈ dom (modules (st w))) by (apply elem_of_dom; eauto). set_solver. }
    apply subset_size in H. lia. }
  destruct (resolve_deps_returns (resolveDependencies fuel) (modules (st w)) fuel)
    with (ds := deps m) (res := @nil string) (V1 := {[x]} ∪ V) (w := w)
    as (res' & V2 & w' & Hloop & Hst & HV); [|done|done|].
  { intros y V0 w0 Hmods Hsize. apply IH. by rewrite Hmods. }
  exists res', V2, w'. split; [done|]. split; [done|set_solver].
Qed.

(** A call on a name that is not in [visited], as every call the module
    itself makes is, writes only warnings of missing modules: the warning
    of a cycle is out of its reach. *)
Lemma resolveDependencies_warnings fuel x V (w : world loader) r w' :
  x ∉ V ->
  resolveDependencies fuel x (Some V) w = Some (r, w') ->
  exists logs,
    console w' = console w ++ logs
    /\ Forall (fun l => log_text l = "模块不存在：") logs.
Proof.
  revert x V w r w'. induction fuel as [|fuel IH]; intros x V w r w' HxV; [done|].
  rewrite resolveDependencies_S. rewrite bool_decide_eq_false_2 by done.
  destruct (modules (st w) !! x) as [m|].
  2:{ intros [= <- <-]. eexists. split; [done|]. by repeat constructor. }
  generalize (@nil string, {[x]} ∪ V). generalize (deps m). clear HxV m.
  intros ds. revert w r w'. induction ds as [|d ds IHds]; intros w r w' acc.
  - cbn [forEach]. unfold ret. intros [= <- <-].
    exists []. split; [by rewrite app_nil_r|constructor].
  - cbn [forEach]. unfold bind at 1.
    destruct (resolve_dep _ d acc w) as [[o1 w1]|] eqn:Hstep; [|done].
    assert (Hlogs1 : exists logs, console w1 = console w ++ logs
              /\ Forall (fun l => log_text l = "模块不存在：") logs).
    { revert Hstep. unfold resolve_dep, bind at 1.
      destruct (bool_decide (d ∈ acc.2)) eqn:Hd.
      - unfold ret. destruct (bool_decide (d ∈ acc.1)); intros [= <- <-];
          (exists []; split; [by rewrite app_nil_r|constructor]).
      - apply bool_decide_eq_false_1 in Hd. unfold bind at 1.
        destruct (resolveDependencies fuel d (Some acc.2) w) as [[o2 w2]|] eqn:Hcall;
          [|done].
        destruct (IH _ _ _ _ _ Hd Hcall) as (logs & Hc & Hall).
        destruct o2 as [a|e]; [|intros [= <- <-]; eauto].
        unfold ret. cbn [fst snd].
        destruct (bool_decide (d ∈ acc.1 ++ a.1)); intros [= <- <-]; eauto. }
    destruct Hlogs1 as (logs1 & Hc1 & Hall1).
    destruct o1 as [acc1|e].
    + intros Hrest. destruct (IHds _ _ _ _ Hrest) as (logs2 & Hc2 & Hall2).
      exists (logs1 ++ logs2). split; [by rewrite Hc2, Hc1, app_assoc|by apply Forall_app].
    + intros [= <- <-]. eauto.
Qed.

Lemma resolveDependencies_no_cycle_warning fuel x (w : world loader) r w' :
  resolveDependencies fuel x None w = Some (r, w') ->
  exists logs,
    console w' = console w ++ logs
    /\ Forall (fun l => log_text l = "模块不存在：") logs.
Proof.
  replace (resolveDependencies fuel x None w)
    with (resolveDependencies fuel x (Some ∅) w) by by destruct fuel.
  apply resolveDependencies_warnings, not_elem_of_empty.
Qed.

Lemma ranked_acyclic rank mods : dep_ranked rank mods -> acyclic mods.
Proof.
  intros Hr.
  assert (Hlt : forall x y, tc (depends_on mods) x y -> (rank y < rank x)%nat).
  { induction 1 as [x y (m & Hm & Hd)|x y z (m & Hm & Hd) _ IH].
    - specialize (Hr x m Hm). simpl in Hr. rewrite Forall_forall in Hr. auto.
    - specialize (Hr x m Hm). simpl in Hr. rewrite Forall_forall in Hr.
      specialize (Hr y Hd). lia. }
  intros x Hx. apply Hlt in Hx. lia.
Qed.

(** More fuel does not change a result. *)
Lemma forEach_some_ext {S A B} (f g : B -> A -> M S A) l :
  (forall x a w r, f x a w = Some r -> g x a w = Some r) ->
  forall a w r, forEach f l a w = Some r -> forEach g l a w = Some r.
Proof.
  intros Hfg. induction l as [|x l IH]; intros a w r; [done|].
  cbn [forEach]. unfold bind.
  destruct (f x a w) as [[o w1]|] eqn:Hf; [|done].
  rewrite (Hfg _ _ _ _ Hf). destruct o; [apply IH|done].
Qed.

Lemma resolveDependencies_fuel fuel fuel' x V (w : world loader) r :
  (fuel <= fuel')%nat ->
  resolveDependencies fuel x V w = Some r ->
  resolveDependencies fuel' x V w = Some r.
Proof.
  revert fuel' x V w r. induction fuel as [|fuel IH]; intros fuel' x V w r Hle; [done|].
  destruct fuel' as [|fuel']; [lia|].
  cbn [resolveDependencies]. destruct (bool_decide _); [done|].
  unfold bind, get_st. cbn [st].
  destruct (modules (st w) !! x) as [m|]; [|done].
  apply forEach_some_ext. intros d acc w0 r0.
  unfold resolve_dep, bind.
  destruct (bool_decide (d ∈ acc.2)); [done|].
  destruct (resolveDependencies fuel d (Some acc.2) w0) as [[o w1]|] eqn:Hcall; [|done].
  by rewrite (IH fuel' _ _ _ _ ltac:(lia) Hcall).
Qed.

End Resolve.

Section ResolveClaims.

Import ModuleLoader LoaderSpec.

(** C3 (amended). In a registry whose dependency graph is acyclic, for
    every registered name [n], [resolveDependencies(n)] returns (more
    levels of calls than there are modules are enough), leaves the registry
    as it is, and its list holds exactly the transitive dependencies of
    [n]; every listed name has all its own dependencies listed before its
    first occurrence. *)
Theorem resolveDependencies_lists_closure (w : world loader) n fuel :
  acyclic (modules (st w)) ->
  is_Some (modules (st w) !! n) ->
  (size (modules (st w)) < fuel)%nat ->
  exists out V w',
    resolveDependencies fuel n None w = Some (Ret (out, V), w')
    /\ st w' = st w
    /\ (forall y, y ∈ out <-> tc (depends_on (modules (st w))) n y)
    /\ (forall x y, x ∈ out -> depends_on (modules (st w)) x y -> precedes y x out).
Proof.
  intros Hacyc [m Hm] Hfuel.
  assert (Hnone : resolveDependencies fuel n None w = resolveDependencies fuel n (Some ∅) w)
    by by destruct fuel.
  destruct (resolveDependencies_returns fuel n ∅ w) as (out & V & w' & Hrun & Hst & _).
  { rewrite difference_empty_L, size_dom. exact Hfuel. }
  exists out, V, w'. rewrite Hnone. split; [done|]. split; [done|].
  destruct (resolveDependencies_ok (modules (st w)) True fuel n ∅ w out V w')
    as [_ [([Hn|Hn] & _)|(_ & m' & Hm' & added & Hadd & HV & Hs & Hall & Hreach & Hnew)]];
    [done|done|done|set_solver|congruence|].
  rewrite Hm in Hm'. injection Hm' as <-. simpl in Hadd. subst added.
  assert (Hclosed : forall x y, depends_on (modules (st w)) x y ->
                     x = n \/ x ∈ out -> y ∈ out).
  { intros x y (mx & Hmx & Hy) Hx.
    destruct (decide (x = n)) as [->|Hxn].
    - rewrite Hm in Hmx. injection Hmx as <-. by apply Hall.
    - destruct Hx as [?|Hx]; [done|].
      destruct (Hs x Hx) as [HxV|E]; [|by rewrite E in Hmx].
      destruct (Hnew x HxV) as (_ & mx' & Hmx' & Hdeps & _); [set_solver|].
      rewrite Hmx in Hmx'. injection Hmx' as <-. by apply Hdeps. }
  split.
  - intros y. split.
    + intros Hy. destruct (Hreach y Hy) as [Hd|(d & Hd & Htc)].
      * apply tc_once. by exists m.
      * eapply tc_l; [|exact Htc]. by exists m.
    + intros Htc.
      assert (Hall' : forall x y, tc (depends_on (modules (st w))) x y ->
                       x = n \/ x ∈ out -> y ∈ out).
      { clear -Hclosed. induction 1 as [x y Hxy|x y z Hxy _ IH]; intros Hx; eauto. }
      eapply Hall'; [exact Htc|by left].
  - intros x y Hx (mx & Hmx & Hy).
    assert (Hxn : x <> n).
    { intros ->. apply (Hacyc n). destruct (Hreach n Hx) as [Hd|(d & Hd & Htc)].
      - apply tc_once. by exists m.
      - eapply tc_l; [|exact Htc]. by exists m. }
    destruct (Hs x Hx) as [HxV|E]; [|by rewrite E in Hmx].
    destruct (Hnew x HxV) as (_ & mx' & Hmx' & _ & Hord); [set_solver|].
    rewrite Hmx in Hmx'. injection Hmx' as <-. by apply Hord.
Qed.

(** C5 (what the code does). With A registered on B and B on A,
    [resolveDependencies('A')] returns: three levels of calls are enough,
    and the result is the same with more.  It returns the list A, B and
    writes nothing to the console: no warning is produced. *)
Theorem cyclic_resolution_returns_without_warning fuel :
  observe
    ((cyclic_modules ;;;
      let* r := resolveDependencies (3 + fuel) "A" None in
      ret r.1) (World initial [] []))
  = Some (Ret ["A"; "B"], [], []).
Proof.
  unfold cyclic_modules.
  unfold bind at 1 2. rewrite register_spec by (vm_compute; discriminate).
  rewrite register_spec by (vm_compute; discriminate).
  cbn [st console trace]. unfold bind.
  match goal with |- context [resolveDependencies _ _ _ ?w0] => set (w := w0) end.
  assert (H3 : exists V, resolveDependencies 3 "A" None w = Some (Ret (["A"; "B"], V), w)).
  { eexists. vm_compute. reflexivity. }
  destruct H3 as [V H3].
  by rewrite (resolveDependencies_fuel 3 (3 + fuel) _ _ _ _ ltac:(lia) H3).
Qed.

(** C3 (as stated) fails twice.  For the registrations of the repository
    the list returned for [app] names [storage] four times and
    [state-manager] twice.  For two modules that depend on each other the
    list returned for A is A, B: A depends on B and is listed before it. *)
Lemma resolveDependencies_closure_counterexample :
  let out := ["storage"; "storage"; "student-manager"; "storage"; "task-manager";
              "storage"; "state-manager"; "state-manager"; "ui-components";
              "event-bus"] in
  observe ((let* r := resolveDependencies 8 "app" None in ret r.1) repository)
    = Some (Ret out, [], [])
  /\ ~ NoDup out
  /\ observe ((cyclic_modules ;;;
               let* s := get_st in
               let* r := resolveDependencies 3 "A" None in
               ret (deps <$> modules s !! "A", r.1)) (World initial [] []))
      = Some (Ret (Some ["B"], ["A"; "B"]), [], [])
  /\ ~ precedes "B" "A" ["A"; "B"].
Proof.
  intros out. split; [vm_compute; reflexivity|]. split.
  { intros Hnd. apply NoDup_cons in Hnd as [Hnd _]. apply Hnd. by left. }
  split; [vm_compute; reflexivity|].
  intros (l1 & l2 & Heq & HA & HB). destruct l1 as [|a l1].
  - by apply elem_of_nil in HB.
  - simpl in Heq. injection Heq as <- _. apply HA. by left.
Qed.

Lemma resolveDependencies_lists_closure_witness :
  let mods := modules (st repository) in
  exists out V w',
    resolveDependencies 8 "app" None repository = Some (Ret (out, V), w')
    /\ st w' = st repository
    /\ (forall y, y ∈ out <-> tc (depends_on mods) "app" y)
    /\ (forall x y, x ∈ out -> depends_on mods x y -> precedes y x out).
Proof.
  apply (resolveDependencies_lists_closure repository "app" 8).
  - apply (ranked_acyclic repository_rank).
    apply (bool_decide_unpack _). vm_compute. reflexivity.
  - apply (bool_decide_unpack _). vm_compute. reflexivity.
  - apply (bool_decide_unpack _). vm_compute. reflexivity.
Defined.

End ResolveClaims.

(** ** Objects and JSON *)

Section Objects.

Lemma alist_get_set_eq {V} k (v : V) m : alist_get k (alist_set k v m) = Some v.
Proof.
  induction m as [|[k' v'] m IH]; simpl.
  - by rewrite String.eqb_refl.
  - destruct (String.eqb k k') eqn:E; simpl; rewrite ?String.eqb_refl, ?E; done.
Qed.


Lemma alist_set_new {V} k (v : V) m :
  k ∉ map fst m -> alist_set k v m = m ++ [(k, v)].
Proof.
  induction m as [|[k' v'] m IH]; simpl; intros Hk; [done|].
  apply not_elem_of_cons in Hk as [Hne Hk].
  apply String.eqb_neq in Hne as ->. by rewrite IH.
Qed.

Lemma alist_set_middle {V} k (v d : V) m1 m2 :
  k ∉ map fst m1 -> alist_set k v (m1 ++ (k, d) :: m2) = m1 ++ (k, v) :: m2.
Proof.
  induction m1 as [|[k' v'] m1 IH]; simpl; intros Hk.
  - by rewrite String.eqb_refl.
  - apply not_elem_of_cons in Hk as [Hne Hk].
    apply String.eqb_neq in Hne as ->. by rewrite IH.
Qed.

Lemma alist_set_keys {V} k (v : V) m :
  map fst (alist_set k v m) = if bool_decide (k ∈ map fst m) then map fst m
                              else map fst m ++ [k].
Proof.
  destruct (bool_decide (k ∈ map fst m)) eqn:E.
  - apply bool_decide_eq_true_1 in E.
    induction m as [|[k' v'] m IH]; simpl in *; [by apply elem_of_nil in E|].
    destruct (String.eqb k k') eqn:Ek; simpl.
    + by apply String.eqb_eq in Ek as ->.
    + f_equal. apply IH. apply elem_of_cons in E as [->|E]; [|done].
      by rewrite String.eqb_refl in Ek.
  - apply bool_decide_eq_false_1 in E. rewrite alist_set_new by done.
    by rewrite map_app.
Qed.

(** Writing an object onto a prefix of itself gives the object. *)
Lemma obj_assign_onto_prefix (o2 o1 t : obj) :
  NoDup (map fst (o1 ++ o2)) ->
  map fst t `prefix_of` map fst o2 ->
  obj_assign (o1 ++ t) o2 = o1 ++ o2.
Proof.
  unfold obj_assign. revert o1 t. induction o2 as [|[k v] o2 IH]; intros o1 t Hnd Hpre.
  - apply prefix_nil_inv in Hpre. destruct t; [|done]. done.
  - simpl. assert (Hk : k ∉ map fst o1).
    { rewrite map_app in Hnd. apply NoDup_app in Hnd as (_ & Hnd & _).
      intros Hin. apply (Hnd k Hin). simpl. by left. }
    destruct t as [|[k' d] t].
    + rewrite app_nil_r, alist_set_new by done.
      rewrite <- (app_nil_r (o1 ++ [(k, v)])). rewrite IH.
      * by rewrite <- app_assoc.
      * by rewrite <- app_assoc.
      * apply prefix_nil.
    + simpl in Hpre. apply prefix_cons_inv_1 in Hpre as Hkk. subst k'.
      apply prefix_cons_inv_2 in Hpre.
      rewrite alist_set_middle by done.
      change (o1 ++ (k, v) :: t) with (o1 ++ [(k, v)] ++ t). rewrite app_assoc.
      rewrite IH; [by rewrite <- app_assoc| by rewrite <- app_assoc |done].
Qed.

Lemma obj_assign_copy (o : obj) : NoDup (map fst o) -> obj_assign [] o = o.
Proof.
  intros Hnd. apply (obj_assign_onto_prefix o [] []); [done|apply prefix_nil].
Qed.

Lemma obj_assign_keys_NoDup (t src : obj) :
  NoDup (map fst t) -> NoDup (map fst (obj_assign t src)).
Proof.
  unfold obj_assign. revert t. induction src as [|[k v] src IH]; intros t Hnd; [done|].
  simpl. apply IH. rewrite alist_set_keys. case_bool_decide; [done|].
  apply NoDup_app. split; [done|]. split; [|apply NoDup_singleton].
  intros x Hx ->%list_elem_of_singleton. done.
Qed.

Lemma obj_assign_keys_prefix (t src : obj) :
  map fst t `prefix_of` map fst (obj_assign t src).
Proof.
  unfold obj_assign. revert t. induction src as [|[k v] src IH]; intros t; [done|].
  simpl. etransitivity; [|apply IH]. rewrite alist_set_keys.
  case_bool_decide; [done|]. by apply prefix_app_r.
Qed.

End Objects.

Section Json.

Import StoreSpec.

Lemma json_round_trip v :
  serializable v = true -> exists j, to_json v = Some j /\ of_json j = v.
Proof.
  revert v. fix IH 1. intros [| |b|n| | |s|items|props|f]; simpl; intros Hs;
    try done; try (by eexists).
  - eexists. split; [done|]. simpl. f_equal.
    induction items as [|x items IHitems]; [done|].
    simpl in Hs. apply andb_true_iff in Hs as [Hx Hs].
    destruct (IH x Hx) as (j & -> & Hj). simpl. rewrite Hj. f_equal. by apply IHitems.
  - eexists. split; [done|]. simpl. f_equal.
    induction props as [|[k x] props IHprops]; [done|].
    simpl in Hs. apply andb_true_iff in Hs as [Hx Hs].
    destruct (IH x Hx) as (j & -> & Hj). simpl. rewrite Hj. f_equal. by apply IHprops.
Qed.

End Json.

(** ** The state manager *)

Section StoreFacts.

Import StateManager StoreSpec.

Context {P : Type} (storageService : StorageService P).
Context (call_result : list call -> nat -> list value -> outcome value).

Lemma default_state_copy : obj_assign [] DEFAULT_STATE = DEFAULT_STATE.
Proof. reflexivity. Qed.

Lemma state_wf_default : state_wf (obj_assign [] DEFAULT_STATE).
Proof.
  split; [|done]. apply (bool_decide_unpack _). vm_compute. reflexivity.
Qed.

Lemma state_wf_assign t src : state_wf t -> state_wf (obj_assign t src).
Proof.
  intros [Hnd Hpre]. split; [by apply obj_assign_keys_NoDup|].
  etransitivity; [exact Hpre|apply obj_assign_keys_prefix].
Qed.

Lemma state_wf_copy o : state_wf o -> obj_assign [] o = o.
Proof. intros [Hnd _]. by apply obj_assign_copy. Qed.

Lemma state_wf_loaded stored : state_wf (loaded stored).
Proof.
  unfold loaded. destruct (truthy stored && typeof_object stored);
    [apply state_wf_assign|]; apply state_wf_default.
Qed.

Lemma _loadFromStorage_spec (w : world (store P)) :
  _loadFromStorage storageService w =
    Some (Ret tt,
          World (mkStore (Some (loaded (storage_get storageService (storage (st w)) STATE_KEY)))
                         (_listeners (st w)) (storage (st w)))
                (console w) (trace w)).
Proof.
  unfold _loadFromStorage, try_catch, bind, get_st, loaded. cbn [st].
  by destruct (truthy _ && typeof_object _).
Qed.

Lemma ensure_loaded_spec (w : world (store P)) :
  ensure_loaded storageService w =
    Some (Ret tt,
          World (mkStore (Some (current storageService (st w)))
                         (_listeners (st w)) (storage (st w)))
                (console w) (trace w)).
Proof.
  unfold ensure_loaded, bind, get_st, current. cbn [st].
  destruct (_state (st w)) as [o|] eqn:E.
  - unfold ret. destruct w as [[? ? ?] ? ?]. simpl in *. by subst.
  - apply _loadFromStorage_spec.
Qed.

Lemma _saveToStorage_spec (w : world (store P)) o :
  _state (st w) = Some o ->
  _saveToStorage storageService w =
    Some (Ret tt,
          World (mkStore (Some o) (_listeners (st w))
                         (storage_set storageService (storage (st w)) STATE_KEY (VObj o)).2)
                (console w) (trace w)).
Proof.
  intros Ho. unfold _saveToStorage, bind, get_st. cbn [st]. by rewrite Ho.
Qed.

(** A group of callbacks is called through without a change of the
    variables, whatever the callbacks do. *)
Lemma notify_group_returns text args group (w : world (store P)) :
  exists w', forEach (notify_one call_result text args) group tt w = Some (Ret tt, w')
             /\ st w' = st w.
Proof.
  revert w. induction group as [|l group IH]; intros w; [by eexists|].
  cbn [forEach]. unfold bind at 1, notify_one at 1, try_catch, bind at 1, invoke.
  destruct (call_result (trace w) l.2 args).
  - unfold ret at 1. edestruct IH as (w' & -> & Hst). by eexists.
  - unfold log at 1. edestruct IH as (w' & -> & Hst). by eexists.
Qed.

Lemma notify_key_returns oldState key (w : world (store P)) o :
  _state (st w) = Some o ->
  exists w', notify_key call_result oldState key tt w = Some (Ret tt, w') /\ st w' = st w.
Proof.
  intros Ho. unfold notify_key, bind at 1, get_st. cbn [st].
  destruct (alist_get key (_listeners (st w))) as [group|]; [|by eexists].
  rewrite Ho. unfold bind at 1, ret at 1. apply notify_group_returns.
Qed.

Lemma _notifyListeners_returns updates oldState (w : world (store P)) o :
  _state (st w) = Some o ->
  exists w', _notifyListeners call_result updates oldState w = Some (Ret tt, w')
             /\ st w' = st w.
Proof.
  intros Ho. unfold _notifyListeners, bind at 1.
  assert (Hkeys : forall keys (w0 : world (store P)), st w0 = st w ->
    exists w1, forEach (notify_key call_result oldState) keys tt w0 = Some (Ret tt, w1)
               /\ st w1 = st w).
  { induction keys as [|k keys IH]; intros w0 Hw0; [by eexists|].
    cbn [forEach]. unfold bind at 1.
    destruct (notify_key_returns oldState k w0 o) as (w1 & -> & Hst1); [by rewrite Hw0|].
    apply IH. congruence. }
  destruct (Hkeys (map fst (own_props updates)) w eq_refl) as (w1 & -> & Hst1).
  unfold bind at 1, get_st. cbn [st].
  destruct (alist_get "*" (_listeners (st w1))) as [group|].
  - destruct (notify_group_returns "StateManagerModule wildcard listener error:"
                [state_value (st w1); VObj oldState] group w1) as (w2 & -> & Hst2).
    exists w2. split; [done|congruence].
  - by exists w1.
Qed.

(** [setState] up to the notification. *)
Lemma setState_unfold updates (w : world (store P)) :
  let old := obj_assign [] (current storageService (st w)) in
  let new := obj_assign old (own_props updates) in
  setState storageService call_result updates w =
    (_notifyListeners call_result updates old ;;; ret true)
      (World (mkStore (Some new) (_listeners (st w))
                      (storage_set storageService (storage (st w)) STATE_KEY (VObj new)).2)
             (console w) (trace w)).
Proof.
  intros old new. unfold setState. unfold bind at 1. rewrite ensure_loaded_spec.
  unfold bind at 1, get_st. cbn [st]. unfold bind at 1, put_st.
  cbn [st console trace state_value _state own_props _listeners storage].
  unfold bind at 1. erewrite _saveToStorage_spec by reflexivity. done.
Qed.

Lemma state_wf_current s : state_inv s -> state_wf (current storageService s).
Proof.
  intros Hs. unfold current. destruct (_state s) as [o|] eqn:E; [by apply Hs|].
  apply state_wf_loaded.
Qed.

(** The tail of [setState]: the notification leaves the variables. *)
Lemma notify_then_true updates oldState (w : world (store P)) o :
  _state (st w) = Some o ->
  exists w', (_notifyListeners call_result updates oldState ;;; ret true) w
               = Some (Ret true, w')
             /\ st w' = st w.
Proof.
  intros Ho. unfold bind.
  destruct (_notifyListeners_returns updates oldState w o Ho) as (w' & -> & Hst).
  by exists w'.
Qed.

(** The tail of [reset] and of a successful [importData]. *)
Lemma save_notify_all (w : world (store P)) o :
  _state (st w) = Some o ->
  exists w',
    (_saveToStorage storageService ;;;
     let* s := get_st in
     _notifyListeners call_result (state_value s) [] ;;;
     ret true) w = Some (Ret true, w')
    /\ _state (st w') = Some o
    /\ _listeners (st w') = _listeners (st w).
Proof.
  intros Ho. unfold bind at 1. rewrite (_saveToStorage_spec w o Ho).
  unfold bind at 1, get_st. cbn [st].
  edestruct (notify_then_true) as (w' & -> & Hst); [reflexivity|].
  exists w'. rewrite Hst. done.
Qed.

Lemma setState_spec updates (w : world (store P)) :
  exists w',
    setState storageService call_result updates w = Some (Ret true, w')
    /\ _state (st w')
         = Some (obj_assign (obj_assign [] (current storageService (st w)))
                            (own_props updates))
    /\ _listeners (st w') = _listeners (st w).
Proof.
  rewrite setState_unfold. cbn zeta.
  edestruct notify_then_true as (w' & -> & Hst); [reflexivity|].
  exists w'. rewrite Hst. done.
Qed.

Lemma importData_spec jsonStr (w : world (store P)) :
  exists b w',
    importData storageService call_result jsonStr w = Some (Ret b, w')
    /\ ((b = false /\ st w' = st w)
        \/ (exists parsed, JSON_parse jsonStr = Ret parsed
              /\ truthy parsed && typeof_object parsed = true
              /\ b = true
              /\ _state (st w')
                   = Some (obj_assign (obj_assign [] DEFAULT_STATE) (own_props parsed))
              /\ _listeners (st w') = _listeners (st w))).
Proof.
  unfold importData, try_catch.
  destruct (JSON_parse jsonStr) as [parsed|e] eqn:Hparse.
  - destruct (truthy parsed && typeof_object parsed) eqn:Hok.
    + unfold bind at 1, get_st. cbn [st]. unfold bind at 1, put_st. cbn [st console trace].
      edestruct save_notify_all as (w' & -> & Hst & Hl); [reflexivity|].
      exists true, w'. split; [done|]. right. exists parsed. by rewrite Hst, Hl.
    + exists false, w. split; [done|]. by left.
  - eexists false, _. split; [reflexivity|]. by left.
Qed.

Lemma reset_spec (w : world (store P)) :
  exists w',
    reset storageService call_result w = Some (Ret true, w')
    /\ _state (st w') = Some (obj_assign [] DEFAULT_STATE)
    /\ _listeners (st w') = _listeners (st w).
Proof.
  unfold reset. unfold bind at 1, get_st. cbn [st]. unfold bind at 1, put_st.
  cbn [st console trace].
  edestruct save_notify_all as (w' & -> & Hst & Hl); [reflexivity|].
  exists w'. by rewrite Hst, Hl.
Qed.

Lemma step_state_inv o (w : world (store P)) r w' :
  state_inv (st w) ->
  step storageService call_result o w = Some (r, w') ->
  state_inv (st w').
Proof.
  intros Hinv.
  assert (Hcur := state_wf_current (st w) Hinv).
  assert (Hloaded : state_inv (mkStore (Some (current storageService (st w)))
                                       (_listeners (st w)) (storage (st w)))).
  { intros o' [= <-]. done. }
  destruct o as [| |key|updates|key v|fresh key cb|id| | |jsonStr]; cbn [step]; unfold bind at 1.
  - unfold init, bind at 1. rewrite _loadFromStorage_spec.
    intros [= <- <-]. intros o' [= <-]. apply state_wf_loaded.
  - unfold getState, bind at 1. rewrite ensure_loaded_spec.
    intros [= <- <-]. done.
  - unfold get, bind at 1. rewrite ensure_loaded_spec. unfold bind at 1, get_st.
    cbn [st _state].
    destruct key as [k|]; [destruct (negb (String.eqb k EmptyString))|];
      intros [= <- <-]; done.
  - destruct (setState_spec updates w) as (w1 & -> & Hst & _).
    intros [= <- <-]. intros o'. rewrite Hst. intros [= <-].
    apply state_wf_assign. by rewrite state_wf_copy.
  - unfold set. destruct (setState_spec (VObj [(key, v)]) w) as (w1 & -> & Hst & _).
    intros [= <- <-]. intros o'. rewrite Hst. intros [= <-].
    apply (state_wf_assign _ [(key, v)]). by rewrite state_wf_copy.
  - destruct cb; intros [= <- <-]; done.
  - unfold removeListener, bind at 1, get_st. cbn [st].
    destruct (removeListener_loop _ _ _); intros [= <- <-]; done.
  - destruct (reset_spec w) as (w1 & -> & Hst & _).
    intros [= <- <-]. intros o'. rewrite Hst. intros [= <-]. apply state_wf_default.
  - unfold exportData, bind at 1, get_st. cbn [st].
    destruct (JSON_stringify _); intros [= <- <-]; done.
  - destruct (importData_spec jsonStr w) as (b & w1 & -> & [[-> Hst]|(parsed & _ & _ & -> & Hst & _)]);
      intros [= <- <-].
    + by rewrite Hst.
    + intros o'. rewrite Hst. intros [= <-]. apply state_wf_assign, state_wf_default.
Qed.

Lemma run_state_inv ops (w : world (store P)) r w' :
  state_inv (st w) ->
  run storageService call_result ops w = Some (r, w') ->
  state_inv (st w').
Proof.
  unfold run. revert w. induction ops as [|o ops IH]; intros w Hinv.
  - by intros [= <- <-].
  - cbn [forEach]. unfold bind at 1.
    destruct (step storageService call_result o w) as [[[[]|e] w1]|] eqn:Hstep; try done.
    + apply IH. eapply step_state_inv; eauto.
    + intros [= <- <-]. eapply step_state_inv; eauto.
Qed.

End StoreFacts.

Section StoreClaims.

Import StateManager StoreSpec.

Context {P : Type} (storageService : StorageService P).
Context (call_result : list call -> nat -> list value -> outcome value).


Lemma getState_loaded (w : world (store P)) o :
  _state (st w) = Some o -> state_wf o ->
  getState storageService w = Some (Ret o, w).
Proof.
  intros Ho Hwf. unfold getState, bind at 1. rewrite ensure_loaded_spec.
  unfold bind, get_st, ret, current. cbn [st state_value _state]. rewrite Ho.
  cbn [own_props]. rewrite (state_wf_copy o Hwf).
  destruct w as [[? ? ?] ? ?]. simpl in *. by subst.
Qed.

Lemma addListener_spec fresh key f (w : world (store P)) :
  addListener fresh key (VFun f) w =
    Some (Ret (VStr fresh),
          World (mkStore (_state (st w))
                         (alist_set key
                            (alist_set fresh f (default [] (alist_get key (_listeners (st w)))))
                            (_listeners (st w)))
                         (storage (st w)))
                (console w) (trace w)).
Proof. done. Qed.




End StoreClaims.

Section StoreExamples.

Import StateManager StoreSpec.




End StoreExamples.

(** ** More of the event bus *)

Section BusOrder.

Import EventBus BusSpec.

Lemma sort_insert_descending x arr :
  descending arr -> descending (sort_insert by_priority x arr).
Proof.
  unfold descending. induction arr as [|y arr IH]; simpl; intros Hs.
  - repeat constructor.
  - apply StronglySorted_inv in Hs as [Hs Hy].
    destruct (0 <? by_priority x y) eqn:E.
    + constructor; [by apply IH|].
      apply Z.ltb_lt in E. unfold by_priority in E.
      rewrite (sort_insert_perm by_priority x arr). constructor; [lia|done].
    + apply Z.ltb_ge in E. unfold by_priority in E.
      constructor; [by constructor|].
      constructor; [lia|]. eapply Forall_impl; [exact Hy|]. simpl. intros; lia.
Qed.

Lemma Array_sort_descending arr : descending (Array_sort by_priority arr).
Proof.
  unfold Array_sort. induction arr as [|x arr IH]; simpl.
  - constructor.
  - by apply sort_insert_descending.
Qed.

Lemma without_descending c arr : descending arr -> descending (without c arr).
Proof.
  unfold descending, without. induction 1 as [|x arr Hs IH Hx]; simpl; [constructor|].
  destruct (negb (matches c x)); [|done].
  constructor; [done|].
  apply Forall_forall. intros y Hy. apply list_elem_of_In, filter_In in Hy as [Hy _].
  rewrite Forall_forall in Hx. by apply Hx, list_elem_of_In.
Qed.

(** Behind the leading entries of higher priority, all of which [c] names,
    [x] comes first of what [c] does not name. *)
Lemma without_sort_insert c x arr :
  matches c x = false ->
  (forall y, y ∈ without c arr -> priority y <= priority x) ->
  without c (sort_insert by_priority x arr) = x :: without c arr.
Proof.
  intros Hx. unfold without. induction arr as [|y arr IH]; simpl; intros Hle.
  - by rewrite Hx.
  - destruct (0 <? by_priority x y) eqn:E; simpl.
    + destruct (matches c y) eqn:Hy; simpl in *.
      * by apply IH.
      * apply Z.ltb_lt in E. unfold by_priority in E.
        specialize (Hle y ltac:(by left)). lia.
    + by rewrite Hx.
Qed.

(** Sorting a new entry into an array in descending order and taking it
    out again gives the array back. *)
Lemma without_sorted_push c arr l :
  descending arr ->
  matches c l = true ->
  Forall (fun x => matches c x = false) arr ->
  without c (Array_sort by_priority (arr ++ [l])) = arr.
Proof.
  intros Hs Hl Harr. unfold Array_sort. rewrite foldr_app. simpl.
  induction Hs as [|x arr Hs IH Hx]; simpl.
  - unfold without. simpl. by rewrite Hl.
  - apply Forall_cons in Harr as [Hcx Harr].
    rewrite without_sort_insert; [by rewrite IH|done|].
    rewrite IH by done. intros y Hy. rewrite Forall_forall in Hx.
    by apply (Hx y).
Qed.

Lemma without_none c arr :
  Forall (fun x => matches c x = false) arr -> without c arr = arr.
Proof.
  unfold without. induction 1 as [|x arr Hx _ IH]; simpl; [done|].
  by rewrite Hx, IH.
Qed.

Lemma store_back_lookup (m : gmap string (list listener)) k arr :
  default [] (store_back m (VStr k) arr !! k) = arr.
Proof.
  destruct arr; simpl; by rewrite ?lookup_delete_eq, ?lookup_insert_eq.
Qed.

Lemma store_back_lookup_ne (m : gmap string (list listener)) event arr k :
  event <> VStr k -> store_back m event arr !! k = m !! k.
Proof.
  intros Hne. destruct event; destruct arr; simpl; try done.
  - apply lookup_delete_ne. congruence.
  - apply lookup_insert_ne. congruence.
Qed.

(** Putting back the array that was there changes nothing. *)
Lemma store_back_same (m : gmap string (list listener)) event :
  arrays_ok m ->
  store_back m event (default [] (map_get m event)) = m.
Proof.
  intros Hok. destruct event; try done. simpl.
  destruct (m !! s) as [arr|] eqn:Hk; simpl.
  - destruct (Hok s arr Hk) as [Hne _]. destruct arr; [done|]. by apply insert_id.
  - by apply delete_id.
Qed.

Lemma arrays_ok_insert (m : gmap string (list listener)) k arr :
  arrays_ok m -> arr <> [] -> descending arr -> arrays_ok (<[k := arr]> m).
Proof. intros Hok Hne Hs. by apply map_Forall_insert_2. Qed.

Lemma arrays_ok_delete (m : gmap string (list listener)) event :
  arrays_ok m -> arrays_ok (map_delete m event).
Proof. intros Hok. destruct event; try done. by apply map_Forall_delete. Qed.

Lemma arrays_ok_store_back (m : gmap string (list listener)) event arr :
  arrays_ok m -> descending arr -> arrays_ok (store_back m event arr).
Proof.
  intros Hok Hs. destruct arr as [|x arr].
  - by apply arrays_ok_delete.
  - destruct event; try done. by apply arrays_ok_insert.
Qed.

Lemma arrays_ok_lookup (m : gmap string (list listener)) event :
  arrays_ok m -> descending (default [] (map_get m event)).
Proof.
  intros Hok. destruct event; try constructor. simpl.
  destruct (m !! s) as [arr|] eqn:Hk; simpl; [|constructor].
  by destruct (Hok s arr Hk).
Qed.

Lemma arrays_ok_subscribe (m : gmap string (list listener)) event l :
  arrays_ok m ->
  arrays_ok (<[event := Array_sort by_priority (default [] (m !! event) ++ [l])]> m).
Proof.
  intros Hok. apply arrays_ok_insert; [done| |apply Array_sort_descending].
  intros E. pose proof (Array_sort_perm by_priority (default [] (m !! event) ++ [l])) as Hp.
  rewrite E in Hp. apply Permutation_nil_l in Hp. by destruct (default [] (m !! event)).
Qed.

Lemma arrays_ok_off s event c :
  arrays_ok (listeners s) -> arrays_ok (onceListeners s) ->
  arrays_ok (listeners (off_state s event c))
  /\ arrays_ok (onceListeners (off_state s event c)).
Proof.
  intros H1 H2.
  assert (Hgen : c <> VUndefined ->
            arrays_ok (listeners (off_state s event c))
            /\ arrays_ok (onceListeners (off_state s event c))).
  { intros Hc. rewrite off_state_matching by done. simpl.
    split; apply arrays_ok_store_back; try done;
      by apply without_descending, arrays_ok_lookup. }
  destruct c; try (apply Hgen; discriminate).
  simpl. destruct (truthy event); simpl.
  - split; by apply arrays_ok_delete.
  - split; apply map_Forall_empty.
Qed.

Lemma arrays_ok_after_pass event pass s :
  arrays_ok (listeners s) -> arrays_ok (onceListeners s) ->
  arrays_ok (listeners (after_pass event s pass))
  /\ arrays_ok (onceListeners (after_pass event s pass)).
Proof.
  revert s. induction pass as [|l pass IH]; intros s H1 H2; [done|].
  rewrite after_pass_cons. destruct (isOnce l); [|by apply IH].
  destruct (arrays_ok_off s (VStr event) (VStr (id (entry l))) H1 H2). by apply IH.
Qed.

Context (call_result : list call -> nat -> list value -> outcome value).

Lemma step_arrays_ok o (w : world bus) r w' :
  step call_result o w = Some (r, w') ->
  arrays_ok (listeners (st w)) -> arrays_ok (onceListeners (st w)) ->
  arrays_ok (listeners (st w')) /\ arrays_ok (onceListeners (st w')).
Proof.
  intros Hstep H1 H2. destruct o as [event cb p|event cb p|event c|event data]; simpl in Hstep.
  - destruct (is_function cb) eqn:Hcb.
    + destruct cb; try discriminate. rewrite on_spec in Hstep.
      injection Hstep as <- <-. simpl. split; [|done]. by apply arrays_ok_subscribe.
    + rewrite on_reject in Hstep by done. by injection Hstep as <- <-.
  - destruct (is_function cb) eqn:Hcb.
    + destruct cb; try discriminate. rewrite once_spec in Hstep.
      injection Hstep as <- <-. simpl. split; [done|]. by apply arrays_ok_subscribe.
    + rewrite once_reject in Hstep by done. by injection Hstep as <- <-.
  - rewrite off_spec in Hstep. injection Hstep as <- <-. by apply arrays_ok_off.
  - unfold bind in Hstep. rewrite emit_spec in Hstep. unfold ret in Hstep.
    injection Hstep as <- <-. by apply arrays_ok_after_pass.
Qed.

(** Every program of calls keeps the bus well formed. *)
Lemma run_wf ops (w : world bus) :
  bus_wf (st w) ->
  exists rs w', run call_result ops w = Some (Ret rs, w') /\ bus_wf (st w').
Proof.
  revert w. induction ops as [|o ops IH]; intros w Hwf.
  - by exists [], w.
  - destruct Hwf as (Hinv & H1 & H2).
    destruct (step_spec call_result o w Hinv) as (r & w1 & Hstep & Hinv1 & _).
    destruct (step_arrays_ok o w _ _ Hstep H1 H2) as [H1' H2'].
    destruct (IH w1) as (rs & w' & Hrun & Hwf'); [done|].
    exists (r :: rs), w'. split; [|done].
    simpl. unfold bind at 1. rewrite Hstep. unfold bind. by rewrite Hrun.
Qed.

Lemma bus_wf_initial : bus_wf initial.
Proof. split; [apply bus_inv_initial|]. split; apply map_Forall_empty. Qed.

End BusOrder.

Section BusMore.

Import EventBus BusSpec.

Context (call_result : list call -> nat -> list value -> outcome value).

Lemma elem_of_flat (m : gmap string (list listener)) k l :
  l ∈ default [] (m !! k) -> l ∈ flat m.
Proof. intros Hl. rewrite (flat_lookup m k). apply elem_of_app. by left. Qed.

Lemma getListeners_spec event (w : world bus) :
  getListeners event w =
    Some (Ret (map (fun l => mkTagged l false false) (default [] (listeners (st w) !! event))
               ++ map (fun l => mkTagged l true false)
                      (default [] (onceListeners (st w) !! event))), w).
Proof. done. Qed.

(** X1. In every state a program of bus calls reaches from a new bus,
    [getListeners(event)] returns the array the bus holds for the event
    of the listeners registered with [on], followed by the array of those
    registered with [once], and each of the two arrays is in descending
    order of priority.  A listener that [on] (or [once]) then registers
    for the event is in the array that the next [getListeners(event)]
    shows, with the id the call returned, together with the listeners that
    were there, and the array is again in descending order. *)
Theorem getListeners_by_descending_priority ops c0 t0 event :
  exists rs w,
    run call_result ops (World initial c0 t0) = Some (Ret rs, w)
    /\ let arr1 := default [] (listeners (st w) !! event) in
       let arr2 := default [] (onceListeners (st w) !! event) in
       getListeners event w =
         Some (Ret (map (fun l => mkTagged l false false) arr1
                    ++ map (fun l => mkTagged l true false) arr2), w)
       /\ descending arr1
       /\ descending arr2
       /\ (forall f priority, exists id w1 arr1',
             on event (VFun f) priority w = Some (Ret (VStr id), w1)
             /\ getListeners event w1 =
                  Some (Ret (map (fun l => mkTagged l false false) arr1'
                             ++ map (fun l => mkTagged l true false) arr2), w1)
             /\ arr1' ≡ₚ mkListener id f (default 0 priority) :: arr1
             /\ descending arr1')
       /\ (forall f priority, exists id w1 arr2',
             once event (VFun f) priority w = Some (Ret (VStr id), w1)
             /\ getListeners event w1 =
                  Some (Ret (map (fun l => mkTagged l false false) arr1
                             ++ map (fun l => mkTagged l true false) arr2'), w1)
             /\ arr2' ≡ₚ mkListener id f (default 0 priority) :: arr2
             /\ descending arr2').
Proof.
  destruct (run_wf call_result ops (World initial c0 t0) bus_wf_initial)
    as (rs & w & Hrun & _ & H1 & H2).
  exists rs, w. split; [done|]. intros arr1 arr2.
  split; [apply getListeners_spec|].
  split; [apply (arrays_ok_lookup _ (VStr event) H1)|].
  split; [apply (arrays_ok_lookup _ (VStr event) H2)|].
  split; intros f priority; eexists _, _, _.
  - split; [apply on_spec|]. rewrite getListeners_spec. cbn [st listeners onceListeners].
    rewrite lookup_insert_eq. cbn [default]. split; [reflexivity|].
    split; [|apply Array_sort_descending].
    rewrite Array_sort_perm. cbn [id]. by rewrite <- Permutation_cons_append.
  - split; [apply once_spec|]. rewrite getListeners_spec. cbn [st listeners onceListeners].
    rewrite lookup_insert_eq. cbn [default]. split; [reflexivity|].
    split; [|apply Array_sort_descending].
    rewrite Array_sort_perm. cbn [id]. by rewrite <- Permutation_cons_append.
Qed.

(** X2. In every state a program of bus calls reaches, subscribing with
    [on] and unsubscribing with the id it returned restores the listeners:
    [off] returns [true], and both maps are as they were before [on]. *)
Theorem on_then_off_restores_listeners ops c0 t0 event f priority :
  exists rs w id w1 w2,
    run call_result ops (World initial c0 t0) = Some (Ret rs, w)
    /\ on event (VFun f) priority w = Some (Ret (VStr id), w1)
    /\ off (VStr event) (VStr id) w1 = Some (Ret (VBool true), w2)
    /\ listeners (st w2) = listeners (st w)
    /\ onceListeners (st w2) = onceListeners (st w).
Proof.
  destruct (run_wf call_result ops (World initial c0 t0) bus_wf_initial)
    as (rs & w & Hrun & (_ & Hissued) & H1 & H2).
  set (i := "listener_" +:+ pretty (N.succ (listenerIdCounter (st w)))).
  set (l := mkListener i f (default 0 priority)).
  set (arr := default [] (listeners (st w) !! event)).
  set (sorted := Array_sort by_priority (arr ++ [l])).
  assert (Hfresh : forall x, x ∈ entries (st w) -> matches (VStr i) x = false).
  { intros x Hx. rewrite Forall_forall in Hissued. specialize (Hissued x Hx).
    unfold matches. simpl. rewrite orb_false_r. apply String.eqb_neq.
    eapply (issued_disjoint 0 (listenerIdCounter (st w))
              (listenerIdCounter (st w)) (N.succ (listenerIdCounter (st w))));
      [lia|exact Hissued|].
    exists (N.succ (listenerIdCounter (st w))). split; [lia|by left]. }
  assert (Hl : matches (VStr i) l = true).
  { unfold matches. simpl. by rewrite String.eqb_refl. }
  assert (Harr : without (VStr i) sorted = arr).
  { apply without_sorted_push; [apply (arrays_ok_lookup _ (VStr event) H1)|done|].
    apply Forall_forall. intros x Hx. apply Hfresh. unfold entries.
    apply elem_of_app. left. by apply (elem_of_flat _ event). }
  assert (Honce : without (VStr i) (default [] (onceListeners (st w) !! event))
                  = default [] (onceListeners (st w) !! event)).
  { apply without_none, Forall_forall. intros x Hx. apply Hfresh. unfold entries.
    apply elem_of_app. right. by apply (elem_of_flat _ event). }
  set (s1 := mkBus (<[event := sorted]> (listeners (st w))) (onceListeners (st w))
                   (N.succ (listenerIdCounter (st w)))).
  set (s2 := mkBus (listeners (st w)) (onceListeners (st w))
                   (N.succ (listenerIdCounter (st w)))).
  assert (Hlk : default [] (listeners s1 !! event) = sorted).
  { unfold s1. cbn [listeners]. by rewrite lookup_insert_eq. }
  assert (Hres : off_result s1 (VStr event) (VStr i) = VBool true).
  { unfold off_result. cbn [map_get]. rewrite Hlk.
    replace (existsb (matches (VStr i)) sorted) with true; [done|].
    symmetry. apply existsb_exists. exists l. split; [|done].
    apply list_elem_of_In. unfold sorted. rewrite Array_sort_perm.
    apply elem_of_app. right. by left. }
  assert (Hst : off_state s1 (VStr event) (VStr i) = s2).
  { rewrite off_state_matching by done. cbn [map_get]. rewrite Hlk, Harr.
    unfold s1, s2. cbn [listeners onceListeners listenerIdCounter]. rewrite Honce.
    f_equal.
    - unfold arr. destruct (listeners (st w) !! event) as [a|] eqn:Hk.
      + destruct (H1 event a Hk) as [Hne _]. destruct a; [done|]. simpl.
        rewrite insert_insert_eq. by apply insert_id.
      + simpl. rewrite delete_insert_eq. by apply delete_id.
    - apply (store_back_same _ (VStr event) H2). }
  exists rs, w, i, (World s1 (console w) (trace w)), (World s2 (console w) (trace w)).
  split; [done|]. split; [apply on_spec|].
  rewrite off_spec. cbn [st console trace]. rewrite Hres, Hst. done.
Qed.

(** X3. [off(event, callback)] with a function takes every subscription of
    that function to [event] off the bus, from the listeners of [on] and
    of [once] alike, and nothing else: what [getListeners(event)] returns
    afterwards is what it returned before without the entries of that
    callback, the other events keep their arrays, and the result tells
    whether an entry was removed. *)
Theorem off_by_callback_removes_its_subscriptions event f (w : world bus) :
  let uses_f := fun t : tagged => Nat.eqb (callback (entry t)) f in
  exists ls w',
    getListeners event w = Some (Ret ls, w)
    /\ off (VStr event) (VFun f) w = Some (Ret (VBool (existsb uses_f ls)), w')
    /\ getListeners event w' = Some (Ret (List.filter (fun t => negb (uses_f t)) ls), w')
    /\ console w' = console w
    /\ trace w' = trace w
    /\ forall event', event' <> event ->
         listeners (st w') !! event' = listeners (st w) !! event'
         /\ onceListeners (st w') !! event' = onceListeners (st w) !! event'.
Proof.
  intros uses_f.
  eexists _, (World (off_state (st w) (VStr event) (VFun f)) (console w) (trace w)).
  split; [apply getListeners_spec|].
  rewrite off_spec. rewrite getListeners_spec. cbn [st console trace].
  rewrite off_state_matching by done.
  cbn [listeners onceListeners map_get off_result].
  rewrite !store_back_lookup.
  assert (Hm : forall l, matches (VFun f) l = Nat.eqb (callback l) f) by done.
  assert (Hex : forall (b1 b2 : bool) arr,
            existsb uses_f (map (fun l => mkTagged l b1 b2) arr)
            = existsb (matches (VFun f)) arr).
  { intros b1 b2 arr. induction arr as [|x arr IH]; simpl; [done|]. by rewrite IH. }
  assert (Hf : forall (b1 b2 : bool) arr,
            List.filter (fun t => negb (uses_f t)) (map (fun l => mkTagged l b1 b2) arr)
            = map (fun l => mkTagged l b1 b2) (without (VFun f) arr)).
  { intros b1 b2 arr. unfold without. induction arr as [|x arr IH]; simpl; [done|].
    unfold uses_f at 1. simpl. rewrite Hm. destruct (Nat.eqb (callback x) f); simpl; by rewrite IH. }
  split.
  { do 3 f_equal. by rewrite existsb_app, !Hex. }
  split.
  { do 3 f_equal. by rewrite List.filter_app, !Hf. }
  split; [done|]. split; [done|].
  intros event' Hne. split; apply store_back_lookup_ne; congruence.
Qed.

(** X4. On a bus whose listeners are registered for events that are
    strings, [off] with an event that is no string and a second argument
    other than [undefined] takes nothing off the bus and returns [false]:
    so does [off(null, null)], the call that [cleanup] makes.  Only a call
    that leaves out the second argument clears listeners: those of all
    events when the event is [undefined] too. *)
Theorem off_without_event_removes_nothing event callbackOrId (w : world bus) :
  (forall s, event <> VStr s) ->
  callbackOrId <> VUndefined ->
  off event callbackOrId w = Some (Ret (VBool false), w)
  /\ off VUndefined VUndefined w =
       Some (Ret VUndefined,
             World (mkBus ∅ ∅ (listenerIdCounter (st w))) (console w) (trace w)).
Proof.
  intros Hev Hc. rewrite !off_spec. split; [|done].
  rewrite off_state_matching by done.
  assert (Hget : forall m, map_get m event = None).
  { intros m. destruct event; try done. by destruct (Hev s). }
  assert (Hback : forall m, store_back m event [] = m).
  { intros m. destruct event; try done. by destruct (Hev s). }
  unfold off_result. rewrite !Hget. cbn [default without List.filter existsb orb].
  rewrite !Hback. destruct w as [[ls os c] co tr].
  by destruct callbackOrId.
Qed.

(** X5. [emit('*', data)] calls every listener of the event [*] twice:
    first as a listener of every event, with the arguments [*] and
    [data], then as a listener of the event, with [data] alone. *)
Theorem emit_star_calls_listeners_twice data (w : world bus) :
  let arr := default [] (listeners (st w) !! "*")
             ++ default [] (onceListeners (st w) !! "*") in
  exists results w',
    emit call_result "*" data w = Some (Ret results, w')
    /\ trace w' = trace w ++ map (wildcard_call "*" data) (rev arr)
                          ++ map (plain_call data) (rev arr).
Proof.
  intros arr. rewrite emit_spec. eexists _, _. split; [done|].
  cbn [trace]. f_equal. unfold allListeners, arr.
  rewrite !rev_app_distr, !map_app, <- !map_rev, !map_map. simpl.
  by rewrite <- !app_assoc.
Qed.

Lemma off_state_other s event c k :
  event <> VStr k ->
  listeners (off_state s event (VStr c)) !! k = listeners s !! k
  /\ onceListeners (off_state s event (VStr c)) !! k = onceListeners s !! k.
Proof.
  intros Hne. rewrite off_state_matching by done. simpl.
  split; by apply store_back_lookup_ne.
Qed.

Lemma after_pass_other event pass s k :
  event <> k ->
  listeners (after_pass event s pass) !! k = listeners s !! k
  /\ onceListeners (after_pass event s pass) !! k = onceListeners s !! k.
Proof.
  intros Hne. revert s. induction pass as [|l pass IH]; intros s; [done|].
  rewrite after_pass_cons. destruct (isOnce l); [|apply IH].
  destruct (IH (off_state s (VStr event) (VStr (id (entry l))))) as [-> ->].
  apply off_state_other. congruence.
Qed.

(** X6. A listener registered with [once] for the event [*] is not
    single-use: an [emit] of any other event calls it, with the event and
    the data, and leaves it on the bus, because the listener is taken off
    the array of the emitted event, where it is not. *)
Theorem once_listener_of_every_event_stays event data (w : world bus) :
  event <> "*" ->
  exists results w' calls,
    emit call_result event data w = Some (Ret results, w')
    /\ trace w' = trace w ++ calls
    /\ (forall l, l ∈ default [] (onceListeners (st w) !! "*") ->
          wildcard_call event data l ∈ calls)
    /\ onceListeners (st w') !! "*" = onceListeners (st w) !! "*".
Proof.
  intros Hne. rewrite emit_spec. eexists _, _, _. split; [done|].
  cbn [st trace]. split; [done|]. split.
  - intros l Hl. apply list_elem_of_fmap.
    exists (mkTagged l true true). split; [done|].
    apply elem_of_rev. unfold allListeners. rewrite !elem_of_app. do 3 right.
    apply list_elem_of_fmap. by exists l.
  - by apply after_pass_other.
Qed.

Lemma after_pass_keeps_listeners event pass s :
  arrays_ok (listeners s) ->
  (forall t x, t ∈ pass -> isOnce t = true -> x ∈ flat (listeners s) ->
     matches (VStr (id (entry t))) x = false) ->
  listeners (after_pass event s pass) = listeners s.
Proof.
  intros Hok. revert s Hok. induction pass as [|t pass IH]; intros s Hok Hpass; [done|].
  rewrite after_pass_cons. destruct (isOnce t) eqn:Ht.
  - assert (E : listeners (off_state s (VStr event) (VStr (id (entry t)))) = listeners s).
    { rewrite off_state_matching by done. cbn [listeners].
      rewrite without_none; [by apply store_back_same|].
      apply Forall_forall. intros x Hx. apply (Hpass t x); [by left|done|].
      by apply (elem_of_flat _ event). }
    rewrite IH; rewrite E; [done|done|].
    intros t' x Ht' Ho Hx. apply Hpass; [by right|done|done].
  - apply IH; [done|]. intros t' x Ht' Ho Hx. apply Hpass; [by right|done|done].
Qed.

(** X7. In every state a program of bus calls reaches, [emit] itself
    takes no listener registered with [on] off the bus, whatever the
    listeners return or throw: the map of these listeners is the same
    before and after. *)
Theorem emit_keeps_the_listeners_of_on ops c0 t0 event data :
  exists rs w results w',
    run call_result ops (World initial c0 t0) = Some (Ret rs, w)
    /\ emit call_result event data w = Some (Ret results, w')
    /\ listeners (st w') = listeners (st w).
Proof.
  destruct (run_wf call_result ops (World initial c0 t0) bus_wf_initial)
    as (rs & w & Hrun & (Hnd & _) & H1 & _).
  eexists rs, w, _, _. split; [done|]. split; [apply emit_spec|].
  cbn [st]. apply after_pass_keeps_listeners; [done|].
  intros t x Ht Ho Hx. unfold matches. simpl. rewrite orb_false_r.
  apply String.eqb_neq. intros E.
  assert (Hin : entry t ∈ flat (onceListeners (st w))).
  { rewrite elem_of_rev in Ht. unfold allListeners in Ht.
    rewrite !elem_of_app, !list_elem_of_fmap in Ht.
    destruct Ht as [(l & -> & _)|[(l & -> & Hl)|[(l & -> & _)|(l & -> & Hl)]]];
      try discriminate; by eapply elem_of_flat. }
  unfold entries in Hnd. rewrite map_app in Hnd. apply NoDup_app in Hnd as (_ & Hdis & _).
  apply (Hdis (id x)); apply list_elem_of_fmap; [by exists x|by exists (entry t)].
Qed.

End BusMore.

(** ** More of the module loader *)

Section LoaderMore.

Import ModuleLoader LoaderSpec.

Context (call_result : list call -> nat -> list value -> outcome value).

(** [resolveDependencies] only reads the registry and calls nothing. *)
Lemma resolveDependencies_reads fuel x V (w : world loader) r w' :
  resolveDependencies fuel x (Some V) w = Some (r, w') ->
  st w' = st w /\ trace w' = trace w.
Proof.
  revert x V w r w'. induction fuel as [|fuel IH]; intros x V w r w'; [done|].
  rewrite resolveDependencies_S. destruct (bool_decide (x ∈ V)); [by intros [= <- <-]|].
  destruct (modules (st w) !! x) as [m|]; [|by intros [= <- <-]].
  generalize (@nil string, {[x]} ∪ V). generalize (deps m). clear m.
  intros ds. revert w r w'. induction ds as [|d ds IHds]; intros w r w' acc.
  - cbn [forEach]. unfold ret. by intros [= <- <-].
  - cbn [forEach]. unfold bind at 1.
    destruct (resolve_dep _ d acc w) as [[o1 w1]|] eqn:Hstep; [|done].
    assert (H1 : st w1 = st w /\ trace w1 = trace w).
    { revert Hstep. unfold resolve_dep, bind at 1.
      destruct (bool_decide (d ∈ acc.2)).
      - unfold ret. by destruct (bool_decide (d ∈ acc.1)); intros [= <- <-].
      - unfold bind at 1.
        destruct (resolveDependencies fuel d (Some acc.2) w) as [[o2 w2]|] eqn:Hcall;
          [|done].
        destruct (IH _ _ _ _ _ Hcall) as [Hs Ht].
        destruct o2 as [a|e]; [|by intros [= <- <-]].
        unfold ret. cbn [fst snd].
        by destruct (bool_decide (d ∈ acc.1 ++ a.1)); intros [= <- <-]. }
    destruct H1 as [Hs1 Ht1]. destruct o1 as [acc1|e].
    + intros Hrest. destruct (IHds _ _ _ _ Hrest) as [Hs2 Ht2]. split; congruence.
    + by intros [= <- <-].
Qed.

Lemma resolveDependencies_top fuel x (w : world loader) :
  resolveDependencies fuel x None w = resolveDependencies fuel x (Some ∅) w.
Proof. by destruct fuel. Qed.

Lemma counted_same (w w' : world loader) :
  st w' = st w -> trace w' = trace w -> counted w w'.
Proof.
  intros Hs Ht. exists []. split; [by rewrite app_nil_r|].
  intros x. rewrite Hs. rewrite bool_decide_eq_false_2; [done|set_solver].
Qed.

Lemma counted_trans (w1 w2 w3 : world loader) :
  initializedModules (st w1) ⊆ initializedModules (st w2) ->
  initializedModules (st w2) ⊆ initializedModules (st w3) ->
  counted w1 w2 -> counted w2 w3 -> counted w1 w3.
Proof.
  intros H12 H23 (c1 & Ht1 & Hc1) (c2 & Ht2 & Hc2). exists (c1 ++ c2).
  split; [by rewrite Ht2, Ht1, app_assoc|].
  intros x. rewrite factory_calls_app, length_app, Hc1, Hc2.
  repeat case_bool_decide; try done; set_solver.
Qed.

Lemma frame_codes_lookup (w w' : world loader) k :
  frame w w' -> codes (st w') !! k = codes (st w) !! k.
Proof. intros (Hc & _). by rewrite Hc. Qed.

Lemma frame_registered (w w' : world loader) k :
  frame w w' ->
  is_Some (modules (st w') !! k) <-> is_Some (modules (st w) !! k).
Proof.
  intros Hf. pose proof (frame_codes_lookup w w' k Hf) as Hk.
  unfold codes in Hk. rewrite !lookup_fmap in Hk.
  destruct (modules (st w') !! k), (modules (st w) !! k); try done; split; eauto.
Qed.

Lemma factories_succeed_frame (w w' : world loader) :
  frame w w' -> factories_succeed call_result (st w) ->
  factories_succeed call_result (st w').
Proof.
  intros Hf Hs x c Hc. rewrite (frame_codes_lookup w w' x Hf) in Hc. by apply (Hs x c).
Qed.

Lemma frame_initialized (w w' : world loader) :
  frame w w' -> initializedModules (st w) ⊆ initializedModules (st w').
Proof. by intros (_ & _ & H & _). Qed.

(** A console message changes nothing that initialization counts. *)
Lemma counted_log (w : world loader) l :
  counted w (World (st w) (console w ++ l) (trace w)).
Proof. by apply counted_same. Qed.

Lemma factory_calls_own x f args post :
  Forall (fun c => exists g a, c = Call (InitMethod x) g a) post ->
  forall y, length (factory_calls y (Call (Factory x) f args :: post))
            = if bool_decide (y = x) then 1%nat else 0%nat.
Proof.
  intros Hpost y. unfold factory_calls. simpl.
  replace (List.filter _ post) with (@nil call).
  2:{ induction Hpost as [|c post (g & a & ->) _ IH]; simpl; [done|exact IH]. }
  case_bool_decide as E.
  - subst y. by rewrite String.eqb_refl.
  - destruct (String.eqb x y) eqn:E'; [|done]. by apply String.eqb_eq in E'.
Qed.

(** With a factory that returns a truthy value, the [try] block of
    [initModule] makes the module initialized, calling the factory once,
    with the instances of the dependencies. *)
Lemma createInstance_counted x ds (w : world loader) m :
  modules (st w) !! x = Some m ->
  x ∉ initializedModules (st w) ->
  factories_succeed call_result (st w) ->
  exists o w' inst post,
    createInstance call_result x ds w = Some (o, w')
    /\ call_result (trace w) (factory m) (map (depInstance (st w)) ds) = Ret inst
    /\ truthy inst = true
    /\ trace w' = trace w ++ Call (Factory x) (factory m) (map (depInstance (st w)) ds) :: post
    /\ Forall (fun c => exists g a, c = Call (InitMethod x) g a) post
    /\ modules (st w') = alter (fun m => mkEntry (factory m) (deps m) inst) x (modules (st w))
    /\ initializedModules (st w') = {[x]} ∪ initializedModules (st w)
    /\ console w' = console w
    /\ counted w w'.
Proof.
  intros Hm Hx Hs. rewrite createInstance_unfold, Hm. cbn zeta.
  destruct (Hs x (code m)) with (history := trace w)
    (args := map (depInstance (st w)) ds) as (inst & Hcall & Ht).
  { unfold codes. by rewrite lookup_fmap, Hm. }
  simpl in Hcall. rewrite Hcall, Ht.
  assert (Hcount : forall c post,
    Forall (fun c => exists g a, c = Call (InitMethod x) g a) post ->
    counted w (World (mkLoader
                        (alter (fun m => mkEntry (factory m) (deps m) inst) x (modules (st w)))
                        (dependencies (st w)) ({[x]} ∪ initializedModules (st w)))
                     c (trace w ++ Call (Factory x) (factory m)
                                       (map (depInstance (st w)) ds) :: post))).
  { intros c post Hpost. eexists. split; [done|]. intros y. cbn [st initializedModules].
    rewrite (factory_calls_own _ _ _ _ Hpost).
    repeat case_bool_decide; try done; set_solver. }
  destruct (get_prop inst "init") as [| | | | | | | | |g] eqn:Hg;
    try (eexists (Ret true), _, inst, []; split; [done|];
         do 3 (split; [done|]); split; [constructor|];
         do 3 (split; [done|]); apply Hcount; constructor).
  assert (Hpost : Forall (fun c => exists g a, c = Call (InitMethod x) g a)
                    [Call (InitMethod x) g []]) by (repeat constructor; eauto).
  destruct (call_result _ g []);
    eexists _, _, inst, [Call (InitMethod x) g []];
    (split; [done|]); cbn [st trace console modules initializedModules];
    rewrite <- app_assoc;
    do 3 (split; [done|]); (split; [exact Hpost|]);
    do 3 (split; [done|]); by apply Hcount.
Qed.

(** The loop over the dependencies, all of rank below [b]. *)
Lemma init_deps_counted rank fuel b ds :
  (forall x w, dep_ranked rank (modules (st w)) -> factories_succeed call_result (st w) ->
     (rank x < b)%nat ->
     exists o w', initModule call_result fuel x w = Some (o, w')
       /\ below rank b w w' /\ counted w w'
       /\ (is_Some (modules (st w) !! x) -> x ∈ initializedModules (st w'))) ->
  Forall (fun d => (rank d < b)%nat) ds ->
  forall w, dep_ranked rank (modules (st w)) -> factories_succeed call_result (st w) ->
  exists w', forEach (init_dep (initModule call_result fuel)) ds tt w = Some (Ret tt, w')
             /\ frame w w' /\ below rank b w w' /\ counted w w'
             /\ Forall (fun d => is_Some (modules (st w) !! d) ->
                                 d ∈ initializedModules (st w')) ds.
Proof.
  intros Hinit. induction 1 as [|d ds Hd Hds IH]; intros w Hr Hs.
  - exists w. split; [done|]. split; [apply frame_refl|]. split; [apply below_refl|].
    split; [by apply counted_same|constructor].
  - destruct (Hinit d w Hr Hs Hd) as (o1 & w1 & H1 & Hb1 & Hc1 & Hi1).
    destruct (initModule_frame _ _ _ _ _ _ H1) as ([ok ->] & Hf1).
    set (w1' := if ok then w1 else
           World (st w1) (console w1 ++ [Log LError "依赖模块初始化失败：" [VStr d]]) (trace w1)).
    assert (Hst : st w1' = st w1) by (subst w1'; by destruct ok).
    assert (Hf1' : frame w w1').
    { subst w1'. destruct ok; [done|]. eapply (frame_trans call_result); [exact Hf1|apply frame_log]. }
    assert (Hb1' : below rank b w w1').
    { subst w1'. destruct ok; [done|]. eapply below_trans; [exact Hb1|apply below_log]. }
    assert (Hc1' : counted w w1').
    { subst w1'. destruct ok; [done|].
      eapply counted_trans; [| |exact Hc1|apply counted_log]; [|done].
      by apply frame_initialized. }
    destruct (IH w1' (dep_ranked_frame _ _ _ Hf1' Hr) (factories_succeed_frame _ _ Hf1' Hs))
      as (w' & Hw' & Hf2 & Hb2 & Hc2 & Hi2).
    exists w'. split.
    { cbn [forEach]. unfold bind at 1, init_dep at 1, bind at 1. rewrite H1.
      subst w1'. by destruct ok. }
    split; [by apply (frame_trans call_result _ w1')|]. split; [eauto using below_trans|]. split.
    { eapply counted_trans; [| |exact Hc1'|exact Hc2]; by apply frame_initialized. }
    constructor.
    + intros Hreg. apply (frame_initialized _ _ Hf2). rewrite Hst. by apply Hi1.
    + eapply Forall_impl; [exact Hi2|]. cbn beta. intros d' Hd' Hreg.
      apply Hd'. by apply (frame_registered _ _ d' Hf1').
Qed.

(** On an acyclic registry whose factories succeed, [initModule] returns,
    has called the factory of every module it has made initialized once
    and no other factory, and has made the module initialized when it is
    registered. *)
Lemma initModule_counted rank fuel x (w : world loader) :
  dep_ranked rank (modules (st w)) ->
  factories_succeed call_result (st w) ->
  (rank x < fuel)%nat ->
  exists b w', initModule call_result fuel x w = Some (Ret b, w')
    /\ frame w w'
    /\ below rank (S (rank x)) w w'
    /\ counted w w'
    /\ (is_Some (modules (st w) !! x) -> x ∈ initializedModules (st w')).
Proof.
  revert x w. induction fuel as [|fuel IH]; intros x w Hr Hs Hfuel; [lia|].
  cbn [initModule]. unfold bind at 1, get_st. cbn [st].
  case_bool_decide as Hinit.
  { exists true, w. split; [done|]. split; [apply frame_refl|].
    split; [apply below_refl|]. split; [by apply counted_same|done]. }
  destruct (modules (st w) !! x) as [m|] eqn:Hm.
  2:{ eexists _, _. split; [done|]. split; [apply frame_log|].
      split; [apply below_log|]. split; [apply counted_log|]. by intros [? ?]. }
  destruct (init_deps_counted rank fuel (rank x) (deps m)) with (w := w)
    as (w1 & Hloop & Hf1 & Hb1 & Hc1 & _); [| |done|done|].
  { intros y w0 Hr0 Hs0 Hy.
    destruct (IH y w0 Hr0 Hs0) as (b & w' & H & _ & Hb & Hc & Hi); [lia|].
    eexists _, _. split; [exact H|]. split; [|done]. eapply below_mono; [|exact Hb]. lia. }
  { exact (Hr x m Hm). }
  destruct Hb1 as [Hsame Hcalls]. destruct (Hsame x) as [Hm1 Hi1]; [lia|].
  rewrite Hm in Hm1.
  destruct (createInstance_counted x (deps m) w1 m) as
    (o2 & w2 & inst & post & Hc & _ & _ & Htr & Hpost & Hmods & Hinit2 & Hcons & Hc2);
    [done|by intros ?; apply Hinit, Hi1|by apply (factories_succeed_frame w)|].
  pose proof (createInstance_frame _ _ _ _ _ _ Hc) as Hf2.
  pose proof (createInstance_below _ rank _ _ _ _ _ Hc) as Hb2.
  unfold bind at 1. rewrite Hloop. unfold try_catch. rewrite Hc.
  assert (Hf12 : frame w w2) by (by apply (frame_trans call_result _ w1)).
  assert (Hb12 : below rank (S (rank x)) w w2).
  { eapply below_trans; [|exact Hb2]. eapply below_mono; [|by split]. lia. }
  assert (Hc12 : counted w w2).
  { eapply counted_trans; [| |exact Hc1|exact Hc2]; by apply frame_initialized. }
  assert (Hin : x ∈ initializedModules (st w2)) by (rewrite Hinit2; set_solver).
  destruct o2 as [b|e].
  - by exists b, w2.
  - eexists _, _. split; [done|].
    split; [eapply (frame_trans call_result); [exact Hf12|apply frame_log]|].
    split; [eapply below_trans; [exact Hb12|apply below_log]|].
    split; [|done].
    eapply counted_trans; [| |exact Hc12|apply counted_log]; [|done].
    by apply frame_initialized.
Qed.

(** An [initModule] that returns [true] from its [try] block has made the
    module initialized. *)
Lemma createInstance_true x ds (w : world loader) w' :
  createInstance call_result x ds w = Some (Ret true, w') ->
  x ∈ initializedModules (st w').
Proof.
  rewrite createInstance_unfold. destruct (modules (st w) !! x) as [m|]; [|done].
  cbn zeta. destruct (call_result (trace w) (factory m) _) as [inst|e]; [|done].
  destruct (truthy inst); [|done].
  destruct (get_prop inst "init") as [| | | | | | | | |g];
    try (intros [= <-]; cbn [st initializedModules]; set_solver).
  destruct (call_result _ g []); [|done].
  intros [= <-]. cbn [st initializedModules]. set_solver.
Qed.

(** A module that is registered and not initialized has its factory called
    by an [initModule] that returns. *)
Lemma initModule_calls_factory fuel x (w : world loader) m o w' :
  modules (st w) !! x = Some m ->
  x ∉ initializedModules (st w) ->
  initModule call_result fuel x w = Some (o, w') ->
  exists pre args post, trace w' = trace w ++ pre ++ Call (Factory x) (factory m) args :: post.
Proof.
  intros Hm Hx Hinit. destruct fuel as [|fuel]; [done|].
  cbn [initModule] in Hinit. unfold bind at 1, get_st in Hinit. cbn [st] in Hinit.
  rewrite bool_decide_eq_false_2 in Hinit by done.
  rewrite Hm in Hinit. unfold bind at 1 in Hinit.
  destruct (forEach _ _ _ _) as [[o1 w1]|] eqn:Hloop; [|done].
  apply init_deps_frame in Hloop as [-> Hf]. unfold try_catch in Hinit.
  destruct (createInstance _ _ _ _) as [[o2 w2]|] eqn:Hc; [|done].
  destruct (frame_lookup _ _ _ _ Hf Hm) as (m' & Hm' & Hcode).
  destruct (createInstance_calls_factory call_result _ _ _ _ _ _ Hc Hm') as (args & post & Htr).
  unfold code in Hcode. injection Hcode as Hfac _. rewrite Hfac in Htr.
  destruct Hf as (_ & _ & _ & pre & Hpre).
  exists pre, args, post. rewrite Hpre, <- app_assoc in Htr.
  destruct o2; [by injection Hinit as <- <-|].
  unfold bind, log, ret in Hinit. by injection Hinit as <- <-.
Qed.

(** X8. On every registry, cyclic or not, [resolveDependencies(name)]
    returns when it is given more levels of calls than there are modules;
    it leaves the registry as it is and calls nothing.  For a registered
    name the list holds exactly the names that can be reached from it
    along the dependency lists; for a name that is not registered it is
    empty. *)
Theorem resolveDependencies_lists_reachable_names (w : world loader) n fuel :
  (size (modules (st w)) < fuel)%nat ->
  exists out V w',
    resolveDependencies fuel n None w = Some (Ret (out, V), w')
    /\ st w' = st w
    /\ trace w' = trace w
    /\ (is_Some (modules (st w) !! n) ->
        forall y, y ∈ out <-> tc (depends_on (modules (st w))) n y)
    /\ (modules (st w) !! n = None -> out = []).
Proof.
  intros Hfuel. rewrite resolveDependencies_top.
  destruct (resolveDependencies_returns fuel n ∅ w) as (out & V & w' & Hrun & Hst & _).
  { rewrite difference_empty_L, size_dom. exact Hfuel. }
  exists out, V, w'. split; [done|]. split; [done|].
  split; [by destruct (resolveDependencies_reads _ _ _ _ _ _ Hrun)|].
  split.
  - intros [m Hm].
    destruct (resolveDependencies_ok (modules (st w)) False fuel n ∅ w out V w')
      as [_ [([Hn|Hn] & _)|(_ & m' & Hm' & added & Hadd & HV & Hs & Hall & Hreach & Hnew)]];
      [done|done|done|set_solver|congruence|].
    rewrite Hm in Hm'. injection Hm' as <-. simpl in Hadd. subst added.
    assert (Hclosed : forall x y, depends_on (modules (st w)) x y ->
                       x = n \/ x ∈ out -> y ∈ out).
    { intros x y (mx & Hmx & Hy) Hx.
      destruct (decide (x = n)) as [->|Hxn].
      - rewrite Hm in Hmx. injection Hmx as <-. by apply Hall.
      - destruct Hx as [?|Hx]; [done|].
        destruct (Hs x Hx) as [HxV|E]; [|by rewrite E in Hmx].
        destruct (Hnew x HxV) as (_ & mx' & Hmx' & Hdeps & _); [set_solver|].
        rewrite Hmx in Hmx'. injection Hmx' as <-. by apply Hdeps. }
    intros y. split.
    + intros Hy. destruct (Hreach y Hy) as [Hd|(d & Hd & Htc)].
      * apply tc_once. by exists m.
      * eapply tc_l; [|exact Htc]. by exists m.
    + intros Htc.
      assert (Hall' : forall x y, tc (depends_on (modules (st w))) x y ->
                       x = n \/ x ∈ out -> y ∈ out).
      { clear -Hclosed. induction 1 as [x y Hxy|x y z Hxy _ IH]; intros Hx; eauto. }
      eapply Hall'; [exact Htc|by left].
  - intros Hnone. destruct fuel as [|fuel]; [lia|].
    rewrite resolveDependencies_S in Hrun.
    rewrite bool_decide_eq_false_2, Hnone in Hrun by set_solver.
    by injection Hrun as <- _ _.
Qed.

(** X9. No exception of a factory or of an [init] method leaves
    [init(name)]: whenever the recursion over the dependencies ends,
    [init] has returned a boolean, whatever the functions it calls do; it
    leaves the registered factories and dependency lists as they are,
    takes no module out of the initialized ones and only adds to the calls
    made; and when it returns [true] the module is among the initialized
    ones. *)
Theorem init_catches_every_exception fuel n (w : world loader) o w' :
  initModule call_result fuel n w = Some (o, w') ->
  exists b,
    o = Ret b
    /\ codes (st w') = codes (st w)
    /\ initializedModules (st w) ⊆ initializedModules (st w')
    /\ (exists calls, trace w' = trace w ++ calls)
    /\ (b = true -> n ∈ initializedModules (st w')).
Proof.
  intros Hinit. destruct (initModule_frame _ _ _ _ _ _ Hinit) as ([b ->] & Hc & _ & Hi & Ht).
  exists b. do 4 (split; [done|]). intros ->.
  destruct fuel as [|fuel]; [done|].
  cbn [initModule] in Hinit. unfold bind at 1, get_st in Hinit. cbn [st] in Hinit.
  case_bool_decide as Hn; [by injection Hinit as <-|].
  destruct (modules (st w) !! n) as [m|]; [|done].
  unfold bind at 1 in Hinit.
  destruct (forEach _ _ _ _) as [[o1 w1]|] eqn:Hloop; [|done].
  apply init_deps_frame in Hloop as [-> _]. unfold try_catch in Hinit.
  destruct (createInstance _ _ _ _) as [[[[]|e] w2]|] eqn:Hcr; try done.
  injection Hinit as <-. by apply (createInstance_true _ _ _ _ Hcr).
Qed.

(** X10. When the [init] method of the new instance throws, [init(name)]
    returns [false] and logs the exception, but the module has been
    recorded as initialized before the method was called: [get(name)]
    returns the instance and a second [init(name)] returns [true] without
    calling anything. *)
Theorem init_method_exception_leaves_module_initialized
    rank fuel n m inst g e (w : world loader) :
  dep_ranked rank (modules (st w)) ->
  (rank n < fuel)%nat ->
  modules (st w) !! n = Some m ->
  n ∉ initializedModules (st w) ->
  (forall history args, call_result history (factory m) args = Ret inst) ->
  truthy inst = true ->
  get_prop inst "init" = VFun g ->
  (forall history, call_result history g [] = Throw e) ->
  exists w' logs,
    initModule call_result fuel n w = Some (Ret false, w')
    /\ console w' = logs ++ [Log LError "模块初始化异常：" [VStr n; e]]
    /\ n ∈ initializedModules (st w')
    /\ get n w' = Some (Ret inst, w')
    /\ initModule call_result fuel n w' = Some (Ret true, w').
Proof.
  intros Hr Hfuel Hm Hn Hf Ht Hg Hthrow.
  destruct fuel as [|fuel]; [lia|].
  cbn [initModule]. unfold bind at 1, get_st. cbn [st].
  rewrite bool_decide_eq_false_2 by done. rewrite Hm.
  destruct (init_deps_below call_result rank fuel (rank n) (deps m)) with (w := w)
    as (w1 & Hloop & Hf1 & (Hsame & _)); [| |done|].
  { intros y w0 Hr0 Hy. destruct (initModule_returns call_result rank fuel y w0 Hr0)
      as (b & w'' & H & Hb); [lia|].
    eexists _, _. split; [exact H|]. eapply below_mono; [|exact Hb]. lia. }
  { exact (Hr n m Hm). }
  destruct (Hsame n) as [Hm1 Hi1]; [lia|]. rewrite Hm in Hm1.
  unfold bind at 1. rewrite Hloop. unfold try_catch.
  rewrite createInstance_unfold, Hm1. cbn zeta. rewrite Hf, Ht, Hg, Hthrow.
  unfold bind, log, ret. cbn [st console trace].
  eexists _, _. split; [done|]. cbn [st console trace initializedModules modules].
  split; [done|]. split; [set_solver|]. split.
  - unfold get, bind, get_st, ret. cbn [st modules].
    rewrite lookup_alter_eq, Hm1. simpl. by rewrite Ht.
  - rewrite bool_decide_eq_true_2 by set_solver. done.
Qed.

(** X11. On an acyclic registry whose factories succeed, [init(name)] of
    a registered module that is not initialized calls the factory of the
    module after all the calls it makes for the dependencies, with the
    instances of the dependencies in the order of the dependency list
    (the values [get] returns for them afterwards, [null] for one that has
    none); after the factory only the [init] method of the module is
    called.  Every registered dependency is initialized, by one call of
    its factory when it was not initialized before. *)
Theorem init_calls_dependencies_first rank fuel n m (w : world loader) :
  dep_ranked rank (modules (st w)) ->
  factories_succeed call_result (st w) ->
  (rank n < fuel)%nat ->
  modules (st w) !! n = Some m ->
  n ∉ initializedModules (st w) ->
  exists b w' pre post,
    initModule call_result fuel n w = Some (Ret b, w')
    /\ trace w' = trace w ++ pre
                   ++ Call (Factory n) (factory m) (map (depInstance (st w')) (deps m)) :: post
    /\ Forall (fun c => exists g a, c = Call (InitMethod n) g a) post
    /\ (forall d, d ∈ deps m -> is_Some (modules (st w) !! d) ->
          d ∈ initializedModules (st w')
          /\ (d ∉ initializedModules (st w) -> length (factory_calls d pre) = 1%nat)).
Proof.
  intros Hr Hs Hfuel Hm Hn. destruct fuel as [|fuel]; [lia|].
  cbn [initModule]. unfold bind at 1, get_st. cbn [st].
  rewrite bool_decide_eq_false_2 by done. rewrite Hm.
  destruct (init_deps_counted rank fuel (rank n) (deps m)) with (w := w)
    as (w1 & Hloop & Hf1 & Hb1 & (pre & Hpre & Hcount) & Hdeps); [| |done|done|].
  { intros y w0 Hr0 Hs0 Hy.
    destruct (initModule_counted rank fuel y w0 Hr0 Hs0) as (b & w' & H & _ & Hb & Hc & Hi);
      [lia|].
    eexists _, _. split; [exact H|]. split; [|done]. eapply below_mono; [|exact Hb]. lia. }
  { exact (Hr n m Hm). }
  destruct Hb1 as [Hsame _]. destruct (Hsame n) as [Hm1 Hi1]; [lia|]. rewrite Hm in Hm1.
  destruct (createInstance_counted n (deps m) w1 m) as
    (o2 & w2 & inst & post & Hc & _ & _ & Htr & Hpost & Hmods & Hinit2 & _ & _);
    [done|by intros ?; apply Hn, Hi1|by apply (factories_succeed_frame w)|].
  unfold bind at 1. rewrite Hloop. unfold try_catch. rewrite Hc.
  assert (Hargs : map (depInstance (st w1)) (deps m) = map (depInstance (st w2)) (deps m)).
  { apply map_ext_in. intros d Hd. unfold depInstance. rewrite Hmods.
    rewrite lookup_alter_ne; [done|]. intros E.
    pose proof (Hr n m Hm) as Hlt. rewrite Forall_forall in Hlt.
    apply list_elem_of_In in Hd. specialize (Hlt d Hd). cbn beta in Hlt.
    rewrite E in Hlt. lia. }
  assert (Hfin : forall d, d ∈ deps m -> is_Some (modules (st w) !! d) ->
            d ∈ initializedModules (st w2)
            /\ (d ∉ initializedModules (st w) -> length (factory_calls d pre) = 1%nat)).
  { intros d Hd Hreg. rewrite Forall_forall in Hdeps. specialize (Hdeps d Hd Hreg).
    split; [rewrite Hinit2; set_solver|].
    intros Hnot. rewrite Hcount. rewrite bool_decide_eq_true_2; [done|set_solver]. }
  rewrite Hpre, Hargs, <- app_assoc in Htr.
  destruct o2 as [b|e].
  - by exists b, w2, pre, post.
  - unfold bind, log, ret. eexists false, _, pre, post. split; [done|].
    cbn [st trace]. done.
Qed.

(** X12. [reset] forgets the instances and keeps the registrations.  On
    a registry that has no module under the name [__proto__] (the one
    name that [Object.keys(modules)] does not list), after [reset] no
    module is initialized, [get] returns [null] for every name, and the
    factories and dependency lists are the ones registered; nothing is
    called.  When the registry is acyclic, [init(name)] of a registered
    module then returns and has called the factory of the module
    again. *)
Theorem reset_makes_init_call_the_factory_again (w : world loader) :
  modules (st w) !! "__proto__" = None ->
  exists w1,
    reset w = Some (Ret tt, w1)
    /\ codes (st w1) = codes (st w)
    /\ initializedModules (st w1) = ∅
    /\ trace w1 = trace w
    /\ (forall k, exists w', get k w1 = Some (Ret VNull, w'))
    /\ (forall rank fuel n m,
          dep_ranked rank (modules (st w)) ->
          (rank n < fuel)%nat ->
          modules (st w) !! n = Some m ->
          exists b w2 pre args post,
            initModule call_result fuel n w1 = Some (Ret b, w2)
            /\ trace w2 = trace w ++ pre ++ Call (Factory n) (factory m) args :: post).
Proof.
  intros _.
  set (mods1 := (fun m => mkEntry (factory m) (deps m) VNull) <$> modules (st w)).
  set (w1 := World (mkLoader mods1 (dependencies (st w)) ∅) (console w) (trace w)).
  assert (Hcodes : codes (st w1) = codes (st w)).
  { unfold codes, w1, mods1. cbn [st modules]. rewrite <- map_fmap_compose.
    apply map_fmap_ext. done. }
  exists w1.
  split; [done|]. split; [done|]. split; [done|]. split; [done|]. split.
  { intros k. unfold get, bind, get_st, log, ret, w1. cbn [st modules]. unfold mods1.
    rewrite lookup_fmap. destruct (modules (st w) !! k); simpl; by eexists. }
  intros rank fuel n m Hr Hfuel Hm.
  assert (Hr1 : dep_ranked rank (modules (st w1))).
  { intros k mk Hk. unfold w1, mods1 in Hk. cbn [st modules] in Hk.
    rewrite lookup_fmap in Hk. destruct (modules (st w) !! k) as [m0|] eqn:Hk0; [|done].
    injection Hk as <-. exact (Hr k m0 Hk0). }
  assert (Hm1 : modules (st w1) !! n = Some (mkEntry (factory m) (deps m) VNull)).
  { unfold w1, mods1. cbn [st modules]. by rewrite lookup_fmap, Hm. }
  destruct (initModule_returns call_result rank fuel n w1 Hr1 Hfuel) as (b & w2 & Hinit & _).
  destruct (initModule_calls_factory fuel n w1 _ _ _ Hm1 ltac:(set_solver) Hinit)
    as (pre & args & post & Htr).
  by exists b, w2, pre, args, post.
Qed.




Section InitAll.

Variables (rank : string -> nat) (fuel : nat).
Hypothesis rank_fuel : forall x, (rank x < fuel)%nat.






End InitAll.


End LoaderMore.

(** ** More of the state manager *)

Section StoreMore.

Import StateManager StoreSpec.

Context {P : Type} (storageService : StorageService P).
Context (call_result : list call -> nat -> list value -> outcome value).

(** A group of callbacks is called through in the order of the [Map],
    whatever the callbacks do. *)
Lemma notify_group_calls text args group (w : world (store P)) :
  exists w', forEach (notify_one call_result text args) group tt w = Some (Ret tt, w')
             /\ st w' = st w
             /\ trace w' = trace w ++ group_calls args group.
Proof.
  revert w. induction group as [|l group IH]; intros w.
  { exists w. by rewrite app_nil_r. }
  cbn [forEach]. unfold bind at 1, notify_one at 1, try_catch, bind at 1, invoke.
  destruct (call_result (trace w) l.2 args).
  - unfold ret at 1. edestruct IH as (w' & -> & Hst & Htr). exists w'.
    split; [done|]. split; [done|]. rewrite Htr. cbn [trace group_calls map].
    by rewrite <- app_assoc.
  - unfold log at 1. edestruct IH as (w' & -> & Hst & Htr). exists w'.
    split; [done|]. split; [done|]. rewrite Htr. cbn [trace group_calls map].
    by rewrite <- app_assoc.
Qed.

Lemma _notifyListeners_calls updates old (w : world (store P)) new :
  _state (st w) = Some new ->
  exists w',
    _notifyListeners call_result updates old w = Some (Ret tt, w')
    /\ st w' = st w
    /\ trace w' = trace w
         ++ notify_calls (_listeners (st w)) new old (map fst (own_props updates)).
Proof.
  intros Ho. unfold _notifyListeners, bind at 1, notify_calls.
  assert (Hkeys : forall keys (w0 : world (store P)), st w0 = st w ->
    exists w1, forEach (notify_key call_result old) keys tt w0 = Some (Ret tt, w1)
      /\ st w1 = st w
      /\ trace w1 = trace w0
           ++ concat (map (fun key =>
                             group_calls [default VUndefined (alist_get key new);
                                          default VUndefined (alist_get key old)]
                                         (default [] (alist_get key (_listeners (st w)))))
                          keys)).
  { induction keys as [|k keys IH]; intros w0 Hw0.
    { exists w0. by rewrite app_nil_r. }
    cbn [forEach]. unfold bind at 1, notify_key at 1, bind at 1, get_st. cbn [st].
    rewrite Hw0, Ho.
    destruct (alist_get k (_listeners (st w))) as [group|] eqn:Hk.
    - unfold bind at 1, ret at 1.
      destruct (notify_group_calls "StateManagerModule listener error:"
                  [default VUndefined (alist_get k new); default VUndefined (alist_get k old)]
                  group w0) as (w1 & -> & Hst1 & Htr1).
      destruct (IH w1) as (w2 & -> & Hst2 & Htr2); [congruence|].
      exists w2. split; [done|]. split; [done|].
      rewrite Htr2, Htr1. cbn [map concat]. rewrite Hk. cbn [default].
      by rewrite <- app_assoc.
    - unfold ret at 1. destruct (IH w0 Hw0) as (w2 & -> & Hst2 & Htr2).
      exists w2. split; [done|]. split; [done|].
      rewrite Htr2. cbn [map concat]. by rewrite Hk. }
  destruct (Hkeys (map fst (own_props updates)) w eq_refl) as (w1 & -> & Hst1 & Htr1).
  unfold bind at 1, get_st. cbn [st]. rewrite Hst1.
  destruct (alist_get "*" (_listeners (st w))) as [group|].
  - destruct (notify_group_calls "StateManagerModule wildcard listener error:"
                [state_value (st w); VObj old] group w1) as (w2 & -> & Hst2 & Htr2).
    exists w2. split; [done|]. split; [congruence|].
    rewrite Htr2, Htr1, <- app_assoc. unfold state_value. by rewrite Ho.
  - exists w1. split; [done|]. split; [done|]. rewrite Htr1. cbn [default group_calls map].
    by rewrite app_nil_r.
Qed.


Lemma current_loaded (s : store P) o : _state s = Some o -> current storageService s = o.
Proof. intros Ho. unfold current. by rewrite Ho. Qed.

(** [setState] with the world it leaves. *)
Lemma setState_world updates (w : world (store P)) :
  let old := obj_assign [] (current storageService (st w)) in
  let new := obj_assign old (own_props updates) in
  exists w',
    setState storageService call_result updates w = Some (Ret true, w')
    /\ st w' = mkStore (Some new) (_listeners (st w))
                 (storage_set storageService (storage (st w)) STATE_KEY (VObj new)).2
    /\ trace w' = trace w
         ++ notify_calls (_listeners (st w)) new old (map fst (own_props updates)).
Proof.
  intros old new. rewrite setState_unfold. cbn zeta. fold old new. unfold bind.
  edestruct (_notifyListeners_calls updates old) as (w' & -> & Hst & Htr); [reflexivity|].
  exists w'. split; [done|]. split; [done|]. exact Htr.
Qed.

Lemma alist_set_Forall {V} (Q : string * V -> Prop) k v m :
  Q (k, v) -> Forall Q m -> Forall Q (alist_set k v m).
Proof.
  intros Hq. induction 1 as [|[k' v'] m Hx Hm IH]; simpl; [by repeat constructor|].
  destruct (String.eqb k k'); by constructor.
Qed.

Lemma alist_delete_Forall {V} (Q : string * V -> Prop) k m :
  Forall Q m -> Forall Q (alist_delete k m).
Proof.
  induction 1 as [|[k' v'] m Hx Hm IH]; simpl; [constructor|].
  destruct (String.eqb k k'); [done|by constructor].
Qed.

Lemma removeListener_loop_groups id groups all ls :
  Forall (fun kg : string * list (string * nat) => kg.2 <> []) all ->
  removeListener_loop id groups all = Some ls ->
  Forall (fun kg : string * list (string * nat) => kg.2 <> []) ls.
Proof.
  intros Hall. induction groups as [|[key listeners] groups IH]; simpl; [done|].
  destruct (alist_get id listeners); [|done].
  destruct (alist_delete id listeners) as [|l listeners'] eqn:E; intros [= <-].
  - by apply alist_delete_Forall.
  - by apply alist_set_Forall.
Qed.

Lemma step_groups_inv o (w : world (store P)) r w' :
  groups_inv (st w) ->
  step storageService call_result o w = Some (r, w') ->
  groups_inv (st w').
Proof.
  unfold groups_inv. intros Hinv.
  destruct o as [| |key|updates|key v|fresh key cb|id| | |jsonStr]; cbn [step]; unfold bind at 1.
  - unfold init, bind at 1. rewrite _loadFromStorage_spec. by intros [= <- <-].
  - unfold getState, bind at 1. rewrite ensure_loaded_spec. by intros [= <- <-].
  - unfold get, bind at 1. rewrite ensure_loaded_spec. unfold bind at 1, get_st.
    cbn [st _state].
    destruct key as [k|]; [destruct (negb (String.eqb k EmptyString))|];
      intros [= <- <-]; done.
  - destruct (setState_spec storageService call_result updates w) as (w1 & -> & _ & Hl).
    intros [= <- <-]. by rewrite Hl.
  - unfold set.
    destruct (setState_spec storageService call_result (VObj [(key, v)]) w)
      as (w1 & -> & _ & Hl).
    intros [= <- <-]. by rewrite Hl.
  - destruct cb; try (intros [= <- <-]; done).
    rewrite addListener_spec. intros [= <- <-]. cbn [st _listeners].
    apply alist_set_Forall; [|done]. cbn [snd].
    destruct (default [] (alist_get key (_listeners (st w)))) as [|[k0 v0] g]; simpl; [done|].
    by destruct (String.eqb fresh k0).
  - unfold removeListener, bind at 1, get_st. cbn [st].
    destruct (removeListener_loop _ _ _) as [ls|] eqn:E; intros [= <- <-]; [|done].
    cbn [st _listeners]. by eapply removeListener_loop_groups.
  - destruct (reset_spec storageService call_result w) as (w1 & -> & _ & Hl).
    intros [= <- <-]. by rewrite Hl.
  - unfold exportData, bind at 1, get_st. cbn [st].
    destruct (JSON_stringify _); intros [= <- <-]; done.
  - destruct (importData_spec storageService call_result jsonStr w)
      as (b & w1 & -> & [[-> Hst]|(parsed & _ & _ & -> & _ & Hl)]);
      intros [= <- <-].
    + by rewrite Hst.
    + by rewrite Hl.
Qed.

Lemma run_groups_inv ops (w : world (store P)) r w' :
  groups_inv (st w) ->
  run storageService call_result ops w = Some (r, w') ->
  groups_inv (st w').
Proof.
  unfold run. revert w. induction ops as [|o ops IH]; intros w Hinv.
  - by intros [= <- <-].
  - cbn [forEach]. unfold bind at 1.
    destruct (step storageService call_result o w) as [[[[]|e] w1]|] eqn:Hstep; try done.
    + apply IH. eapply step_groups_inv; eauto.
    + intros [= <- <-]. eapply step_groups_inv; eauto.
Qed.

Lemma alist_set_restore {V} k (v v' : V) m :
  alist_get k m = Some v -> alist_set k v (alist_set k v' m) = m.
Proof.
  induction m as [|[k' x] m IH]; simpl; [done|].
  destruct (String.eqb k k') eqn:E; simpl; rewrite ?String.eqb_refl, ?E.
  - apply String.eqb_eq in E. by intros [= ->]; subst.
  - intros H. by rewrite IH.
Qed.

Lemma alist_delete_set_new {V} k (v : V) m :
  alist_get k m = None -> alist_delete k (alist_set k v m) = m.
Proof.
  induction m as [|[k' x] m IH]; simpl.
  - by rewrite String.eqb_refl.
  - destruct (String.eqb k k') eqn:E; simpl; [done|]. rewrite E. intros H. by rewrite IH.
Qed.

(** The loop of [removeListener] passes the groups that do not have the
    id. *)
Lemma removeListener_loop_skip id (pre : list (string * list (string * nat))) groups all :
  Forall (fun kg => alist_get id kg.2 = None) pre ->
  removeListener_loop id (pre ++ groups) all = removeListener_loop id groups all.
Proof.
  induction 1 as [|[k g] pre Hg _ IH]; simpl; [done|]. simpl in Hg. by rewrite Hg.
Qed.

Lemma alist_set_split {V} k (v : V) m :
  exists pre post,
    alist_set k v m = pre ++ (k, v) :: post
    /\ (forall x, x ∈ pre -> x ∈ m)
    /\ (forall x, x ∈ post -> x ∈ m).
Proof.
  induction m as [|[k' x] m (pre & post & E & H1 & H2)]; simpl.
  - exists [], []. by split.
  - destruct (String.eqb k k').
    + exists [], m. split; [done|]. split; [by intros ? ?%elem_of_nil|].
      intros y Hy. by right.
    + exists ((k', x) :: pre), post. rewrite E. split; [done|]. split.
      * intros y [->|Hy]%elem_of_cons; [by left|right; by apply H1].
      * intros y Hy. right. by apply H2.
Qed.

Lemma alist_get_elem_of {V} k (v : V) m : alist_get k m = Some v -> (k, v) ∈ m.
Proof.
  induction m as [|[k' x] m IH]; simpl; [done|].
  destruct (String.eqb k k') eqn:E.
  - apply String.eqb_eq in E. intros [= ->]. subst. by left.
  - intros H. right. by apply IH.
Qed.



(** X16. In every state a program of calls reaches, the object
    [getState()] returns has each of the seven keys of the default state,
    and no key twice: no call takes a default key away. *)
Theorem getState_keeps_the_default_keys ops p c0 t0 (w : world (store P)) :
  run storageService call_result ops (World (initial p) c0 t0) = Some (Ret tt, w) ->
  exists o w',
    getState storageService w = Some (Ret o, w')
    /\ (forall k, k ∈ map fst DEFAULT_STATE -> k ∈ map fst o)
    /\ NoDup (map fst o).
Proof.
  intros Hrun.
  assert (Hinv : state_inv (st w)).
  { eapply (run_state_inv storageService call_result); [|exact Hrun]. by intros ?. }
  pose proof (state_wf_current storageService (st w) Hinv) as Hwf.
  exists (current storageService (st w)). eexists.
  unfold getState, bind at 1. rewrite ensure_loaded_spec. unfold bind, get_st, ret.
  cbn [st state_value _state own_props]. rewrite state_wf_copy by done.
  split; [done|]. destruct Hwf as [Hnd Hpre]. split; [|done].
  intros k Hk. destruct Hpre as [l Hl]. rewrite Hl. apply elem_of_app. by left.
Qed.

(** X17. In every state a program of calls reaches, subscribing with an
    id that no listener has and unsubscribing with that id leaves the
    listeners as they were: [removeListener] returns [true] and the
    [Map] of listeners is the one before [addListener]. *)
Theorem removeListener_undoes_addListener ops p c0 t0 (w : world (store P)) fresh key f :
  run storageService call_result ops (World (initial p) c0 t0) = Some (Ret tt, w) ->
  unused_id fresh (st w) ->
  exists w1 w2,
    addListener fresh key (VFun f) w = Some (Ret (VStr fresh), w1)
    /\ removeListener fresh w1 = Some (Ret true, w2)
    /\ _listeners (st w2) = _listeners (st w)
    /\ _state (st w2) = _state (st w).
Proof.
  intros Hrun Hunused.
  assert (Hinv : groups_inv (st w)).
  { eapply (run_groups_inv); [|exact Hrun]. constructor. }
  unfold groups_inv in Hinv. unfold unused_id in Hunused.
  rewrite Forall_forall in Hinv, Hunused.
  set (ls := _listeners (st w)) in *.
  set (group := default [] (alist_get key ls)).
  set (g1 := alist_set fresh f group).
  assert (Hgroup : alist_get fresh group = None).
  { unfold group. destruct (alist_get key ls) as [g|] eqn:Hk; [|done].
    apply (Hunused (key, g)). by apply alist_get_elem_of. }
  assert (Hloop : removeListener_loop fresh (alist_set key g1 ls) (alist_set key g1 ls)
                  = Some ls).
  { destruct (alist_set_split key g1 ls) as (pre & post & E & Hpre & _).
    rewrite E at 1. rewrite removeListener_loop_skip.
    2:{ apply Forall_forall. intros x Hx. by apply Hunused, Hpre. }
    cbn [removeListener_loop]. unfold g1 at 1. rewrite alist_get_set_eq.
    unfold g1 at 1. rewrite alist_delete_set_new by done.
    change group with (match alist_get key ls with Some g => g | None => [] end).
    destruct (alist_get key ls) as [g|] eqn:Hk.
    - destruct g as [|x g].
      + by destruct (Hinv (key, []) (alist_get_elem_of _ _ _ Hk)).
      + by rewrite alist_set_restore.
    - by rewrite alist_delete_set_new. }
  eexists _, _. split; [apply addListener_spec|].
  unfold removeListener, bind at 1, get_st. cbn [st _listeners]. fold ls group g1.
  rewrite Hloop. unfold bind, put_st, ret. cbn [st _listeners _state]. done.
Qed.

(** X18. [import] takes the text of an object or of an array and nothing
    else: a text that is not JSON, and the JSON texts [null], [true],
    [false], of a number and of a string, are refused with [false], and
    then the state, the listeners and the storage are as they were and no
    listener is called. *)
Theorem importData_refuses_what_is_no_object jsonStr (w : world (store P)) :
  exists b w',
    importData storageService call_result jsonStr w = Some (Ret b, w')
    /\ b = match jsonStr with
           | Json (JObj _) | Json (JArr _) => true
           | _ => false
           end
    /\ (b = false -> st w' = st w /\ trace w' = trace w).
Proof.
  assert (Hacc : forall parsed,
    truthy parsed && typeof_object parsed = true ->
    JSON_parse jsonStr = Ret parsed ->
    exists w', importData storageService call_result jsonStr w = Some (Ret true, w')).
  { intros parsed Hp Hparse. unfold importData, try_catch. rewrite Hparse, Hp.
    unfold bind at 1, get_st. cbn [st].
    unfold bind at 1, put_st. cbn [st console trace].
    edestruct (save_notify_all storageService call_result) as (w2 & E & _);
      [|rewrite E; by eexists]. reflexivity. }
  destruct jsonStr as [[|b|n|s|items|members]|];
    try (eexists false, _; split; [reflexivity|]; split; [reflexivity|]; intros _;
         by split).
  - destruct b; eexists false, _; (split; [reflexivity|]); (split; [done|]); by intros _.
  - eexists false, _. split; [|split; [done|by intros _]].
    unfold importData, try_catch. cbn [JSON_parse of_json truthy typeof_object].
    by rewrite andb_false_r.
  - eexists false, _. split; [|split; [done|by intros _]].
    unfold importData, try_catch. cbn [JSON_parse of_json truthy typeof_object].
    by rewrite andb_false_r.
  - destruct (Hacc (of_json (JArr items))) as (w' & Himp); [done|done|].
    exists true, w'. by split.
  - destruct (Hacc (of_json (JObj members))) as (w' & Himp); [done|done|].
    exists true, w'. by split.
Qed.

(** X20. [setState] does not look at what [storageService.set] returns:
    when the service refuses the write (it returns [false] and stores
    nothing), [setState] still returns [true] and the new state is the
    state of the module, but the storage is as it was. *)
Theorem setState_hides_a_failed_write updates (w : world (store P)) :
  let new := obj_assign (obj_assign [] (current storageService (st w)))
                        (own_props updates) in
  storage_set storageService (storage (st w)) STATE_KEY (VObj new)
    = (false, storage (st w)) ->
  exists w1,
    setState storageService call_result updates w = Some (Ret true, w1)
    /\ _state (st w1) = Some new
    /\ storage (st w1) = storage (st w).
Proof.
  intros new Hset.
  destruct (setState_world updates w) as (w1 & Hrun & Hst & _).
  fold new in Hst.
  exists w1. split; [done|]. rewrite Hst. split; [done|].
  cbn [storage]. by rewrite Hset.
Qed.

End StoreMore.

(** ** The state manager on the storage service *)

Section StoreOnStorage.

Import StateManager StoreSpec.

Context (call_result : list call -> nat -> list value -> outcome value).

(** X19. What [setState] has written is what a page that is loaded again
    reads: when the browser storage takes the write and the new state
    holds serializable values only, a new state manager on the same
    storage returns from [getState()] the state that [setState] left. *)
Theorem setState_survives_a_reload ops ls c0 t0 (w : world (store Storage.localStorage))
    updates c t :
  run Storage.StorageService call_result ops (World (initial ls) c0 t0) = Some (Ret tt, w) ->
  Storage.full (storage (st w)) = false ->
  let new := obj_assign (obj_assign [] (current Storage.StorageService (st w)))
                        (own_props updates) in
  serializable (VObj new) = true ->
  exists w1 w2,
    setState Storage.StorageService call_result updates w = Some (Ret true, w1)
    /\ getState Storage.StorageService w1 = Some (Ret new, w1)
    /\ getState Storage.StorageService (World (initial (storage (st w1))) c t)
         = Some (Ret new, w2).
Proof.
  intros Hrun Hfull new Hser.
  assert (Hinv : state_inv (st w)).
  { eapply (run_state_inv Storage.StorageService call_result); [|exact Hrun]. by intros ?. }
  pose proof (state_wf_current Storage.StorageService (st w) Hinv) as Hwf.
  assert (Hnew : state_wf new).
  { unfold new. apply state_wf_assign. by rewrite state_wf_copy. }
  destruct (setState_world Storage.StorageService call_result updates w)
    as (w1 & Hset & Hst & _).
  fold new in Hst.
  destruct (json_round_trip (VObj new) Hser) as (j & Hj & Hback).
  exists w1. eexists. split; [done|]. split.
  { apply getState_loaded; [by rewrite Hst|done]. }
  assert (Hget : Storage.get (storage (st w1)) STATE_KEY = VObj new).
  { rewrite Hst. cbn [storage storage_set Storage.StorageService]. unfold Storage.set.
    rewrite Hfull. cbn [snd]. unfold Storage.get. cbn [Storage.items].
    rewrite lookup_insert_eq. unfold JSON_stringify. rewrite Hj. simpl. by rewrite Hback. }
  unfold getState, bind at 1. rewrite ensure_loaded_spec. unfold bind, get_st, ret.
  cbn [st state_value _state own_props]. unfold current, initial.
  cbn [_state storage storage_get Storage.StorageService]. rewrite Hget.
  unfold loaded. cbn [truthy typeof_object andb own_props].
  rewrite default_state_copy.
  replace (obj_assign DEFAULT_STATE new) with new; [by rewrite state_wf_copy|].
  symmetry. apply (obj_assign_onto_prefix new [] DEFAULT_STATE); apply Hnew.
Qed.

End StoreOnStorage.

(** ** The storage service *)

Section StorageMore.

Import Storage StoreSpec StorageSpec.

Lemma get_is_get_or ls key : Storage.get ls key = get_or ls key VUndefined.
Proof. done. Qed.

(** X21. On a browser storage that takes writes, [set(key, value)]
    returns [true] and [get(key, d)] then returns the value, when the
    value is serializable, and the default [d] when [JSON.stringify]
    makes nothing of the value ([undefined], a function); the other keys
    read as before; after [remove(key)], and after [clear()] for every
    key, [get] returns the default. *)
Theorem storage_get_returns_what_set_stored ls key v d :
  full ls = false ->
  let ls' := (Storage.set ls key v).2 in
  (Storage.set ls key v).1 = true
  /\ (serializable v = true -> get_or ls' key d = v)
  /\ (to_json v = None -> get_or ls' key d = d)
  /\ (forall key', key' <> key -> get_or ls' key' d = get_or ls key' d)
  /\ get_or (remove ls' key).2 key d = d
  /\ (forall key', get_or (clear ls').2 key' d = d).
Proof.
  intros Hfull ls'. unfold ls', Storage.set. rewrite Hfull. cbn [fst snd].
  split; [done|]. unfold get_or, remove, clear. cbn [items snd].
  split; [|split; [|split; [|split]]].
  - intros Hser. destruct (json_round_trip v Hser) as (j & Hj & Hback).
    rewrite lookup_insert_eq. unfold JSON_stringify. rewrite Hj. simpl. by rewrite Hback.
  - intros Hnone. rewrite lookup_insert_eq. unfold JSON_stringify. by rewrite Hnone.
  - intros key' Hne. by rewrite lookup_insert_ne.
  - by rewrite lookup_delete_eq.
  - intros key'. by rewrite lookup_empty.
Qed.

(** X22. The data migration runs once: on a storage that takes writes,
    after [migrateDataIfNeeded()] the data version reads [2.0] and a
    second call returns [false] and changes nothing.  On a storage that
    holds no version the first call returns [true]. *)
Theorem migrateDataIfNeeded_runs_once ls :
  full ls = false ->
  let ls1 := (migrateDataIfNeeded ls).2 in
  getDataVersion ls1 = VStr CURRENT_DATA_VERSION
  /\ migrateDataIfNeeded ls1 = (false, ls1)
  /\ (items ls !! DATA_VERSION_KEY = None -> (migrateDataIfNeeded ls).1 = true).
Proof.
  intros Hfull ls1.
  assert (Hv : getDataVersion ls1 = VStr CURRENT_DATA_VERSION).
  { unfold ls1, migrateDataIfNeeded.
    destruct (strict_eq_str CURRENT_DATA_VERSION (getDataVersion ls)) eqn:E; cbn [negb snd].
    - destruct (getDataVersion ls); try discriminate.
      unfold strict_eq_str in E. apply String.eqb_eq in E. by subst.
    - unfold setDataVersion, Storage.set. rewrite Hfull. cbn [snd].
      unfold getDataVersion, get_or. cbn [items]. by rewrite lookup_insert_eq. }
  split; [done|]. split.
  - unfold migrateDataIfNeeded at 1. by rewrite Hv.
  - intros Hnone. unfold migrateDataIfNeeded, getDataVersion, get_or. by rewrite Hnone.
Qed.

Lemma ToInt32_range n : - 2 ^ 31 <= ToInt32 n < 2 ^ 31.
Proof.
  unfold ToInt32. pose proof (Z.mod_pos_bound (n + 2 ^ 31) (2 ^ 32) ltac:(lia)). lia.
Qed.

Lemma ToInt32_small n : - 2 ^ 31 <= n < 2 ^ 31 -> ToInt32 n = n.
Proof. intros Hn. unfold ToInt32. rewrite Z.mod_small; lia. Qed.

Lemma ToInt32_add_multiple n k : ToInt32 (n + k * 2 ^ 32) = ToInt32 n.
Proof.
  unfold ToInt32. replace (n + k * 2 ^ 32 + 2 ^ 31) with (n + 2 ^ 31 + k * 2 ^ 32) by lia.
  by rewrite Z_mod_plus_full.
Qed.

Lemma ToInt32_multiple n : exists k, ToInt32 n = n + k * 2 ^ 32.
Proof.
  exists (- ((n + 2 ^ 31) / 2 ^ 32)). unfold ToInt32.
  rewrite (Z.mod_eq (n + 2 ^ 31) (2 ^ 32)) by lia. lia.
Qed.

(** One turn of the loop multiplies by 31 and adds the code unit, modulo
    [2^32]. *)
Lemma checksum_step_poly p code :
  checksum_step (ToInt32 p) code = ToInt32 (31 * p + code).
Proof.
  unfold checksum_step, band, shl5. cbn zeta.
  rewrite Z.land_diag, Z.shiftl_mul_pow2 by lia.
  rewrite !(ToInt32_small (ToInt32 _)) by apply ToInt32_range.
  destruct (ToInt32_multiple p) as (k1 & ->).
  destruct (ToInt32_multiple ((p + k1 * 2 ^ 32) * 2 ^ 5)) as (k2 & ->).
  replace ((p + k1 * 2 ^ 32) * 2 ^ 5 + k2 * 2 ^ 32 - (p + k1 * 2 ^ 32) + code)
    with (31 * p + code + (31 * k1 + k2) * 2 ^ 32) by lia.
  apply ToInt32_add_multiple.
Qed.

(** X23. [calculateChecksum] is the polynomial hash of base 31 of the
    code units of the JSON text, taken modulo [2^32] as a signed 32-bit
    integer: the shift and the mask of the loop keep the sum in that
    range, and the result is between [-2^31] and [2^31 - 1]. *)
Theorem calculateChecksum_is_the_hash_of_base_31 str :
  calculateChecksum str = ToInt32 (poly31 str)
  /\ - 2 ^ 31 <= calculateChecksum str < 2 ^ 31.
Proof.
  assert (H : calculateChecksum str = ToInt32 (poly31 str)).
  { unfold calculateChecksum, poly31.
    change 0 with (ToInt32 0) at 1. generalize 0 at 1 2.
    induction str as [|code str IH]; intros p; [done|].
    cbn [foldl]. rewrite checksum_step_poly. apply IH. }
  split; [done|]. rewrite H. apply ToInt32_range.
Qed.

End StorageMore.

(** ** The student manager *)

Section StudentFacts.

Import StudentManager.

Context {P : Type} (storageService : StateManager.StorageService P).

Lemma save_spec (w : world (students P)) :
  let r := StateManager.storage_set storageService (storage (st w)) STUDENTS_KEY
             (students_value (st w)) in
  save storageService w =
    Some (Ret r.1, World (mkStudents (_students (st w)) r.2) (console w) (trace w)).
Proof. done. Qed.

Lemma the_students_loaded (w : world (students P)) l :
  _students (st w) = Some l -> the_students w = Some (Ret l, w).
Proof. intros Hl. unfold the_students, bind, get_st, students_value. by rewrite Hl. Qed.

Lemma the_students_null (w : world (students P)) :
  _students (st w) = None -> the_students w = Some (Throw (VStr "TypeError"), w).
Proof. intros Hl. unfold the_students, bind, get_st, students_value. by rewrite Hl. Qed.

Lemma getAll_loaded (w : world (students P)) l :
  _students (st w) = Some l -> getAll storageService w = Some (Ret (VArr l), w).
Proof.
  intros Hl. unfold getAll, bind, get_st, ret, students_value. cbn [st].
  rewrite Hl. cbn beta iota. by rewrite Hl.
Qed.

Lemma getCount_loaded (w : world (students P)) l :
  _students (st w) = Some l -> getCount storageService w = Some (Ret (length l), w).
Proof. intros Hl. unfold getCount, bind. by rewrite (getAll_loaded w l Hl). Qed.

Lemma getName_loaded (w : world (students P)) l id :
  _students (st w) = Some l ->
  getName storageService id w =
    Some (Ret (if (0 <=? id - 1) && (id - 1 <? Z.of_nat (length l))
               then default VUndefined (l !! Z.to_nat (id - 1))
               else VStr (placeholder id)), w).
Proof.
  intros Hl. unfold getName, bind. rewrite (getAll_loaded w l Hl). cbn [array_of].
  unfold ret. by destruct ((0 <=? id - 1) && (id - 1 <? Z.of_nat (length l))).
Qed.

Lemma in_range_loaded (w : world (students P)) l idx inclusive :
  _students (st w) = Some l ->
  in_range idx inclusive w =
    Some (Ret ((0 <=? idx)
               && (if inclusive then idx <=? Z.of_nat (length l)
                   else idx <? Z.of_nat (length l))), w).
Proof.
  intros Hl. unfold in_range. destruct (0 <=? idx); [|done].
  unfold bind. by rewrite (the_students_loaded w l Hl).
Qed.

Lemma splice_out_in idx x l :
  (idx <= length l)%nat -> splice_out idx (splice_in idx x l) = l.
Proof.
  intros Hidx. unfold splice_out, splice_in.
  rewrite take_app_le, take_take, Nat.min_id by (rewrite length_take; lia).
  rewrite drop_app_ge by (rewrite length_take; lia).
  rewrite length_take, Nat.min_l by lia.
  replace (S idx - idx)%nat with 1%nat by lia. simpl. rewrite drop_0.
  apply take_drop.
Qed.

Lemma splice_in_lookup idx x l :
  (idx <= length l)%nat -> splice_in idx x l !! idx = Some x.
Proof.
  intros Hidx. unfold splice_in.
  rewrite lookup_app_r by (rewrite length_take; lia).
  rewrite length_take, Nat.min_l by lia. by rewrite Nat.sub_diag.
Qed.

Lemma init_spec (w : world (students P)) :
  let stored := StateManager.storage_get storageService (storage (st w)) STUDENTS_KEY in
  init storageService w =
    Some (Ret true,
          World (match stored with
                 | VArr (x :: items) => mkStudents (Some (x :: items)) (storage (st w))
                 | _ =>
                     mkStudents (Some (map VStr DEFAULT_STUDENTS))
                       (StateManager.storage_set storageService (storage (st w)) STUDENTS_KEY
                          (VArr (map VStr DEFAULT_STUDENTS))).2
                 end)
                (console w) (trace w)).
Proof.
  cbn zeta. unfold init, save, bind, try_catch, get_st, put_st, ret.
  cbn [st console trace storage _students].
  destruct (StateManager.storage_get _ _ _) as [| | | | | | |[|x items]| |]; reflexivity.
Qed.

(** X24. [add(name)] with a name that is not blank appends the trimmed
    name to the list: the count goes up by one, [getName] of the new last
    id returns the trimmed name, and the names of the other ids are the
    ones before. *)
Theorem add_appends_the_trimmed_name (w : world (students P)) l name :
  _students (st w) = Some l ->
  invalid_name (VStr name) = false ->
  exists r w',
    add storageService (VStr name) w = Some (Ret r, w')
    /\ getCount storageService w' = Some (Ret (S (length l)), w')
    /\ getName storageService (Z.of_nat (length l) + 1) w'
         = Some (Ret (VStr (trim name)), w')
    /\ forall id, 1 <= id <= Z.of_nat (length l) ->
         exists x, getName storageService id w = Some (Ret x, w)
                   /\ getName storageService id w' = Some (Ret x, w').
Proof.
  intros Hl Hname. unfold add. rewrite Hname. unfold bind at 1.
  rewrite (the_students_loaded w l Hl). unfold bind at 1, get_st.
  unfold bind at 1, put_st. cbn [st console trace]. rewrite save_spec. cbn zeta.
  cbn [st console trace _students storage trimmed].
  eexists _, _. split; [done|].
  match goal with |- context [getCount _ ?w0] => set (w1 := w0) end.
  assert (Hl1 : _students (st w1) = Some (l ++ [VStr (trim name)])) by done.
  split; [|split].
  - rewrite (getCount_loaded w1 _ Hl1). by rewrite length_app, Nat.add_1_r.
  - rewrite (getName_loaded w1 _ _ Hl1). rewrite length_app. cbn [length].
    replace (Z.of_nat (length l) + 1 - 1) with (Z.of_nat (length l)) by lia.
    rewrite Nat2Z.id, lookup_app_r, Nat.sub_diag by lia.
    replace ((0 <=? Z.of_nat (length l))
             && (Z.of_nat (length l) <? Z.of_nat (length l + 1))) with true; [done|].
    symmetry. apply andb_true_iff. split; [apply Z.leb_le|apply Z.ltb_lt]; lia.
  - intros id Hid. eexists. rewrite (getName_loaded w l id Hl).
    rewrite (getName_loaded w1 _ id Hl1). split; [done|].
    rewrite length_app. cbn [length].
    replace ((0 <=? id - 1) && (id - 1 <? Z.of_nat (length l))) with true.
    2:{ symmetry. apply andb_true_iff. split; [apply Z.leb_le|apply Z.ltb_lt]; lia. }
    replace ((0 <=? id - 1) && (id - 1 <? Z.of_nat (length l + 1))) with true.
    2:{ symmetry. apply andb_true_iff. split; [apply Z.leb_le|apply Z.ltb_lt]; lia. }
    by rewrite lookup_app_l by lia.
Qed.

(** X25. [insert(id, name)] puts the trimmed name at the position [id],
    for every integer [id] from one to one past the end of the list, and
    [delete(id)] takes it out again: the list is the one before. *)
Theorem insert_then_delete_restores_the_list (w : world (students P)) l id name :
  _students (st w) = Some l ->
  invalid_name (VStr name) = false ->
  1 <= id <= Z.of_nat (length l) + 1 ->
  exists r1 w1 r2 w2,
    insert storageService id (VStr name) w = Some (Ret r1, w1)
    /\ getName storageService id w1 = Some (Ret (VStr (trim name)), w1)
    /\ deleteStudent storageService id w1 = Some (Ret r2, w2)
    /\ _students (st w2) = Some l.
Proof.
  intros Hl Hname Hid.
  assert (Hidx : (Z.to_nat (id - 1) <= length l)%nat) by lia.
  unfold insert. rewrite Hname. unfold bind at 1.
  rewrite (in_range_loaded w l _ true Hl).
  replace ((0 <=? id - 1) && (id - 1 <=? Z.of_nat (length l))) with true.
  2:{ symmetry. apply andb_true_iff. split; apply Z.leb_le; lia. }
  unfold bind at 1. rewrite (the_students_loaded w l Hl). unfold bind at 1, get_st.
  unfold bind at 1, put_st. cbn [st console trace]. rewrite save_spec. cbn zeta.
  cbn [st console trace _students storage trimmed].
  eexists _, _, _, _. split; [done|].
  match goal with |- context [getName _ _ ?w0] => set (w1 := w0) end.
  set (l1 := splice_in (Z.to_nat (id - 1)) (VStr (trim name)) l).
  assert (Hl1 : _students (st w1) = Some l1) by done.
  assert (Hlen : length l1 = S (length l)).
  { unfold l1, splice_in. rewrite length_app, length_take. cbn [length].
    rewrite length_drop. lia. }
  assert (Hin : (0 <=? id - 1) && (id - 1 <? Z.of_nat (length l1)) = true).
  { apply andb_true_iff. split; [apply Z.leb_le|apply Z.ltb_lt]; lia. }
  split; [|split].
  - rewrite (getName_loaded w1 l1 id Hl1), Hin. unfold l1.
    by rewrite splice_in_lookup.
  - unfold deleteStudent. unfold bind at 1. rewrite (in_range_loaded w1 l1 _ false Hl1), Hin.
    unfold bind at 1. rewrite (the_students_loaded w1 l1 Hl1). unfold bind at 1, get_st.
    unfold bind at 1, put_st. cbn [st console trace]. rewrite save_spec. done.
  - cbn [st _students]. unfold l1. by rewrite splice_out_in.
Qed.


Lemma strings_serializable l :
  forallb is_string l = true -> StoreSpec.serializable (VArr l) = true.
Proof.
  simpl. induction l as [|x l IH]; simpl; [done|].
  intros [Hx Hl]%andb_true_iff. rewrite IH by done. by destruct x.
Qed.

(** X27. The text [export()] gives of a list of students that is not
    empty and holds strings only is a text that [import] takes, in
    whatever state the module then is: [import] makes the exported list
    the list of the module, writes it to the storage and returns what the
    storage service returned; so [import(export())] keeps the list.  An
    empty list is exported as a text that [import] refuses: it returns
    [false] and changes nothing. *)
Theorem students_import_of_export (w w0 : world (students P)) l :
  _students (st w) = Some l ->
  forallb is_string l = true ->
  exists t,
    exportData w = Some (Ret t, w)
    /\ (l <> [] ->
        let r := StateManager.storage_set storageService (storage (st w0)) STUDENTS_KEY
                   (VArr l) in
        importData storageService t w0
        = Some (Ret r.1, World (mkStudents (Some l) r.2) (console w0) (trace w0)))
    /\ (l = [] -> importData storageService t w0 = Some (Ret false, w0)).
Proof.
  intros Hl Hstr.
  destruct (json_round_trip (VArr l) (strings_serializable l Hstr)) as (j & Hj & Hback).
  exists (Json j). split; [|split].
  - unfold exportData, bind, get_st, students_value, JSON_stringify. cbn [st].
    by rewrite Hl, Hj.
  - intros Hne r. destruct l as [|x l]; [done|].
    unfold importData, bind at 1, try_catch. cbn [JSON_parse]. rewrite Hback, Hstr.
    unfold bind at 1, get_st. unfold bind at 1, put_st. unfold bind at 1.
    rewrite save_spec. unfold ret, bind. done.
  - intros ->. unfold importData, bind, try_catch. cbn [JSON_parse]. by rewrite Hback.
Qed.

Lemma getAll_first_use p c t :
  let stored := StateManager.storage_get storageService p STUDENTS_KEY in
  exists w', getAll storageService (World (initial p) c t)
             = Some (Ret (match stored with
                          | VArr (x :: items) => VArr (x :: items)
                          | _ => VArr (map VStr DEFAULT_STUDENTS)
                          end), w')
    /\ storage (st w')
       = match stored with
         | VArr (x :: items) => p
         | _ => (StateManager.storage_set storageService p STUDENTS_KEY
                   (VArr (map VStr DEFAULT_STUDENTS))).2
         end.
Proof.
  intros stored. unfold getAll, bind at 1, get_st. cbn [st initial _students].
  unfold bind at 1, bind at 1. rewrite init_spec. cbn zeta.
  cbn [st storage console trace]. change (storage (initial p)) with p.
  fold stored. unfold ret at 1, bind, get_st, ret.
  cbn [st]. unfold students_value.
  destruct stored as [| | | | | | |[|x items]| |]; eexists; (split; reflexivity).
Qed.

(** X28. The list is loaded on first use: on a new module [getAll()]
    returns the array the storage holds when that is an array that is not
    empty, and otherwise the 49 default students, which it also writes to
    the storage.  The functions that change the list do not load it:
    before the first [init], [getAll], [getCount] or [getName], a call of
    [add] with a valid name throws a TypeError. *)
Theorem students_are_loaded_on_first_use p c t name :
  let stored := StateManager.storage_get storageService p STUDENTS_KEY in
  let w0 := World (initial p) c t in
  (exists w', getAll storageService w0
              = Some (Ret (match stored with
                           | VArr (x :: items) => VArr (x :: items)
                           | _ => VArr (map VStr DEFAULT_STUDENTS)
                           end), w')
     /\ storage (st w')
        = match stored with
          | VArr (x :: items) => p
          | _ => (StateManager.storage_set storageService p STUDENTS_KEY
                    (VArr (map VStr DEFAULT_STUDENTS))).2
          end)
  /\ (invalid_name (VStr name) = false ->
      add storageService (VStr name) w0 = Some (Throw (VStr "TypeError"), w0)).
Proof.
  intros stored w0. split; [apply getAll_first_use|].
  intros Hname. unfold add. rewrite Hname. unfold bind.
  by rewrite the_students_null.
Qed.

End StudentFacts.

Section StudentsOnStorage.

Import StudentManager.

(** X29. What [save] has written is what a page that is loaded again
    reads: when the browser storage takes the write and the list is not
    empty and holds strings only, a new student manager on the same
    storage returns the list from [getAll()]. *)
Theorem students_survive_a_reload (w : world (students Storage.localStorage)) l c t :
  _students (st w) = Some l ->
  l <> [] ->
  forallb is_string l = true ->
  Storage.full (storage (st w)) = false ->
  exists w1 w2,
    save Storage.StorageService w = Some (Ret true, w1)
    /\ getAll Storage.StorageService (World (initial (storage (st w1))) c t)
         = Some (Ret (VArr l), w2).
Proof.
  intros Hl Hne Hstr Hfull.
  destruct (json_round_trip (VArr l) (strings_serializable l Hstr)) as (j & Hj & Hback).
  set (ls1 := Storage.mkLocalStorage
                (<[STUDENTS_KEY := default Malformed (JSON_stringify (VArr l))]>
                   (Storage.items (storage (st w)))) false).
  assert (Hsave : save Storage.StorageService w
                  = Some (Ret true, World (mkStudents (Some l) ls1) (console w) (trace w))).
  { rewrite save_spec. cbn zeta.
    cbn [StateManager.storage_set Storage.StorageService]. unfold Storage.set.
    rewrite Hfull. cbn [fst snd]. unfold students_value. by rewrite Hl. }
  assert (Hstored : StateManager.storage_get Storage.StorageService ls1 STUDENTS_KEY = VArr l).
  { cbn [StateManager.storage_get Storage.StorageService]. unfold Storage.get, ls1.
    cbn [Storage.items]. rewrite lookup_insert_eq. unfold JSON_stringify.
    rewrite Hj. simpl. by rewrite Hback. }
  destruct (getAll_first_use Storage.StorageService ls1 c t) as (w2 & Hget & _).
  rewrite Hstored in Hget. destruct l as [|x l]; [done|].
  eexists _, w2. split; [exact Hsave|]. exact Hget.
Qed.

End StudentsOnStorage.

(** ** Instances *)

Section BusInstances.

Import EventBus BusSpec.

Lemma off_without_event_removes_nothing_witness :
  let w := World (mkBus {["x" := [mkListener "listener_1" 3 0]]} ∅ 1) [] [] in
  off VNull VNull w = Some (Ret (VBool false), w)
  /\ off VUndefined VUndefined w =
       Some (Ret VUndefined, World (mkBus ∅ ∅ 1) [] []).
Proof.
  intros w. apply (off_without_event_removes_nothing VNull VNull w); discriminate.
Defined.

Lemma once_listener_of_every_event_stays_witness :
  let w := World (mkBus ∅ {["*" := [mkListener "once_1" 3 0]]} 1) [] [] in
  exists results w' calls,
    emit made_by "x" (VNum 7) w = Some (Ret results, w')
    /\ trace w' = trace w ++ calls
    /\ (forall l, l ∈ default [] (onceListeners (st w) !! "*") ->
          wildcard_call "x" (VNum 7) l ∈ calls)
    /\ onceListeners (st w') !! "*" = onceListeners (st w) !! "*".
Proof.
  intros w. apply (once_listener_of_every_event_stays made_by "x" (VNum 7) w).
  discriminate.
Defined.

End BusInstances.

Section LoaderInstances.

Import ModuleLoader LoaderSpec.

Lemma made_by_succeeds s : factories_succeed made_by s.
Proof. intros x c _ history args. eexists. split; reflexivity. Qed.

Lemma repository_ranked : dep_ranked repository_rank (modules (st repository)).
Proof. apply (bool_decide_unpack _). vm_compute. reflexivity. Qed.


Lemma resolveDependencies_lists_reachable_names_witness :
  exists out V w',
    resolveDependencies 8 "app" None repository = Some (Ret (out, V), w')
    /\ st w' = st repository
    /\ trace w' = trace repository
    /\ (is_Some (modules (st repository) !! "app") ->
        forall y, y ∈ out <-> tc (depends_on (modules (st repository))) "app" y)
    /\ (modules (st repository) !! "app" = None -> out = []).
Proof.
  apply (resolveDependencies_lists_reachable_names repository "app" 8).
  apply (bool_decide_unpack _). vm_compute. reflexivity.
Defined.

(** The factory of [a] throws and so does the [init] method of the
    instance of [m], which depends on [a]. *)
Lemma init_catches_every_exception_witness :
  let w := World (mkLoader (<["a" := mkEntry 3 [] VNull]> {["m" := mkEntry 1 ["a"] VNull]})
                           ∅ ∅) [] [] in
  let w' := World (mkLoader (<["a" := mkEntry 3 [] VNull]>
                               {["m" := mkEntry 1 ["a"] (VObj [("init", VFun 2)])]})
                            ∅ {["m"]})
                  [Log LError "模块初始化异常：" [VStr "a"; VStr "init failed"];
                   Log LError "依赖模块初始化失败：" [VStr "a"];
                   Log LError "模块初始化异常：" [VStr "m"; VStr "init failed"]]
                  [Call (Factory "a") 3 []; Call (Factory "m") 1 [VNull];
                   Call (InitMethod "m") 2 []] in
  initModule init_throws 2 "m" w = Some (Ret false, w')
  /\ exists b,
       Ret false = Ret b
       /\ codes (st w') = codes (st w)
       /\ initializedModules (st w) ⊆ initializedModules (st w')
       /\ (exists calls, trace w' = trace w ++ calls)
       /\ (b = true -> "m" ∈ initializedModules (st w')).
Proof.
  intros w w'.
  assert (Hrun : initModule init_throws 2 "m" w = Some (Ret false, w'))
    by (vm_compute; reflexivity).
  split; [exact Hrun|].
  exact (init_catches_every_exception init_throws 2 "m" w (Ret false) w' Hrun).
Defined.

Lemma init_method_exception_leaves_module_initialized_witness :
  let w := World (mkLoader {["m" := mkEntry 1 [] VNull]} ∅ ∅) [] [] in
  exists w' logs,
    initModule init_throws 1 "m" w = Some (Ret false, w')
    /\ console w' = logs ++ [Log LError "模块初始化异常：" [VStr "m"; VStr "init failed"]]
    /\ "m" ∈ initializedModules (st w')
    /\ get "m" w' = Some (Ret (VObj [("init", VFun 2)]), w')
    /\ initModule init_throws 1 "m" w' = Some (Ret true, w').
Proof.
  intros w.
  apply (init_method_exception_leaves_module_initialized init_throws (fun _ => 0%nat) 1 "m"
           (mkEntry 1 [] VNull) (VObj [("init", VFun 2)]) 2 (VStr "init failed") w).
  - apply (bool_decide_unpack _). vm_compute. reflexivity.
  - lia.
  - vm_compute. reflexivity.
  - apply not_elem_of_empty.
  - reflexivity.
  - reflexivity.
  - reflexivity.
  - reflexivity.
Defined.

Lemma init_calls_dependencies_first_witness :
  let n := "ui-components" in
  let m := mkEntry 5 ["state-manager"] VNull in
  exists b w' pre post,
    initModule made_by 4 n repository = Some (Ret b, w')
    /\ trace w' = trace repository ++ pre
                   ++ Call (Factory n) (factory m) (map (depInstance (st w')) (deps m)) :: post
    /\ Forall (fun c => exists g a, c = Call (InitMethod n) g a) post
    /\ (forall d, d ∈ deps m -> is_Some (modules (st repository) !! d) ->
          d ∈ initializedModules (st w')
          /\ (d ∉ initializedModules (st repository) ->
              length (factory_calls d pre) = 1%nat)).
Proof.
  intros n m.
  apply (init_calls_dependencies_first made_by repository_rank 4 n m repository).
  - apply repository_ranked.
  - apply made_by_succeeds.
  - vm_compute. lia.
  - vm_compute. reflexivity.
  - apply not_elem_of_empty.
Defined.

Lemma reset_makes_init_call_the_factory_again_witness :
  let n := "state-manager" in
  let m := mkEntry 4 ["storage"] VNull in
  exists w1,
    reset repository = Some (Ret tt, w1)
    /\ codes (st w1) = codes (st repository)
    /\ initializedModules (st w1) = ∅
    /\ trace w1 = trace repository
    /\ (forall k, exists w', get k w1 = Some (Ret VNull, w'))
    /\ exists b w2 pre args post,
         initModule made_by 4 n w1 = Some (Ret b, w2)
         /\ trace w2 = trace repository ++ pre ++ Call (Factory n) (factory m) args :: post.
Proof.
  intros n m.
  destruct (reset_makes_init_call_the_factory_again made_by repository)
    as (w1 & Hreset & Hcodes & Hnone & Htrace & Hget & Hinit).
  { vm_compute. reflexivity. }
  exists w1. split; [exact Hreset|]. split; [exact Hcodes|]. split; [exact Hnone|].
  split; [exact Htrace|]. split; [exact Hget|].
  apply (Hinit repository_rank 4%nat n m).
  - apply repository_ranked.
  - vm_compute. lia.
  - vm_compute. reflexivity.
Defined.


End LoaderInstances.

Section StoreInstances.

Import StateManager StoreSpec.



Lemma getState_keeps_the_default_keys_witness :
  let w := World (mkStore (Some (DEFAULT_STATE ++ [("a", VNum 1)])) []
                    (Storage.mkLocalStorage
                       (<[STATE_KEY := default Malformed
                                         (JSON_stringify (VObj (DEFAULT_STATE ++ [("a", VNum 1)])))]> ∅)
                       false))
                 [] [] in
  exists o w',
    getState Storage.StorageService w = Some (Ret o, w')
    /\ (forall k, k ∈ map fst DEFAULT_STATE -> k ∈ map fst o)
    /\ NoDup (map fst o).
Proof.
  intros w.
  apply (getState_keeps_the_default_keys Storage.StorageService made_by
           [SetState (VObj [("a", VNum 1)])] Storage.empty [] [] w).
  vm_compute. reflexivity.
Defined.

Lemma removeListener_undoes_addListener_witness :
  let w := World (mkStore None [("a", [("k1", 1%nat)])] Storage.empty) [] [] in
  exists w1 w2,
    addListener "k2" "a" (VFun 2) w = Some (Ret (VStr "k2"), w1)
    /\ removeListener "k2" w1 = Some (Ret true, w2)
    /\ _listeners (st w2) = _listeners (st w)
    /\ _state (st w2) = _state (st w).
Proof.
  intros w.
  apply (removeListener_undoes_addListener Storage.StorageService made_by
           [AddListener "k1" "a" (VFun 1)] Storage.empty [] [] w "k2" "a" 2).
  - reflexivity.
  - repeat constructor.
Defined.

Lemma setState_survives_a_reload_witness :
  let w := World (initial Storage.empty) [] [] in
  let new := obj_assign (obj_assign [] (current Storage.StorageService (st w)))
                        [("gradingMode", VBool true)] in
  exists w1 w2,
    setState Storage.StorageService made_by (VObj [("gradingMode", VBool true)]) w
      = Some (Ret true, w1)
    /\ getState Storage.StorageService w1 = Some (Ret new, w1)
    /\ getState Storage.StorageService (World (initial (storage (st w1))) [] [])
         = Some (Ret new, w2).
Proof.
  intros w new.
  apply (setState_survives_a_reload made_by [] Storage.empty [] [] w
           (VObj [("gradingMode", VBool true)]) [] []).
  - reflexivity.
  - reflexivity.
  - vm_compute. reflexivity.
Defined.

Lemma setState_hides_a_failed_write_witness :
  let w := World (initial tt) [] [] in
  let new := obj_assign (obj_assign [] (current refusing (st w)))
                        [("gradingMode", VBool true)] in
  storage_set refusing (storage (st w)) STATE_KEY (VObj new) = (false, storage (st w))
  /\ exists w1,
       setState refusing made_by (VObj [("gradingMode", VBool true)]) w
         = Some (Ret true, w1)
       /\ _state (st w1) = Some new
       /\ storage (st w1) = storage (st w).
Proof.
  intros w new. split; [reflexivity|].
  apply (setState_hides_a_failed_write refusing made_by
           (VObj [("gradingMode", VBool true)]) w).
  reflexivity.
Defined.

End StoreInstances.

Section StorageInstances.

Import Storage StoreSpec.

Lemma storage_get_returns_what_set_stored_witness :
  let v := VObj [("id", VNum 1); ("title", VStr "t")] in
  let ls' := (Storage.set Storage.empty "k" v).2 in
  (Storage.set Storage.empty "k" v).1 = true
  /\ (serializable v = true -> get_or ls' "k" VNull = v)
  /\ (to_json v = None -> get_or ls' "k" VNull = VNull)
  /\ (forall key', key' <> "k" -> get_or ls' key' VNull = get_or Storage.empty key' VNull)
  /\ get_or (remove ls' "k").2 "k" VNull = VNull
  /\ (forall key', get_or (clear ls').2 key' VNull = VNull).
Proof.
  intros v ls'.
  apply (storage_get_returns_what_set_stored Storage.empty "k" v VNull).
  reflexivity.
Defined.

Lemma migrateDataIfNeeded_runs_once_witness :
  let ls1 := (migrateDataIfNeeded Storage.empty).2 in
  getDataVersion ls1 = VStr CURRENT_DATA_VERSION
  /\ migrateDataIfNeeded ls1 = (false, ls1)
  /\ (items Storage.empty !! DATA_VERSION_KEY = None ->
      (migrateDataIfNeeded Storage.empty).1 = true).
Proof.
  intros ls1. apply (migrateDataIfNeeded_runs_once Storage.empty). reflexivity.
Defined.

End StorageInstances.

Section StudentInstances.

Import StudentManager.

(** The name is C between two ideographic spaces (U+3000). *)
Lemma add_appends_the_trimmed_name_witness :
  let l := [VStr "A"; VStr "B"] in
  let w := World (mkStudents (Some l) Storage.empty) [] [] in
  exists r w',
    add Storage.StorageService (VStr "　C　") w = Some (Ret r, w')
    /\ getCount Storage.StorageService w' = Some (Ret 3%nat, w')
    /\ getName Storage.StorageService (Z.of_nat (length l) + 1) w'
         = Some (Ret (VStr "C"), w')
    /\ forall id, 1 <= id <= Z.of_nat (length l) ->
         exists x, getName Storage.StorageService id w = Some (Ret x, w)
                   /\ getName Storage.StorageService id w' = Some (Ret x, w').
Proof.
  intros l w.
  apply (add_appends_the_trimmed_name Storage.StorageService w l "　C　").
  - reflexivity.
  - vm_compute. reflexivity.
Defined.

(** The name is C behind a no-break space (U+00A0) and before a
    space. *)
Lemma insert_then_delete_restores_the_list_witness :
  let l := [VStr "A"; VStr "B"] in
  let w := World (mkStudents (Some l) Storage.empty) [] [] in
  exists r1 w1 r2 w2,
    insert Storage.StorageService 2 (VStr " C ") w = Some (Ret r1, w1)
    /\ getName Storage.StorageService 2 w1 = Some (Ret (VStr "C"), w1)
    /\ deleteStudent Storage.StorageService 2 w1 = Some (Ret r2, w2)
    /\ _students (st w2) = Some l.
Proof.
  intros l w.
  apply (insert_then_delete_restores_the_list Storage.StorageService w l 2 " C ").
  - reflexivity.
  - vm_compute. reflexivity.
  - simpl. lia.
Defined.


(** The list of one module is imported into a new one. *)
Lemma students_import_of_export_witness :
  let l := [VStr "A"; VStr "B"] in
  let w := World (mkStudents (Some l) Storage.empty) [] [] in
  let w0 := World (initial Storage.empty) [] [] in
  exists t,
    exportData w = Some (Ret t, w)
    /\ (l <> [] ->
        let r := StateManager.storage_set Storage.StorageService (storage (st w0))
                   STUDENTS_KEY (VArr l) in
        importData Storage.StorageService t w0
        = Some (Ret r.1, World (mkStudents (Some l) r.2) (console w0) (trace w0)))
    /\ (l = [] -> importData Storage.StorageService t w0 = Some (Ret false, w0)).
Proof.
  intros l w w0.
  apply (students_import_of_export Storage.StorageService w w0 l); reflexivity.
Defined.

Lemma students_survive_a_reload_witness :
  let l := [VStr "A"; VStr "B"] in
  let w := World (mkStudents (Some l) Storage.empty) [] [] in
  exists w1 w2,
    save Storage.StorageService w = Some (Ret true, w1)
    /\ getAll Storage.StorageService (World (initial (storage (st w1))) [] [])
         = Some (Ret (VArr l), w2).
Proof.
  intros l w.
  apply (students_survive_a_reload w l [] []).
  - reflexivity.
  - discriminate.
  - reflexivity.
  - reflexivity.
Defined.

End StudentInstances.
